(** * MOOZ conferencing system: relay server and client receivers

    A shallow embedding of the protocol core of the repository:
    - [server.py]: the TCP demultiplexer of [ConferenceServer.handle_client],
      the registry ([clients], [username_to_conn]) with JOIN handling,
      [broadcast] and [remove_client], the UDP relay [udp_listener] and the
      file relay [handle_file_transfer];
    - [client_network.py]: the demultiplexer of [TCPReceiver.run] with
      [process_command], the byte-counted consumer
      [FileReceiverWorker.write_chunk], and the loss estimator of
      [MediaReceiver.run].

    Sockets are modelled by what the code observes of them: the list of
    chunks returned by successive [recv] calls, and the list of writes.
    GUI notifications ([log_signal], [participants_signal]) carry no
    protocol state and are left out. *)

From Stdlib Require Import ZArith Lia Strings.Byte String DecimalString SpecFloat.
From stdpp Require Import base option list gmap.

Local Open Scope Z_scope.

(** ** Byte strings and text *)

(** Python [bytes]. *)
Abbreviation bytes := (list byte).

(** Python [str]: a sequence of Unicode code points. *)
Abbreviation str := (list N).

#[global] Instance byte_eq_decision : EqDecision byte := Byte.byte_eq_dec.

(** A [bytes] literal. *)
Definition bytes_of (x : string) : bytes := list_byte_of_string x.

(** A [str] literal (ASCII only). *)
Definition str_of (x : string) : str := Byte.to_N <$> list_byte_of_string x.

Definition colon : byte := x3a.
Definition newline : byte := x0a.

(** [sep in x] and [x.partition(sep)] in one: [None] when the separator
    does not occur, otherwise the part before its first occurrence and the
    part after it.  Used for [bytes] and for [str]. *)
Fixpoint partition_at {A} `{EqDecision A} (sep : A) (x : list A)
  : option (list A * list A) :=
  match x with
  | [] => None
  | c :: tl =>
      if decide (c = sep) then Some ([], tl)
      else '(before, after) ← partition_at sep tl; Some (c :: before, after)
  end.

(** [x.split(sep, maxsplit)] for a one-element separator. *)
Fixpoint split_max {A} `{EqDecision A} (sep : A) (maxsplit : nat) (x : list A)
  : list (list A) :=
  match maxsplit with
  | O => [x]
  | S m =>
      match partition_at sep x with
      | None => [x]
      | Some (before, after) => before :: split_max sep m after
      end
  end.

(** [x.split(sep)]: there are at most [length x] separators to split at. *)
Definition split_all {A} `{EqDecision A} (sep : A) (x : list A) : list (list A) :=
  split_max sep (length x) x.

(** [str.isspace] for one code point. *)
Definition is_space (c : N) : bool :=
  bool_decide (c ∈ [9; 10; 11; 12; 13; 28; 29; 30; 31; 32; 133; 160; 5760;
                    8192; 8193; 8194; 8195; 8196; 8197; 8198; 8199; 8200;
                    8201; 8202; 8232; 8233; 8239; 8287; 12288]%N).

Fixpoint lstrip_with (space : N → bool) (x : str) : str :=
  match x with
  | c :: tl => if space c then lstrip_with space tl else x
  | [] => []
  end.

Definition strip_with (space : N → bool) (x : str) : str :=
  reverse (lstrip_with space (reverse (lstrip_with space x))).

(** [x.strip()] on a [str]. *)
Definition strip (x : str) : str := strip_with is_space x.

(** [len(x)] as a Python integer. *)
Definition len {A} (l : list A) : Z := Z.of_nat (length l).

(** The slices [l[:n]] and [l[n:]]; a negative [n] counts from the end. *)
Definition slice_to {A} (l : list A) (n : Z) : list A :=
  if decide (0 ≤ n) then take (Z.to_nat n) l
  else take (length l - Z.to_nat (- n))%nat l.

Definition slice_from {A} (l : list A) (n : Z) : list A :=
  if decide (0 ≤ n) then drop (Z.to_nat n) l
  else drop (length l - Z.to_nat (- n))%nat l.

(** The Python built-ins the receivers call on wire data.  The code only
    depends on their results, so the model takes them as an interface. *)
Class Codec := {
  (** [x.decode('utf-8')]; [None] stands for [UnicodeDecodeError]. *)
  utf8_decode : bytes → option str;
  (** [x.decode('utf-8', errors='ignore')]. *)
  utf8_decode_ignore : bytes → str;
  (** [int(x)] on a [str]; [None] stands for [ValueError]. *)
  int_of_str : str → option Z;
  (** [int(x)] on [bytes]; [None] stands for [ValueError]. *)
  int_of_bytes : bytes → option Z;
}.

(** An instance that agrees with CPython on ASCII input, used to run the
    model on concrete ASCII streams: bytes below 128 decode to themselves
    (any other byte is an error, or is dropped under [errors='ignore']), and
    [int] accepts surrounding white space, a sign, and decimal digits with
    single underscores between them. *)
Definition ascii_decode (x : bytes) : option str :=
  if forallb (λ c, Byte.to_N c <? 128)%N x then Some (Byte.to_N <$> x) else None.

Definition ascii_decode_ignore (x : bytes) : str :=
  Byte.to_N <$> filter (λ c, Byte.to_N c < 128)%N x.

Definition is_digit (c : N) : bool := ((48 <=? c) && (c <=? 57))%N.

Fixpoint digits_value (acc : Z) (after_digit : bool) (x : str) : option Z :=
  match x with
  | [] => if after_digit then Some acc else None
  | c :: tl =>
      if is_digit c then digits_value (10 * acc + Z.of_N (c - 48)) true tl
      else if decide (c = 95%N) then
        if after_digit then digits_value acc false tl else None
      else None
  end.

Definition decimal_int (space : N → bool) (x : str) : option Z :=
  match strip_with space x with
  | 45%N :: digits => Z.opp <$> digits_value 0 false digits
  | 43%N :: digits => digits_value 0 false digits
  | digits => digits_value 0 false digits
  end.

(** White space for [int] on [bytes]. *)
Definition is_ascii_space (c : N) : bool :=
  bool_decide (c ∈ [9; 10; 11; 12; 13; 32]%N).

#[global] Instance ascii_codec : Codec := {
  utf8_decode := ascii_decode;
  utf8_decode_ignore := ascii_decode_ignore;
  int_of_str := decimal_int is_space;
  int_of_bytes := λ x, decimal_int is_ascii_space (Byte.to_N <$> x);
}.

(** ** The inner parsing loop shared by both endpoints

    Both receivers run [while True:] over the buffer; one iteration either
    hands a complete frame to the dispatcher and continues with the rest of
    the buffer, leaves the loop with the buffer kept ([break]), leaves it
    with the buffer emptied ([buffer = b""; break]), or raises. *)

Inductive step_result (F : Type) : Type :=
| Emit (frame : F) (buffer : bytes)
| Incomplete
| Reset
| Raise.
Arguments Emit {F} frame buffer.
Arguments Incomplete {F}.
Arguments Reset {F}.
Arguments Raise {F}.

Inductive loop_exit : Type := Break | Raised.

#[global] Instance loop_exit_eq_dec : EqDecision loop_exit.
Proof. solve_decision. Defined.

Section Drain.
Context {F : Type} (step : bytes → step_result F).

(** The inner [while True:] loop.  [fuel] bounds the number of
    iterations; [drain] supplies more than the loop can use. *)
Fixpoint drain_fuel (fuel : nat) (buffer : bytes)
  : option (list F * bytes * loop_exit) :=
  match fuel with
  | O => None
  | S fuel' =>
      match step buffer with
      | Incomplete => Some ([], buffer, Break)
      | Reset => Some ([], [], Break)
      | Raise => Some ([], buffer, Raised)
      | Emit frame rest =>
          '(frames, final, exit) ← drain_fuel fuel' rest;
          Some (frame :: frames, final, exit)
      end
  end.

Definition drain (buffer : bytes) : option (list F * bytes * loop_exit) :=
  drain_fuel (S (length buffer)) buffer.

(** A buffer is parsed cleanly when the inner loop, started on it, only
    takes iterations accepted by [ok] and leaves by suspending on an
    incomplete frame: it never empties the buffer and never raises. *)
Context (ok : bytes → bool).

Fixpoint clean_fuel (fuel : nat) (buffer : bytes) : bool :=
  match fuel with
  | O => false
  | S fuel' =>
      ok buffer &&
      match step buffer with
      | Incomplete => true
      | Emit _ rest => clean_fuel fuel' rest
      | Reset | Raise => false
      end
  end.

Definition clean (buffer : bytes) : bool := clean_fuel (S (length buffer)) buffer.
End Drain.

(** ** server.py: the demultiplexer of [handle_client] *)

Inductive srv_frame : Type :=
| SrvMessage (command payload : str)   (* handle_tcp_message(conn, username, command, payload) *)
| SrvBinary (content : bytes).         (* handle_tcp_binary(conn, username, "SCRN", content) *)

#[global] Instance srv_frame_eq_dec : EqDecision srv_frame.
Proof. solve_decision. Defined.

Definition srv_text_commands : list str :=
  [str_of "MSG"; str_of "PING"; str_of "SCRN_START"; str_of "SCRN_STOP"; str_of "FILE_INIT"].

(** What the head of the buffer announces, once its fields are delimited. *)
Inductive srv_header : Type :=
| SrvNoHeader                                   (* b':' not in buffer *)
| SrvTextHeader (command : str) (rest : bytes)  (* a line-mode command *)
| SrvScrnPartial                                (* SCRN, length field not closed *)
| SrvScrnHeader (data_size : Z) (data_rest : bytes)
| SrvBadHeader.                                 (* unknown command, or unparsable length *)

Section Server_demux.
Context `{Codec}.

Definition srv_parse_header (buffer : bytes) : srv_header :=
  match partition_at colon buffer with
  | None => SrvNoHeader
  | Some (header, rest) =>
      let command := utf8_decode_ignore header in
      if decide (command ∈ srv_text_commands) then SrvTextHeader command rest
      else if decide (command = str_of "SCRN") then
        match partition_at colon rest with
        | None => SrvScrnPartial
        | Some (size_str, data_rest) =>
            match utf8_decode size_str ≫= int_of_str with
            | Some data_size => SrvScrnHeader data_size data_rest
            | None => SrvBadHeader
            end
        end
      else SrvBadHeader
  end.

(** One iteration of the inner loop of [handle_client]. *)
Definition srv_step (buffer : bytes) : step_result srv_frame :=
  match srv_parse_header buffer with
  | SrvNoHeader => Incomplete
  | SrvTextHeader command rest =>
      match partition_at newline rest with
      | Some (payload, buffer') =>
          Emit (SrvMessage command (utf8_decode_ignore payload)) buffer'
      | None => Incomplete
      end
  | SrvScrnPartial => Incomplete
  | SrvScrnHeader data_size data_rest =>
      if decide (data_size ≤ len data_rest) then
        Emit (SrvBinary (slice_to data_rest data_size))
             (slice_from data_rest data_size)
      else Incomplete
  | SrvBadHeader => Reset
  end.

(** The iteration does not read a negative length from a SCRN header. *)
Definition srv_length_ok (buffer : bytes) : bool :=
  match srv_parse_header buffer with
  | SrvScrnHeader data_size _ => bool_decide (0 ≤ data_size)
  | _ => true
  end.

Definition srv_clean (buffer : bytes) : bool := clean srv_step srv_length_ok buffer.

(** The message loop of [handle_client], run over the chunks that the
    successive [conn.recv(4096)] calls return.  An empty chunk is the
    peer's close and ends the loop.  The result is the list of frames
    handed to the dispatcher and the buffer left at the end. *)
Fixpoint srv_loop (buffer : bytes) (chunks : list bytes)
  : option (list srv_frame * bytes) :=
  match chunks with
  | [] => Some ([], buffer)
  | data :: chunks' =>
      if decide (data = []) then Some ([], buffer)
      else
        '(frames, buffer', exit) ← drain srv_step (buffer ++ data);
        match exit with
        | Raised => Some (frames, buffer')
        | Break =>
            '(frames', final) ← srv_loop buffer' chunks';
            Some (frames ++ frames', final)
        end
  end.

Definition srv_run (chunks : list bytes) : option (list srv_frame * bytes) :=
  srv_loop [] chunks.
End Server_demux.

(** The recovery policy in the words of the specification's error table,
    for comparison with the code: the buffered bytes up to and including
    the next newline are dropped and the rest is kept. *)
Definition discard_to_line_boundary (buffer : bytes) : bytes :=
  match partition_at newline buffer with
  | Some (_, after) => after
  | None => []
  end.

(** ** client_network.py: the demultiplexer of [TCPReceiver.run] *)

(** The signals the receiver emits towards the rest of the client. *)
Inductive cli_event : Type :=
| ScreenShareStarted (payload : str)
| ScreenShareStopped (payload : str)
| FileIncoming (from_user filename : str) (filesize : Z)
| UserLeft (payload : str)
| MessageReceived (text : str)
| ScreenFrameReceived (username : str) (frame : bytes)
| FileDataReceived (data : bytes).

#[global] Instance cli_event_eq_dec : EqDecision cli_event.
Proof. solve_decision. Defined.

Definition cli_text_commands : list str :=
  [str_of "SYSTEM"; str_of "CHAT"; str_of "PONG"; str_of "SCRN_START";
   str_of "SCRN_STOP"; str_of "FILE_INCOMING"; str_of "USER_LEFT"].

(** [process_command] sets [is_receiving_file] exactly when it emits
    [file_incoming]. *)
Definition is_file_incoming (e : cli_event) : bool :=
  match e with FileIncoming _ _ _ => true | _ => false end.

Inductive cli_header : Type :=
| CliNoHeader                                   (* b':' not in buffer *)
| CliTextHeader (command : str) (rest : bytes)
| CliScrnPartial                                (* SCRN, a field not closed *)
| CliScrnHeader (username : str) (frame_size : Z) (frame_data : bytes)
| CliBadHeader                                  (* buffer = b""; break *)
| CliHeaderError.                               (* an exception leaves the loop *)

Section Client_demux.
Context `{Codec}.

(** [TCPReceiver.process_command]; [None] when it raises (the unpacking
    of [payload.split(':', 2)] or [int(filesize)]). *)
Definition process_command (command payload : str) : option cli_event :=
  if decide (command = str_of "SCRN_START") then Some (ScreenShareStarted payload)
  else if decide (command = str_of "SCRN_STOP") then Some (ScreenShareStopped payload)
  else if decide (command = str_of "FILE_INCOMING") then
    match split_max 58%N 2 payload with
    | [from_user; filename; filesize] =>
        size ← int_of_str filesize; Some (FileIncoming from_user filename size)
    | _ => None
    end
  else if decide (command = str_of "USER_LEFT") then Some (UserLeft payload)
  else Some (MessageReceived (command ++ [58%N] ++ payload)).

Definition cli_parse_header (buffer : bytes) : cli_header :=
  match partition_at colon buffer with
  | None => CliNoHeader
  | Some (header, rest) =>
      match utf8_decode header with
      | None => CliBadHeader
      | Some command =>
          if decide (command ∈ cli_text_commands) then CliTextHeader command rest
          else if decide (command = str_of "SCRN") then
            match partition_at colon rest with
            | None => CliScrnPartial
            | Some (username_bytes, data_rest) =>
                match utf8_decode username_bytes with
                | None => CliHeaderError
                | Some username =>
                    match partition_at colon data_rest with
                    | None => CliScrnPartial
                    | Some (size_str, frame_data) =>
                        match int_of_bytes size_str with
                        | Some frame_size => CliScrnHeader username frame_size frame_data
                        | None => CliBadHeader
                        end
                    end
                end
            end
          else CliBadHeader
      end
  end.

(** One iteration of the inner loop of [TCPReceiver.run]. *)
Definition cli_step (buffer : bytes) : step_result cli_event :=
  match cli_parse_header buffer with
  | CliNoHeader => Incomplete
  | CliTextHeader command rest =>
      match partition_at newline rest with
      | Some (payload, buffer') =>
          match utf8_decode payload ≫= process_command command with
          | Some event => Emit event buffer'
          | None => Raise
          end
      | None => Incomplete
      end
  | CliScrnPartial => Incomplete
  | CliScrnHeader username frame_size frame_data =>
      if decide (frame_size ≤ len frame_data) then
        Emit (ScreenFrameReceived username (slice_to frame_data frame_size))
             (slice_from frame_data frame_size)
      else Incomplete
  | CliBadHeader => Reset
  | CliHeaderError => Raise
  end.

(** The iteration does not read a negative length from a SCRN header
    and does not dispatch FILE_INCOMING. *)
Definition cli_step_ok (buffer : bytes) : bool :=
  match cli_parse_header buffer with
  | CliScrnHeader _ frame_size _ => bool_decide (0 ≤ frame_size)
  | _ => true
  end &&
  match cli_step buffer with
  | Emit event _ => negb (is_file_incoming event)
  | _ => true
  end.

Definition cli_clean (buffer : bytes) : bool := clean cli_step cli_step_ok buffer.

(** The state of a [TCPReceiver] between two [recv] calls. *)
Record tcp_receiver : Type := TcpReceiver {
  buffer : bytes;
  is_receiving_file : bool;
}.

Definition tcp_receiver_init : tcp_receiver :=
  {| buffer := []; is_receiving_file := false |}.

(** The body of the outer loop of [TCPReceiver.run] for one non-empty
    chunk: in raw mode the chunk goes to [file_data_received]; otherwise
    it is appended to the buffer and the inner loop runs. *)
Definition tcp_on_data (r : tcp_receiver) (data : bytes)
  : option (list cli_event * tcp_receiver * loop_exit) :=
  if is_receiving_file r then Some ([FileDataReceived data], r, Break)
  else
    '(events, buffer', exit) ← drain cli_step (buffer r ++ data);
    Some (events,
          {| buffer := buffer';
             is_receiving_file := existsb is_file_incoming events |},
          exit).

(** [TCPReceiver.run] over the chunks returned by [recv], with nothing
    connected to [file_data_received]. *)
Fixpoint cli_loop (r : tcp_receiver) (chunks : list bytes)
  : option (list cli_event * tcp_receiver) :=
  match chunks with
  | [] => Some ([], r)
  | data :: chunks' =>
      if decide (data = []) then Some ([], r)
      else
        '(events, r', exit) ← tcp_on_data r data;
        match exit with
        | Raised => Some (events, r')
        | Break =>
            '(events', final) ← cli_loop r' chunks';
            Some (events ++ events', final)
        end
  end.

Definition cli_run (chunks : list bytes) : option (list cli_event * tcp_receiver) :=
  cli_loop tcp_receiver_init chunks.
End Client_demux.

(** ** client_network.py: [FileReceiverWorker] *)

Record file_worker : Type := FileWorker {
  filesize : Z;
  bytes_received : Z;
  file : bytes;          (* what has been written to the file so far *)
}.

(** [FileReceiverWorker.write_chunk]; the boolean tells whether [finish]
    was called, which disconnects the worker and calls
    [stop_file_receive_mode] on the receiver. *)
Definition write_chunk (w : file_worker) (chunk : bytes) : file_worker * bool :=
  let bytes_to_write := Z.min (len chunk) (filesize w - bytes_received w) in
  let w' := {| filesize := filesize w;
               bytes_received := bytes_received w + bytes_to_write;
               file := file w ++ slice_to chunk bytes_to_write |} in
  (w', bool_decide (filesize w' ≤ bytes_received w')).

(** A receiving client: the receiver, the file worker connected to
    [file_data_received] (if any), and the files completed so far.
    [handle_incoming_file] of [client.py] creates the worker when the user
    accepts; here the answer [accept] is given at once, so that no chunk
    can arrive between the dispatch and the connection of the worker. *)
Record client : Type := Client {
  receiver : tcp_receiver;
  worker : option file_worker;
  saved : list bytes;
}.

Definition client_init : client :=
  {| receiver := tcp_receiver_init; worker := None; saved := [] |}.

(** Delivery of one signal to its slot. *)
Definition deliver (accept : bool) (c : client) (e : cli_event) : client :=
  match e with
  | FileIncoming _ _ size =>
      if accept then
        {| receiver := receiver c;
           worker := Some {| filesize := size; bytes_received := 0; file := [] |};
           saved := saved c |}
      else c
  | FileDataReceived data =>
      match worker c with
      | None => c
      | Some w =>
          let '(w', finished) := write_chunk w data in
          if finished then
            {| receiver := {| buffer := buffer (receiver c); is_receiving_file := false |};
               worker := None;
               saved := saved c ++ [file w'] |}
          else {| receiver := receiver c; worker := Some w'; saved := saved c |}
      end
  | _ => c
  end.

Section Client_session.
Context `{Codec}.

(** The receiving client over the chunks returned by [recv]: each chunk
    is processed by the receiver and the signals are then delivered in
    order.  The result is the list of all signals and the final state. *)
Fixpoint cli_session (accept : bool) (c : client) (chunks : list bytes)
  : option (list cli_event * client) :=
  match chunks with
  | [] => Some ([], c)
  | data :: chunks' =>
      if decide (data = []) then Some ([], c)
      else
        '(events, r', exit) ← tcp_on_data (receiver c) data;
        let c' := foldl (deliver accept)
                    {| receiver := r'; worker := worker c; saved := saved c |}
                    events in
        match exit with
        | Raised => Some (events, c')
        | Break =>
            '(events', final) ← cli_session accept c' chunks';
            Some (events ++ events', final)
        end
  end.
End Client_session.

(** ** server.py: the registry and the operations on it *)

(** A connection is identified by its socket object; an address is a
    [(host, port)] pair. *)
Abbreviation conn := nat (only parsing).
Abbreviation addr := (str * Z)%type (only parsing).

(** A Python [dict] in insertion order, as [clients] is iterated. *)
Fixpoint dict_get {K V} `{EqDecision K} (k : K) (d : list (K * V)) : option V :=
  match d with
  | [] => None
  | (k', v) :: d' => if decide (k' = k) then Some v else dict_get k d'
  end.

Fixpoint dict_set {K V} `{EqDecision K} (k : K) (v : V) (d : list (K * V))
  : list (K * V) :=
  match d with
  | [] => [(k, v)]
  | (k', v') :: d' =>
      if decide (k' = k) then (k, v) :: d' else (k', v') :: dict_set k v d'
  end.

Fixpoint dict_pop {K V} `{EqDecision K} (k : K) (d : list (K * V)) : list (K * V) :=
  match d with
  | [] => []
  | (k', v') :: d' =>
      if decide (k' = k) then dict_pop k d' else (k', v') :: dict_pop k d'
  end.

Definition dict_keys {K V} (d : list (K * V)) : list K := fst <$> d.

(** What the server does to its sockets. *)
Inductive srv_event : Type :=
| SendText (c : conn) (message : str)    (* c.sendall(message.encode('utf-8')) *)
| SendBytes (c : conn) (data : bytes)    (* c.sendall(data) *)
| SendScrn (c : conn) (username : str) (data : bytes)
    (* c.sendall(f"SCRN:{username}:{len(data)}:".encode('utf-8') + data) *)
| Close (c : conn)                       (* c.close() *)
| SendTo (dest : addr) (data : bytes).   (* sock.sendto(data, dest) *)

#[global] Instance srv_event_eq_dec : EqDecision srv_event.
Proof. solve_decision. Defined.

Record server : Type := Server {
  clients : list (conn * (str * addr));   (* { tcp_conn: (username, udp_addr) } *)
  username_to_conn : gmap str conn;       (* { username: tcp_conn } *)
  lock_held : bool;                       (* self.lock, a threading.Lock *)
  running : bool;
  trace : list srv_event;
}.

Definition server_init : server :=
  {| clients := []; username_to_conn := ∅; lock_held := false;
     running := true; trace := [] |}.

Definition set_clients (f : list (conn * (str * addr)) → list (conn * (str * addr)))
    (σ : server) : server :=
  {| clients := f (clients σ); username_to_conn := username_to_conn σ;
     lock_held := lock_held σ; running := running σ; trace := trace σ |}.

Definition set_username_to_conn (f : gmap str conn → gmap str conn)
    (σ : server) : server :=
  {| clients := clients σ; username_to_conn := f (username_to_conn σ);
     lock_held := lock_held σ; running := running σ; trace := trace σ |}.

Definition set_lock (held : bool) (σ : server) : server :=
  {| clients := clients σ; username_to_conn := username_to_conn σ;
     lock_held := held; running := running σ; trace := trace σ |}.

Definition log_event (e : srv_event) (σ : server) : server :=
  {| clients := clients σ; username_to_conn := username_to_conn σ;
     lock_held := lock_held σ; running := running σ; trace := trace σ ++ [e] |}.

(** How a call made by one thread ends: it returns, an exception leaves
    it, or the thread waits for [self.lock] with nobody left to release it.
    [NoFuel] is the model's own bound on the nesting of [broadcast] and
    [remove_client]. *)
Inductive outcome (A : Type) : Type :=
| Done (a : A) (σ : server)
| Throws (σ : server)
| Blocks (σ : server)
| NoFuel.
Arguments Done {A} a σ.
Arguments Throws {A} σ.
Arguments Blocks {A} σ.
Arguments NoFuel {A}.

Definition act (A : Type) : Type := server → outcome A.

Definition ret {A} (a : A) : act A := λ σ, Done a σ.

Definition bind {A B} (m : act A) (k : A → act B) : act B :=
  λ σ, match m σ with
       | Done a σ' => k a σ'
       | Throws σ' => Throws σ'
       | Blocks σ' => Blocks σ'
       | NoFuel => NoFuel
       end.

Notation "'do' x <- m ; k" := (bind m (λ x, k))
  (at level 10, x name, m at level 100, k at level 200).
Notation "m ;; k" := (bind m (λ _, k))
  (at level 100, k at level 200, right associativity).

Definition throw {A} : act A := λ σ, Throws σ.

(** [try: m except: handler]. *)
Definition catch {A} (m handler : act A) : act A :=
  λ σ, match m σ with
       | Throws σ' => handler σ'
       | other => other
       end.

Definition modify (f : server → server) : act unit := λ σ, Done () (f σ).

(** [with self.lock: body].  [threading.Lock] is not re-entrant: acquiring
    it while it is held waits until it is released. *)
Definition with_lock {A} (body : act A) : act A :=
  λ σ, if lock_held σ then Blocks σ
       else match body (set_lock true σ) with
            | Done a σ' => Done a (set_lock false σ')
            | Throws σ' => Throws (set_lock false σ')
            | Blocks σ' => Blocks σ'
            | NoFuel => NoFuel
            end.

Fixpoint for_each {A} (l : list A) (body : A → act unit) : act unit :=
  match l with
  | [] => ret ()
  | x :: l' => body x ;; for_each l' body
  end.

(** Writes to the connections in [fails] raise. *)
Definition sendall_text (fails : conn → bool) (c : conn) (message : str) : act unit :=
  if fails c then throw else modify (log_event (SendText c message)).

Definition sendall_bytes (fails : conn → bool) (c : conn) (data : bytes) : act unit :=
  if fails c then throw else modify (log_event (SendBytes c data)).

Definition sendall_scrn (fails : conn → bool) (c : conn) (username : str)
    (data : bytes) : act unit :=
  if fails c then throw else modify (log_event (SendScrn c username data)).

Definition close (c : conn) : act unit := modify (log_event (Close c)).

(** [broadcast], with the [remove_client] it calls on a failed write. *)
Definition broadcast_with (remove : conn → act unit) (fails : conn → bool)
    (message : str) (sender_conn : option conn) : act unit :=
  with_lock (λ σ,
    for_each (dict_keys (clients σ)) (λ c,
      if decide (Some c ≠ sender_conn)
      then catch (sendall_text fails c message) (remove c)
      else ret ()) σ).

(** [remove_client]; [depth] bounds the nesting of calls. *)
Fixpoint remove_client_at (depth : nat) (fails : conn → bool) (c : conn) : act unit :=
  match depth with
  | O => λ _, NoFuel
  | S depth' =>
      with_lock (λ σ,
        match dict_get c (clients σ) with
        | Some (username, _) =>
            (modify (set_clients (dict_pop c)) ;;
             modify (set_username_to_conn (delete username)) ;;
             broadcast_with (remove_client_at depth' fails) fails
               (str_of "USER_LEFT:" ++ username ++ [10%N]) None ;;
             broadcast_with (remove_client_at depth' fails) fails
               (str_of "SYSTEM:" ++ username ++ str_of " has left the chat." ++ [10%N])
               None ;;
             close c) σ
        | None => ret () σ
        end)
  end.

Definition remove_client (fails : conn → bool) (c : conn) : act unit :=
  remove_client_at 1 fails c.

Definition broadcast (fails : conn → bool) (message : str)
    (sender_conn : option conn) : act unit :=
  broadcast_with (remove_client fails) fails message sender_conn.

(** [handle_tcp_binary] for the command SCRN. *)
Definition handle_tcp_binary (fails : conn → bool) (c : conn) (username : str)
    (data : bytes) : act unit :=
  with_lock (λ σ,
    for_each (dict_keys (clients σ)) (λ c',
      if decide (c' ≠ c)
      then catch (sendall_scrn fails c' username data) (remove_client fails c')
      else ret ()) σ).

(** The [finally] clause of [handle_client]. *)
Definition handle_disconnect (fails : conn → bool) (c : conn) : act unit :=
  λ σ, if decide (is_Some (dict_get c (clients σ)))
       then remove_client fails c σ else ret () σ.

Inductive join_result : Type :=
| Joined (username : str)
| UsernameTaken          (* ERROR:USERNAME_TAKEN was sent *)
| NotJoin                (* the first message is no JOIN with three fields *)
| JoinError.             (* an exception ended the handler *)

#[global] Instance join_result_eq_dec : EqDecision join_result.
Proof. solve_decision. Defined.

(** How the first message of a connection reads. *)
Inductive join_parse : Type :=
| JoinRequest (username : str) (client_udp_port : Z)
| JoinMalformed          (* not JOIN, or not three fields *)
| JoinRaises.            (* decode or int raises *)

(** A connection as [handle_client] receives it: the socket, the peer's
    host, the result of the first [recv], and the connections to which
    writes fail while it is handled. *)
Record join_request : Type := JoinReq {
  req_fails : conn → bool;
  req_conn : conn;
  req_host : str;
  req_data : bytes;
}.

(** An entry point of a server thread that touches the registry. *)
Inductive registry_op : Type :=
| OpJoin (r : join_request)
| OpDisconnect (fails : conn → bool) (c : conn)
| OpRemove (fails : conn → bool) (c : conn)
| OpBroadcast (fails : conn → bool) (message : str) (sender_conn : option conn)
| OpBinary (fails : conn → bool) (c : conn) (username : str) (data : bytes).

(** The state a call leaves behind, however it ends. *)
Definition state_after {A} (o : outcome A) (σ : server) : server :=
  match o with
  | Done _ σ' | Throws σ' | Blocks σ' => σ'
  | NoFuel => σ
  end.

(** Two states with the same registry. *)
Definition same_registry (σ σ' : server) : Prop :=
  clients σ' = clients σ ∧ username_to_conn σ' = username_to_conn σ ∧
  running σ' = running σ.

(** A call that, made while the lock is held, leaves the registry and the
    lock as they are, however it ends. *)
Definition keeps_registry {A} (m : act A) : Prop :=
  ∀ σ, lock_held σ = true →
    match m σ with
    | Done _ σ' | Throws σ' | Blocks σ' => same_registry σ σ' ∧ lock_held σ' = true
    | NoFuel => False
    end.

(** The same, for a call that moreover lets no exception escape. *)
Definition keeps_registry_quietly {A} (m : act A) : Prop :=
  ∀ σ, lock_held σ = true →
    match m σ with
    | Done _ σ' | Blocks σ' => same_registry σ σ' ∧ lock_held σ' = true
    | Throws _ | NoFuel => False
    end.

(** The invariant of the registry: [clients] has one entry per
    connection, and a session is in [clients] exactly when its username
    maps to its connection in [username_to_conn]. *)
Definition registry_inv (σ : server) : Prop :=
  NoDup (dict_keys (clients σ)) ∧
  (∀ c username a,
     dict_get c (clients σ) = Some (username, a) →
     username_to_conn σ !! username = Some c) ∧
  (∀ username c,
     username_to_conn σ !! username = Some c →
     ∃ a, dict_get c (clients σ) = Some (username, a)).

(** Usernames are unique among the sessions in [clients]. *)
Definition usernames_unique (σ : server) : Prop :=
  ∀ c1 c2 username a1 a2,
    dict_get c1 (clients σ) = Some (username, a1) →
    dict_get c2 (clients σ) = Some (username, a2) → c1 = c2.

Definition is_joined (r : join_result) : bool :=
  match r with Joined _ => true | _ => false end.

Section Server_join.
Context `{Codec}.

Definition parse_join (data : bytes) : join_parse :=
  match utf8_decode data with
  | None => JoinRaises
  | Some join_msg =>
      match split_all 58%N (strip join_msg) with
      | [p0; username; p2] =>
          if decide (p0 = str_of "JOIN") then
            match int_of_str p2 with
            | Some client_udp_port => JoinRequest username client_udp_port
            | None => JoinRaises
            end
          else JoinMalformed
      | _ => JoinMalformed
      end
  end.

(** The critical section of the registration. *)
Definition register (fails : conn → bool) (c : conn) (username : str)
    (client_udp_addr : addr) : act bool :=
  with_lock (λ σ,
    if decide (is_Some (username_to_conn σ !! username)) then
      (sendall_bytes fails c (bytes_of "ERROR:USERNAME_TAKEN" ++ [newline]) ;;
       close c ;; ret false) σ
    else
      (modify (set_clients (dict_set c (username, client_udp_addr))) ;;
       modify (set_username_to_conn (<[username := c]>)) ;;
       ret true) σ).

(** Step 1 of [handle_client] for the connection [c] accepted from
    [host], where the first [recv] returned [data]; for every result but
    [Joined] the handler then runs its [finally] clause. *)
Definition handle_join (fails : conn → bool) (c : conn) (host : str)
    (data : bytes) : act join_result :=
  do r <- catch
    (match parse_join data with
     | JoinRaises => throw
     | JoinMalformed => close c ;; ret NotJoin
     | JoinRequest username client_udp_port =>
         do registered <- register fails c username (host, client_udp_port);
         if registered : bool then
           broadcast fails
             (str_of "SYSTEM:" ++ username ++
              str_of " has joined the chat." ++ [10%N]) (Some c) ;;
           ret (Joined username)
         else ret UsernameTaken
     end)
    (ret JoinError);
  match r with
  | Joined _ => ret r
  | _ => handle_disconnect fails c ;; ret r
  end.

(** The session of [username] on [c] has been added to both maps. *)
Definition registered (c : nat) (host : str) (data : bytes) (username : str)
    (σ σ' : server) : Prop :=
  ∃ port, parse_join data = JoinRequest username port ∧
          lock_held σ = false ∧
          username_to_conn σ !! username = None ∧
          clients σ' = dict_set c (username, (host, port)) (clients σ) ∧
          username_to_conn σ' = <[username := c]> (username_to_conn σ).

(** Connections handled one after the other; [None] when a handler does
    not return. *)
Fixpoint handle_joins (requests : list join_request) (σ : server)
  : option (server * list join_result) :=
  match requests with
  | [] => Some (σ, [])
  | r :: requests' =>
      match handle_join (req_fails r) (req_conn r) (req_host r) (req_data r) σ with
      | Done result σ' =>
          '(final, results) ← handle_joins requests' σ';
          Some (final, result :: results)
      | _ => None
      end
  end.

(** The usernames asked for by the requests that parse as JOIN. *)
Definition join_usernames (requests : list join_request) : list str :=
  omap (λ r, match parse_join (req_data r) with
             | JoinRequest username _ => Some username
             | _ => None
             end) requests.

Definition run_op (op : registry_op) (σ : server) : server :=
  match op with
  | OpJoin r =>
      state_after (handle_join (req_fails r) (req_conn r) (req_host r) (req_data r) σ) σ
  | OpDisconnect fails c => state_after (handle_disconnect fails c σ) σ
  | OpRemove fails c => state_after (remove_client fails c σ) σ
  | OpBroadcast fails message sender_conn =>
      state_after (broadcast fails message sender_conn σ) σ
  | OpBinary fails c username data =>
      state_after (handle_tcp_binary fails c username data σ) σ
  end.

(** A socket returned by [accept] is a new object: it is not a key of
    [clients] when its handler starts. *)
Definition op_allowed (op : registry_op) (σ : server) : Prop :=
  match op with
  | OpJoin r => dict_get (req_conn r) (clients σ) = None
  | _ => True
  end.

(** The states of the server: started empty, then changed by its
    threads' calls, which the lock serializes. *)
Inductive reachable : server → Prop :=
| reachable_init : reachable server_init
| reachable_step op σ :
    reachable σ → op_allowed op σ → reachable (run_op op σ).
End Server_join.

(** ** server.py: the UDP relay *)

(** One iteration of [udp_listener] after [recvfrom] returned [data] from
    [src]; sends to the addresses in [send_fails] raise. *)
Definition udp_forward (send_fails : addr → bool) (data : bytes) (src : addr)
    : act unit :=
  with_lock (λ σ,
    for_each (clients σ) (λ '(_, (_, client_udp_addr)),
      if decide (client_udp_addr ≠ src) then
        if send_fails client_udp_addr then throw
        else modify (log_event (SendTo client_udp_addr data))
      else ret ()) σ).

Inductive listener_state : Type :=
| Listening      (* waiting in recvfrom *)
| Stopped        (* the thread has left the loop *)
| Stuck.         (* the thread waits for the lock *)

(** [udp_listener] over the datagrams that arrive. *)
Fixpoint udp_listener (send_fails : addr → bool) (datagrams : list (bytes * addr))
    (σ : server) : option (server * listener_state) :=
  match datagrams with
  | [] => Some (σ, if running σ then Listening else Stopped)
  | (data, src) :: datagrams' =>
      if running σ then
        match udp_forward send_fails data src σ with
        | Done _ σ' => udp_listener send_fails datagrams' σ'
        | Throws σ' =>
            (* except Exception: if self.running: break *)
            if running σ' then Some (σ', Stopped)
            else udp_listener send_fails datagrams' σ'
        | Blocks σ' => Some (σ', Stuck)
        | NoFuel => None
        end
      else Some (σ, Stopped)
  end.

(** ** server.py: the file relay *)

(** The sender's socket as the relay sees it: the segments still to
    arrive.  [recv(bufsize)] returns at most [bufsize] bytes of the first
    segment and leaves the rest of it for the next call.  An empty segment
    is a zero-length read; with no segment left the peer has closed. *)
Definition recv (bufsize : Z) (pending : list bytes) : bytes * list bytes :=
  match pending with
  | [] => ([], [])
  | segment :: pending' =>
      let left := drop (Z.to_nat bufsize) segment in
      (take (Z.to_nat bufsize) segment,
       if decide (left = []) then pending' else left :: pending')
  end.

(** The bytes a socket delivers before its first zero-length read. *)
Fixpoint available (pending : list bytes) : bytes :=
  match pending with
  | [] => []
  | segment :: pending' =>
      if decide (segment = []) then [] else segment ++ available pending'
  end.

(** The state of the relay loop of [handle_file_transfer]. *)
Record transfer : Type := Transfer {
  requests : list Z;          (* the chunk_size of every recv, in order *)
  relayed : list bytes;       (* the chunks passed to receiver_conn.sendall *)
  bytes_transferred : Z;
  unread : list bytes;        (* what the sender's socket still holds *)
}.

(** [while bytes_transferred < filesize: ...]; [fuel] bounds the number of
    iterations. *)
Fixpoint relay_loop (fuel : nat) (filesize : Z) (t : transfer) : option transfer :=
  match fuel with
  | O => None
  | S fuel' =>
      if decide (bytes_transferred t < filesize) then
        let chunk_size := Z.min 4096 (filesize - bytes_transferred t) in
        let '(chunk, unread') := recv chunk_size (unread t) in
        if decide (chunk = []) then
          Some {| requests := requests t ++ [chunk_size]; relayed := relayed t;
                  bytes_transferred := bytes_transferred t; unread := unread' |}
        else
          relay_loop fuel' filesize
            {| requests := requests t ++ [chunk_size];
               relayed := relayed t ++ [chunk];
               bytes_transferred := bytes_transferred t + len chunk;
               unread := unread' |}
      else Some t
  end.

(** Every iteration but the last relays at least one byte, so the loop
    runs at most [filesize + 1] times. *)
Definition relay (filesize : Z) (sender : list bytes) : option transfer :=
  relay_loop (S (Z.to_nat filesize)) filesize
    {| requests := []; relayed := []; bytes_transferred := 0; unread := sender |}.

(** What holds of the relay state at the head of the loop, for a transfer
    of [N] bytes from a socket that delivers [A]. *)
Record relay_inv (N : Z) (A : bytes) (t : transfer) : Prop := RelayInv {
  inv_requests : ∀ i k, requests t !! i = Some k →
                   k = Z.min 4096 (N - len (concat (take i (relayed t))));
  inv_chunks : ∀ i chunk, relayed t !! i = Some chunk →
                 chunk ≠ [] ∧ ∃ k, requests t !! i = Some k ∧ len chunk ≤ k;
  inv_count : bytes_transferred t = len (concat (relayed t));
  inv_bound : ∀ i, len (concat (take i (relayed t))) ≤ N;
}.

(** The test that guards the success message. *)
Definition transfer_succeeded (filesize : Z) (t : transfer) : bool :=
  bool_decide (bytes_transferred t = filesize).

Definition str_of_Z (n : Z) : str :=
  str_of (DecimalString.NilZero.string_of_int (Z.to_int n)).

(** [handle_file_transfer]: [None] when no relay took place, otherwise the
    final state of the relay loop.  [sender] is what the sender's socket
    delivers to this thread. *)
Definition handle_file_transfer (fails : conn → bool) (sender_conn : conn)
    (sender_username target_username filename : str) (size : Z)
    (sender : list bytes) : act (option transfer) :=
  λ σ, match username_to_conn σ !! target_username with
       | None =>
           (catch (sendall_text fails sender_conn
                     (str_of "SYSTEM:User '" ++ target_username ++
                      str_of "' not found." ++ [10%N]))
                  (ret ()) ;;
            ret None) σ
       | Some receiver_conn =>
           (do notified <- catch
              (sendall_text fails receiver_conn
                 (str_of "FILE_INCOMING:" ++ sender_username ++ [58%N] ++
                  filename ++ [58%N] ++ str_of_Z size ++ [10%N]) ;;
               ret true)
              (sendall_text fails sender_conn
                 (str_of "SYSTEM:Could not reach '" ++ target_username ++
                  str_of "' for file transfer." ++ [10%N]) ;;
               ret false);
            if notified : bool then
              match relay size sender with
              | Some t =>
                  for_each (relayed t) (λ chunk,
                    modify (log_event (SendBytes receiver_conn chunk))) ;;
                  ret (Some t)
              | None => λ _, NoFuel
              end
            else ret None) σ
       end.

(** ** client_network.py: the loss estimator of [MediaReceiver] *)

(** One entry of [self.metrics]; the arrival times kept for the jitter
    depend on the wall clock and are not modelled. *)
Record peer_stats : Type := PeerStats {
  last_seq : Z;
  lost : Z;
  total : Z;
}.

#[global] Instance peer_stats_eq_dec : EqDecision peer_stats.
Proof. solve_decision. Defined.

(** Python floats are IEEE 754 binary64. *)
Definition float_of_Z (n : Z) : spec_float := binary_normalize 53 1024 n 0 false.

(** [a / b] on integers; exact operands below [2^53] in magnitude are
    assumed, as is [b ≠ 0]. *)
Definition truediv (a c : Z) : spec_float := SFdiv 53 1024 (float_of_Z a) (float_of_Z c).

(** [int(x)] on a finite float: truncation towards zero. *)
Definition int_of_float (x : spec_float) : Z :=
  match x with
  | S754_finite sign m e =>
      let magnitude := if decide (0 ≤ e) then Z.pos m * 2 ^ e
                       else Z.pos m / 2 ^ (- e) in
      if sign then - magnitude else magnitude
  | _ => 0
  end.

(** [int(loss_pct)] as passed to [metrics_updated]. *)
Definition loss_percent (stats : peer_stats) : Z :=
  if decide (total stats > 0)
  then int_of_float (SFmul 53 1024 (truediv (lost stats) (total stats)) (float_of_Z 100))
  else 0.

(** The update of [stats] for one packet. *)
Definition update_stats (stats : peer_stats) (seq_num : Z) : peer_stats :=
  let total' := total stats + 1 in
  let lost_count := seq_num - last_seq stats - 1 in
  let lost' := if decide (lost_count > 0) then lost stats + lost_count else lost stats in
  {| last_seq := seq_num; lost := lost'; total := total' |}.

(** The metrics part of [MediaReceiver.run] for a video packet of
    [username] with sequence number [seq_num]: the new [self.metrics] and
    the loss percentage emitted with [metrics_updated]. *)
Definition on_video_packet (metrics : gmap str peer_stats) (username : str)
    (seq_num : Z) : gmap str peer_stats * Z :=
  let metrics1 :=
    match metrics !! username with
    | Some _ => metrics
    | None => <[username := {| last_seq := seq_num - 1; lost := 0; total := 0 |}]> metrics
    end in
  match metrics1 !! username with
  | Some stats =>
      let stats' := update_stats stats seq_num in
      (<[username := stats']> metrics1, loss_percent stats')
  | None => (metrics1, 0)
  end.

Section Media_receiver.
Context `{Codec}.

(** [MediaReceiver.run] for one datagram, as far as the metrics go: a
    datagram that is no video packet, or one whose fields do not parse
    (the exception is swallowed by [except Exception: continue]), leaves
    them alone. *)
Definition on_datagram (metrics : gmap str peer_stats) (data : bytes)
    : gmap str peer_stats * option (str * Z) :=
  match data with
  | x76 :: x3a :: _ =>
      match split_max colon 3 data with
      | [_; username_bytes; seq_num_bytes; payload] =>
          match utf8_decode username_bytes, int_of_bytes seq_num_bytes with
          | Some username, Some seq_num =>
              let '(metrics', loss) := on_video_packet metrics username seq_num in
              (metrics', Some (username, loss))
          | _, _ => (metrics, None)
          end
      | _ => (metrics, None)
      end
  | _ => (metrics, None)
  end.
End Media_receiver.

(** The estimator fed with the sequence numbers of one peer; the result
    is the final metrics and the percentages reported on the way. *)
Fixpoint feed_sequence (metrics : gmap str peer_stats) (username : str)
    (seqs : list Z) : gmap str peer_stats * list Z :=
  match seqs with
  | [] => (metrics, [])
  | seq_num :: seqs' =>
      let '(metrics', loss) := on_video_packet metrics username seq_num in
      let '(final, losses) := feed_sequence metrics' username seqs' in
      (final, loss :: losses)
  end.

(** ** server.py: the dispatcher, [stop], and what a broadcast reaches *)

(** What [handle_tcp_message] starts besides answering: for FILE_INIT a
    thread that runs [handle_file_transfer] with these arguments. *)
Inductive spawned : Type :=
| NoThread
| FileTransferThread (target_user filename : str) (size : Z).

#[global] Instance spawned_eq_dec : EqDecision spawned.
Proof. solve_decision. Defined.

Definition set_running (r : bool) (σ : server) : server :=
  {| clients := clients σ; username_to_conn := username_to_conn σ;
     lock_held := lock_held σ; running := r; trace := trace σ |}.

(** The connections of [recipients] that a loop of writes reaches before
    the first write that fails. *)
Fixpoint reached (fails : conn → bool) (recipients : list conn) : list conn :=
  match recipients with
  | [] => []
  | c :: recipients' => if fails c then [] else c :: reached fails recipients'
  end.

(** The connections [broadcast] writes to: every key of [clients] but the
    sender, in the order of the dictionary. *)
Definition recipients (sender_conn : option conn) (σ : server) : list conn :=
  filter (λ c, Some c ≠ sender_conn) (dict_keys (clients σ)).

(** The addresses a datagram from [src] is relayed to. *)
Definition udp_destinations (src : addr) (σ : server) : list addr :=
  filter (λ a, a ≠ src) ((λ entry, entry.2.2) <$> clients σ).

Section Server_dispatch.
Context `{Codec}.

(** [handle_tcp_message]; the exceptions of a malformed FILE_INIT are
    caught in the function and only logged. *)
Definition handle_tcp_message (fails : conn → bool) (c : conn)
    (username command payload : str) : act spawned :=
  if decide (command = str_of "MSG") then
    broadcast fails (str_of "CHAT:" ++ username ++ [58%N] ++ payload ++ [10%N]) (Some c) ;;
    ret NoThread
  else if decide (command = str_of "PING") then
    sendall_text fails c (str_of "PONG:" ++ payload ++ [10%N]) ;; ret NoThread
  else if decide (command = str_of "SCRN_START") then
    broadcast fails (str_of "SCRN_START:" ++ username ++ [10%N]) (Some c) ;;
    ret NoThread
  else if decide (command = str_of "SCRN_STOP") then
    broadcast fails (str_of "SCRN_STOP:" ++ username ++ [10%N]) (Some c) ;;
    ret NoThread
  else if decide (command = str_of "FILE_INIT") then
    match split_max 58%N 2 payload with
    | [target_user; filename; filesize_str] =>
        match int_of_str filesize_str with
        | Some size => ret (FileTransferThread target_user filename size)
        | None => ret NoThread
        end
    | _ => ret NoThread
    end
  else ret NoThread.

(** The dispatch of one frame parsed by [handle_client]. *)
Definition srv_dispatch (fails : conn → bool) (c : conn) (username : str)
    (frame : srv_frame) : act spawned :=
  match frame with
  | SrvMessage command payload => handle_tcp_message fails c username command payload
  | SrvBinary content => handle_tcp_binary fails c username content ;; ret NoThread
  end.
End Server_dispatch.

(** [stop], as far as the client connections go (the three listening
    sockets it closes afterwards are not part of the state). *)
Definition stop : act unit :=
  modify (set_running false) ;;
  with_lock (λ σ, for_each (dict_keys (clients σ)) close σ).

(** ** client_network.py: [FileSenderWorker] and the worker's whole input *)

(** The [while chunk := f.read(4096)] loop of [FileSenderWorker.run] on a
    file with the given content: the chunks passed to [sendall], when
    every write succeeds.  [fuel] bounds the number of reads. *)
Fixpoint read_chunks (fuel : nat) (content : bytes) : list bytes :=
  match fuel with
  | O => []
  | S fuel' =>
      let chunk := take 4096 content in
      if decide (chunk = []) then []
      else chunk :: read_chunks fuel' (drop 4096 content)
  end.

Definition file_chunks (content : bytes) : list bytes :=
  read_chunks (S (length content)) content.

(** [write_chunk] called for each chunk emitted on [file_data_received],
    until [finish] disconnects the worker: the worker at the end, whether
    it has finished, and the chunks it was not given. *)
Fixpoint write_chunks (w : file_worker) (chunks : list bytes)
  : file_worker * bool * list bytes :=
  match chunks with
  | [] => (w, false, [])
  | chunk :: chunks' =>
      let '(w', finished) := write_chunk w chunk in
      if finished then (w', true, chunks') else write_chunks w' chunks'
  end.

(** ** client_video.py: the sequence numbers of [VideoWorker] *)

(** [self.seq_num = (self.seq_num + 1) % 65536]. *)
Definition next_seq (seq_num : Z) : Z := (seq_num + 1) mod 65536.

(** The sequence numbers of the first [n] frames sent after [seq_num]. *)
Fixpoint video_seqs (n : nat) (seq_num : Z) : list Z :=
  match n with
  | O => []
  | S n' => next_seq seq_num :: video_seqs n' (next_seq seq_num)
  end.

(** ** client.py: [handle_server_message] *)

(** What the chat panel is asked to show. *)
Inductive chat_view : Type :=
| SystemLine (payload : str)
| ChatLine (username text : str)
| PongLine (payload : str)    (* the round-trip time is computed from the clock *)
| NoLine.

#[global] Instance chat_view_eq_dec : EqDecision chat_view.
Proof. solve_decision. Defined.

(** [handle_server_message], the slot of [message_received]; [None] when
    an unpacking raises.  For PONG the model keeps the echoed payload;
    its conversion with [float] and the clock are not modelled. *)
Definition handle_server_message (message : str) : option chat_view :=
  match split_max 58%N 1 message with
  | [cmd; payload] =>
      if decide (cmd = str_of "SYSTEM") then Some (SystemLine payload)
      else if decide (cmd = str_of "CHAT") then
        match split_max 58%N 1 payload with
        | [username; text] => Some (ChatLine username text)
        | _ => None
        end
      else if decide (cmd = str_of "PONG") then Some (PongLine payload)
      else Some NoLine
  | _ => None
  end.

(** * Properties *)

(** ** Byte strings *)

(** Closed decidable goals, such as membership in a literal list. *)
Ltac decide_by_compute :=
  match goal with |- ?P => refine (@bool_decide_unpack P _ _) end; vm_compute; exact I.

Lemma partition_at_inv {A} `{EqDecision A} (sep : A) (x before after : list A) :
  partition_at sep x = Some (before, after) →
  x = before ++ sep :: after ∧ sep ∉ before.
Proof.
  revert before after. induction x as [|c tl IH]; intros before after; simpl; [done|].
  destruct (decide (c = sep)) as [->|Hne].
  - intros [= <- <-]. split; [done|]. apply not_elem_of_nil.
  - destruct (partition_at sep tl) as [[h r]|]; simpl; [|done].
    intros [= <- <-]. destruct (IH h r eq_refl) as [-> Hnot].
    split; [done|]. intros [?|?]%elem_of_cons; done.
Qed.

Lemma partition_at_intro {A} `{EqDecision A} (sep : A) (before after : list A) :
  sep ∉ before → partition_at sep (before ++ sep :: after) = Some (before, after).
Proof.
  induction before as [|c before IH]; intros Hnot; simpl.
  - by rewrite decide_True.
  - rewrite decide_False by (intros ->; apply Hnot; left).
    rewrite IH; [done|]. intros ?. apply Hnot. by right.
Qed.

Lemma partition_at_spec {A} `{EqDecision A} (sep : A) (x before after : list A) :
  partition_at sep x = Some (before, after) ↔
  x = before ++ sep :: after ∧ sep ∉ before.
Proof.
  split; [apply partition_at_inv|]. intros [-> Hnot]. by apply partition_at_intro.
Qed.

Lemma partition_at_None {A} `{EqDecision A} (sep : A) (x : list A) :
  partition_at sep x = None ↔ sep ∉ x.
Proof.
  split.
  - intros E Hin. apply list_elem_of_split in Hin as (l1 & l2 & ->).
    revert E. induction l1 as [|c l1 IH]; simpl.
    + by rewrite decide_True.
    + destruct (decide (c = sep)); [done|].
      destruct (partition_at sep (l1 ++ sep :: l2)) as [[??]|] eqn:E; simpl; [done|].
      intros _. by apply IH.
  - intros Hnot. destruct (partition_at sep x) as [[h r]|] eqn:E; [|done].
    apply partition_at_inv in E as [-> _]. exfalso. apply Hnot.
    apply elem_of_app. right. left.
Qed.

Lemma partition_at_app {A} `{EqDecision A} (sep : A) (x y before after : list A) :
  partition_at sep x = Some (before, after) →
  partition_at sep (x ++ y) = Some (before, after ++ y).
Proof.
  intros [-> Hnot]%partition_at_spec. apply partition_at_spec.
  split; [|done]. by rewrite <- app_assoc.
Qed.

Lemma partition_at_app_None {A} `{EqDecision A} (sep : A) (x y : list A) :
  partition_at sep (x ++ y) = None → partition_at sep x = None.
Proof.
  rewrite !partition_at_None. intros Hn Hin. apply Hn.
  apply elem_of_app. by left.
Qed.

Lemma partition_at_length {A} `{EqDecision A} (sep : A) (x before after : list A) :
  partition_at sep x = Some (before, after) →
  (length after < length x)%nat.
Proof.
  intros [-> _]%partition_at_spec. rewrite length_app. simpl. lia.
Qed.

Lemma slice_length {A} (l : list A) (n : Z) :
  (length (slice_to l n) + length (slice_from l n))%nat = length l.
Proof.
  unfold slice_to, slice_from. destruct (decide (0 ≤ n));
    rewrite length_take, length_drop; lia.
Qed.

Lemma slice_from_length {A} (l : list A) (n : Z) :
  (length (slice_from l n) ≤ length l)%nat.
Proof. pose proof (slice_length l n). lia. Qed.

Lemma slice_to_app {A} (l more : list A) (n : Z) :
  0 ≤ n ≤ len l → slice_to (l ++ more) n = slice_to l n.
Proof.
  unfold slice_to, len. intros [H0 Hn]. rewrite !decide_True by done.
  apply take_app_le. lia.
Qed.

Lemma slice_from_app {A} (l more : list A) (n : Z) :
  0 ≤ n ≤ len l → slice_from (l ++ more) n = slice_from l n ++ more.
Proof.
  unfold slice_from, len. intros [H0 Hn]. rewrite !decide_True by done.
  apply drop_app_le. lia.
Qed.

Lemma slice_exact {A} (body trailing : list A) :
  slice_to (body ++ trailing) (len body) = body ∧
  slice_from (body ++ trailing) (len body) = trailing.
Proof.
  unfold slice_to, slice_from, len.
  rewrite !decide_True by lia. rewrite Nat2Z.id.
  split; [apply take_app_length | apply drop_app_length].
Qed.

(** ** The inner loop *)

Section Drain_facts.
Context {F : Type} (step : bytes → step_result F) (ok : bytes → bool).

(** Every dispatched frame consumes bytes. *)
Hypothesis step_shrinks : ∀ p frame rest,
  step p = Emit frame rest → (length rest < length p)%nat.

(** What an accepted iteration did stays done when more bytes follow. *)
Hypothesis step_emit_app : ∀ p q frame rest,
  step p = Emit frame rest → ok (p ++ q) = true →
  step (p ++ q) = Emit frame (rest ++ q).
Hypothesis step_reset_app : ∀ p q, step p = Reset → step (p ++ q) = Reset.
Hypothesis step_raise_app : ∀ p q, step p = Raise → step (p ++ q) = Raise.

Lemma drain_fuel_enough (fuel : nat) (p : bytes) :
  (length p < fuel)%nat → drain_fuel step fuel p = drain step p.
Proof.
  unfold drain. remember (S (length p)) as fuel' eqn:Hfuel'.
  assert (length p < fuel')%nat as Hlt by lia. clear Hfuel'.
  revert p fuel' Hlt. induction fuel as [|fuel IH]; intros p fuel' Hlt' Hlt; [lia|].
  destruct fuel' as [|fuel']; [lia|]. simpl.
  destruct (step p) as [frame rest| | |] eqn:E; try done.
  apply step_shrinks in E.
  rewrite (IH rest fuel') by lia. done.
Qed.

Lemma drain_unfold (p : bytes) :
  drain step p =
  match step p with
  | Incomplete => Some ([], p, Break)
  | Reset => Some ([], [], Break)
  | Raise => Some ([], p, Raised)
  | Emit frame rest =>
      '(frames, final, exit) ← drain step rest; Some (frame :: frames, final, exit)
  end.
Proof.
  unfold drain at 1. simpl. destruct (step p) as [frame rest| | |] eqn:E; try done.
  apply step_shrinks in E. rewrite drain_fuel_enough by lia. done.
Qed.

(** The inner loop always terminates. *)
Lemma drain_total (p : bytes) : is_Some (drain step p).
Proof.
  remember (length p) as n eqn:Hn. revert p Hn.
  induction n as [n IH] using lt_wf_ind. intros p ->.
  rewrite drain_unfold. destruct (step p) as [frame rest| | |] eqn:E; try done.
  apply step_shrinks in E.
  destruct (IH _ E rest eq_refl) as [[[fs fin] e] ->]. done.
Qed.

Lemma clean_fuel_enough (fuel : nat) (p : bytes) :
  (length p < fuel)%nat → clean_fuel step ok fuel p = clean step ok p.
Proof.
  unfold clean. remember (S (length p)) as fuel' eqn:Hfuel'.
  assert (length p < fuel')%nat as Hlt by lia. clear Hfuel'.
  revert p fuel' Hlt. induction fuel as [|fuel IH]; intros p fuel' Hlt' Hlt; [lia|].
  destruct fuel' as [|fuel']; [lia|]. simpl.
  destruct (step p) as [frame rest| | |] eqn:E; try done.
  apply step_shrinks in E.
  rewrite (IH rest fuel') by lia. done.
Qed.

Lemma clean_unfold (p : bytes) :
  clean step ok p =
  ok p && match step p with
          | Incomplete => true
          | Emit _ rest => clean step ok rest
          | Reset | Raise => false
          end.
Proof.
  unfold clean at 1. simpl. destruct (step p) as [frame rest| | |] eqn:E; try done.
  apply step_shrinks in E. rewrite clean_fuel_enough by lia. done.
Qed.

(** On a clean buffer the loop suspends on an incomplete frame. *)
Lemma clean_drain (p : bytes) :
  clean step ok p = true →
  ∃ frames final, drain step p = Some (frames, final, Break) ∧
                  step final = Incomplete.
Proof.
  remember (length p) as n eqn:Hn. revert p Hn.
  induction n as [n IH] using lt_wf_ind. intros p -> Hclean.
  rewrite clean_unfold in Hclean. apply andb_true_iff in Hclean as [_ Hclean].
  rewrite drain_unfold. destruct (step p) as [frame rest| | |] eqn:E; try done.
  - destruct (IH _ (step_shrinks _ _ _ E) rest eq_refl Hclean) as (fs & fin & -> & Hfin).
    simpl. eauto.
  - eauto.
Qed.

(** Splitting a clean buffer anywhere: parsing the first part, then the
    remainder together with the second part, dispatches the same frames
    and leaves the same buffer as parsing it whole. *)
Lemma drain_app (p q : bytes) :
  clean step ok (p ++ q) = true →
  ∃ frames1 buffer1 frames2 final,
    drain step p = Some (frames1, buffer1, Break) ∧
    step buffer1 = Incomplete ∧
    clean step ok (buffer1 ++ q) = true ∧
    drain step (buffer1 ++ q) = Some (frames2, final, Break) ∧
    drain step (p ++ q) = Some (frames1 ++ frames2, final, Break).
Proof.
  remember (length p) as n eqn:Hn. revert p Hn.
  induction n as [n IH] using lt_wf_ind. intros p -> Hclean.
  pose proof Hclean as Hclean'.
  rewrite clean_unfold in Hclean'. apply andb_true_iff in Hclean' as [Hok Hrest].
  destruct (step p) as [frame rest| | |] eqn:E.
  - rewrite (step_emit_app _ q _ _ E Hok) in Hrest.
    destruct (IH _ (step_shrinks _ _ _ E) rest eq_refl Hrest)
      as (fs1 & b1 & fs2 & fin & Hd1 & Hb1 & Hc & Hd2 & Hd).
    exists (frame :: fs1), b1, fs2, fin.
    rewrite (drain_unfold p), E, Hd1. simpl.
    rewrite (drain_unfold (p ++ q)), (step_emit_app _ q _ _ E Hok), Hd. done.
  - destruct (clean_drain _ Hclean) as (fs & fin & Hd & _).
    exists [], p, fs, fin. rewrite (drain_unfold p), E. done.
  - rewrite (step_reset_app _ q E) in Hrest. done.
  - rewrite (step_raise_app _ q E) in Hrest. done.
Qed.

(** A suspended buffer is left alone by the loop. *)
Lemma drain_incomplete (p : bytes) :
  step p = Incomplete → drain step p = Some ([], p, Break).
Proof. intros E. by rewrite drain_unfold, E. Qed.

(** The frames dispatched from a clean buffer all come from accepted
    iterations. *)
Lemma clean_frames (P : F → Prop) (p : bytes) :
  (∀ x frame rest, step x = Emit frame rest → ok x = true → P frame) →
  clean step ok p = true →
  ∀ frames final exit, drain step p = Some (frames, final, exit) → Forall P frames.
Proof.
  intros HP. remember (length p) as n eqn:Hn. revert p Hn.
  induction n as [n IH] using lt_wf_ind. intros p -> Hclean frames final exit.
  rewrite clean_unfold in Hclean. apply andb_true_iff in Hclean as [Hok Hclean].
  rewrite drain_unfold. destruct (step p) as [frame rest| | |] eqn:E; try done.
  - destruct (drain step rest) as [[[fs fin] e]|] eqn:Hd; simpl; [|done].
    intros [= <- <- <-]. constructor; [by eapply HP|].
    by eapply (IH _ (step_shrinks _ _ _ E) rest eq_refl Hclean).
  - intros [= <- <- <-]. constructor.
Qed.
End Drain_facts.

(** ** The server's demultiplexer *)

Section Server_demux_facts.
Context `{Codec}.

Lemma srv_parse_header_app (p q : bytes) :
  match srv_parse_header p with
  | SrvTextHeader command rest =>
      srv_parse_header (p ++ q) = SrvTextHeader command (rest ++ q)
  | SrvScrnHeader data_size data_rest =>
      srv_parse_header (p ++ q) = SrvScrnHeader data_size (data_rest ++ q)
  | SrvBadHeader => srv_parse_header (p ++ q) = SrvBadHeader
  | SrvNoHeader | SrvScrnPartial => True
  end.
Proof.
  unfold srv_parse_header.
  destruct (partition_at colon p) as [[header rest]|] eqn:E1; [|done].
  rewrite (partition_at_app _ _ q _ _ E1).
  destruct (decide (utf8_decode_ignore header ∈ srv_text_commands)); [done|].
  destruct (decide (utf8_decode_ignore header = str_of "SCRN")); [|done].
  destruct (partition_at colon rest) as [[size_str data_rest]|] eqn:E2; [|done].
  rewrite (partition_at_app _ _ q _ _ E2).
  by destruct (utf8_decode size_str ≫= int_of_str).
Qed.

Lemma srv_parse_header_length (p : bytes) :
  match srv_parse_header p with
  | SrvTextHeader _ rest => (length rest < length p)%nat
  | SrvScrnHeader _ data_rest => (length data_rest < length p)%nat
  | _ => True
  end.
Proof.
  unfold srv_parse_header.
  destruct (partition_at colon p) as [[header rest]|] eqn:E1; [|done].
  apply partition_at_length in E1.
  destruct (decide (utf8_decode_ignore header ∈ srv_text_commands)); [done|].
  destruct (decide (utf8_decode_ignore header = str_of "SCRN")); [|done].
  destruct (partition_at colon rest) as [[size_str data_rest]|] eqn:E2; [|done].
  apply partition_at_length in E2.
  destruct (utf8_decode size_str ≫= int_of_str); [lia|done].
Qed.

Lemma srv_step_shrinks (p : bytes) frame rest :
  srv_step p = Emit frame rest → (length rest < length p)%nat.
Proof.
  unfold srv_step. pose proof (srv_parse_header_length p) as Hlen.
  destruct (srv_parse_header p) as [|command r| |data_size data_rest|]; try done.
  - destruct (partition_at newline r) as [[payload buffer']|] eqn:E; [|done].
    apply partition_at_length in E. intros [= _ <-]. lia.
  - destruct (decide (data_size ≤ len data_rest)); [|done].
    intros [= _ <-]. pose proof (slice_from_length data_rest data_size). lia.
Qed.

Lemma srv_step_emit_app (p q : bytes) frame rest :
  srv_step p = Emit frame rest → srv_length_ok (p ++ q) = true →
  srv_step (p ++ q) = Emit frame (rest ++ q).
Proof.
  unfold srv_step, srv_length_ok. pose proof (srv_parse_header_app p q) as Happ.
  destruct (srv_parse_header p) as [|command r| |data_size data_rest|]; try done.
  - rewrite Happ.
    destruct (partition_at newline r) as [[payload buffer']|] eqn:E; [|done].
    rewrite (partition_at_app _ _ q _ _ E). by intros [= <- <-].
  - rewrite Happ. destruct (decide (data_size ≤ len data_rest)) as [Hle|]; [|done].
    intros [= <- <-] Hok%bool_decide_eq_true.
    rewrite decide_True by (unfold len in *; rewrite length_app; lia).
    by rewrite slice_to_app, slice_from_app.
Qed.

Lemma srv_step_reset_app (p q : bytes) :
  srv_step p = Reset → srv_step (p ++ q) = Reset.
Proof.
  unfold srv_step. pose proof (srv_parse_header_app p q) as Happ.
  destruct (srv_parse_header p) as [|command r| |data_size data_rest|]; try done.
  - by destruct (partition_at newline r) as [[??]|].
  - by destruct (decide (data_size ≤ len data_rest)).
  - by rewrite Happ.
Qed.

Lemma srv_step_never_raises (p : bytes) : srv_step p ≠ Raise.
Proof.
  unfold srv_step.
  destruct (srv_parse_header p) as [|command r| |data_size data_rest|]; try done.
  - by destruct (partition_at newline r) as [[??]|].
  - by destruct (decide (data_size ≤ len data_rest)).
Qed.

Lemma srv_step_raise_app (p q : bytes) :
  srv_step p = Raise → srv_step (p ++ q) = Raise.
Proof. intros E. by apply srv_step_never_raises in E. Qed.

(** The message loop returns a result on every list of chunks. *)
Lemma srv_loop_total (chunks : list bytes) (buffer0 : bytes) :
  is_Some (srv_loop buffer0 chunks).
Proof.
  revert buffer0. induction chunks as [|data chunks IH]; intros buffer0; simpl; [done|].
  destruct (decide (data = [])); [done|].
  destruct (drain_total srv_step srv_step_shrinks (buffer0 ++ data)) as [[[fs b1] e] ->].
  simpl. destruct e; [|done].
  destruct (IH b1) as [[fs' fin] ->]. done.
Qed.

(** From any buffer, feeding clean input chunk by chunk amounts to one
    run of the inner loop on the buffer followed by all the input. *)
Lemma srv_loop_clean (chunks : list bytes) (buffer0 : bytes) :
  Forall (λ data, data ≠ []) chunks → chunks ≠ [] →
  srv_clean (buffer0 ++ concat chunks) = true →
  ∃ frames final,
    srv_loop buffer0 chunks = Some (frames, final) ∧
    drain srv_step (buffer0 ++ concat chunks) = Some (frames, final, Break).
Proof.
  revert buffer0. induction chunks as [|data chunks IH]; intros buffer0 Hne Hnil Hclean; [done|].
  apply Forall_cons in Hne as [Hdata Hne]. simpl in *.
  rewrite decide_False by done. rewrite app_assoc in Hclean.
  destruct (drain_app srv_step srv_length_ok srv_step_shrinks srv_step_emit_app
              srv_step_reset_app srv_step_raise_app _ _ Hclean)
    as (fs1 & b1 & fs2 & fin & Hd1 & Hb1 & Hc & Hd2 & Hd).
  rewrite Hd1. simpl. rewrite app_assoc, Hd.
  destruct chunks as [|data' chunks].
  - simpl in *. rewrite app_nil_r in Hd2.
    rewrite (drain_incomplete srv_step srv_step_shrinks _ Hb1) in Hd2.
    simplify_eq. eauto.
  - destruct (IH b1 Hne ltac:(done) Hc) as (fs & fin' & -> & Hd').
    rewrite Hd' in Hd2. simplify_eq. simpl. eauto.
Qed.
End Server_demux_facts.

(** ** The client's demultiplexer *)

Section Client_demux_facts.
Context `{Codec}.

Lemma cli_parse_header_app (p q : bytes) :
  match cli_parse_header p with
  | CliTextHeader command rest =>
      cli_parse_header (p ++ q) = CliTextHeader command (rest ++ q)
  | CliScrnHeader username frame_size frame_data =>
      cli_parse_header (p ++ q) = CliScrnHeader username frame_size (frame_data ++ q)
  | CliBadHeader => cli_parse_header (p ++ q) = CliBadHeader
  | CliHeaderError => cli_parse_header (p ++ q) = CliHeaderError
  | CliNoHeader | CliScrnPartial => True
  end.
Proof.
  unfold cli_parse_header.
  destruct (partition_at colon p) as [[header rest]|] eqn:E1; [|done].
  rewrite (partition_at_app _ _ q _ _ E1).
  destruct (utf8_decode header) as [command|]; [|done].
  destruct (decide (command ∈ cli_text_commands)); [done|].
  destruct (decide (command = str_of "SCRN")); [|done].
  destruct (partition_at colon rest) as [[username_bytes data_rest]|] eqn:E2; [|done].
  rewrite (partition_at_app _ _ q _ _ E2).
  destruct (utf8_decode username_bytes) as [username|]; [|done].
  destruct (partition_at colon data_rest) as [[size_str frame_data]|] eqn:E3; [|done].
  rewrite (partition_at_app _ _ q _ _ E3).
  by destruct (int_of_bytes size_str).
Qed.

Lemma cli_parse_header_length (p : bytes) :
  match cli_parse_header p with
  | CliTextHeader _ rest => (length rest < length p)%nat
  | CliScrnHeader _ _ frame_data => (length frame_data < length p)%nat
  | _ => True
  end.
Proof.
  unfold cli_parse_header.
  destruct (partition_at colon p) as [[header rest]|] eqn:E1; [|done].
  apply partition_at_length in E1.
  destruct (utf8_decode header) as [command|]; [|done].
  destruct (decide (command ∈ cli_text_commands)); [done|].
  destruct (decide (command = str_of "SCRN")); [|done].
  destruct (partition_at colon rest) as [[username_bytes data_rest]|] eqn:E2; [|done].
  apply partition_at_length in E2.
  destruct (utf8_decode username_bytes) as [username|]; [|done].
  destruct (partition_at colon data_rest) as [[size_str frame_data]|] eqn:E3; [|done].
  apply partition_at_length in E3.
  destruct (int_of_bytes size_str); [lia|done].
Qed.

Lemma cli_step_shrinks (p : bytes) event rest :
  cli_step p = Emit event rest → (length rest < length p)%nat.
Proof.
  unfold cli_step. pose proof (cli_parse_header_length p) as Hlen.
  destruct (cli_parse_header p) as [|command r| |username frame_size frame_data| |]; try done.
  - destruct (partition_at newline r) as [[payload buffer']|] eqn:E; [|done].
    apply partition_at_length in E.
    destruct (utf8_decode payload ≫= process_command command); [|done].
    intros [= _ <-]. lia.
  - destruct (decide (frame_size ≤ len frame_data)); [|done].
    intros [= _ <-]. pose proof (slice_from_length frame_data frame_size). lia.
Qed.

Lemma cli_step_emit_app (p q : bytes) event rest :
  cli_step p = Emit event rest → cli_step_ok (p ++ q) = true →
  cli_step (p ++ q) = Emit event (rest ++ q).
Proof.
  unfold cli_step_ok. intros E [Hok _]%andb_true_iff. revert E Hok.
  unfold cli_step. pose proof (cli_parse_header_app p q) as Happ.
  destruct (cli_parse_header p) as [|command r| |username frame_size frame_data| |]; try done.
  - rewrite Happ.
    destruct (partition_at newline r) as [[payload buffer']|] eqn:E; [|done].
    rewrite (partition_at_app _ _ q _ _ E).
    destruct (utf8_decode payload ≫= process_command command); [|done].
    by intros [= <- <-].
  - rewrite Happ. destruct (decide (frame_size ≤ len frame_data)) as [Hle|]; [|done].
    intros [= <- <-] Hok%bool_decide_eq_true.
    rewrite decide_True by (unfold len in *; rewrite length_app; lia).
    by rewrite slice_to_app, slice_from_app.
Qed.

Lemma cli_step_reset_app (p q : bytes) :
  cli_step p = Reset → cli_step (p ++ q) = Reset.
Proof.
  unfold cli_step. pose proof (cli_parse_header_app p q) as Happ.
  destruct (cli_parse_header p) as [|command r| |username frame_size frame_data| |]; try done.
  - destruct (partition_at newline r) as [[payload ?]|]; [|done].
    by destruct (utf8_decode payload ≫= process_command command).
  - by destruct (decide (frame_size ≤ len frame_data)).
  - by rewrite Happ.
Qed.

Lemma cli_step_raise_app (p q : bytes) :
  cli_step p = Raise → cli_step (p ++ q) = Raise.
Proof.
  unfold cli_step. pose proof (cli_parse_header_app p q) as Happ.
  destruct (cli_parse_header p) as [|command r| |username frame_size frame_data| |]; try done.
  - rewrite Happ.
    destruct (partition_at newline r) as [[payload buffer']|] eqn:E; [|done].
    rewrite (partition_at_app _ _ q _ _ E).
    by destruct (utf8_decode payload ≫= process_command command).
  - by destruct (decide (frame_size ≤ len frame_data)).
  - by rewrite Happ.
Qed.

Lemma cli_step_ok_event (p : bytes) event rest :
  cli_step p = Emit event rest → cli_step_ok p = true →
  is_file_incoming event = false.
Proof.
  unfold cli_step_ok. intros -> [_ Hok]%andb_true_iff.
  by apply negb_true_iff.
Qed.

Lemma tcp_on_data_total (r : tcp_receiver) (data : bytes) :
  is_Some (tcp_on_data r data).
Proof.
  unfold tcp_on_data. destruct (is_receiving_file r); [done|].
  destruct (drain_total cli_step cli_step_shrinks (buffer r ++ data)) as [[[fs b1] e] ->].
  done.
Qed.

(** The receive loop returns a result on every list of chunks. *)
Lemma cli_loop_total (chunks : list bytes) (r : tcp_receiver) :
  is_Some (cli_loop r chunks).
Proof.
  revert r. induction chunks as [|data chunks IH]; intros r; simpl; [done|].
  destruct (decide (data = [])); [done|].
  destruct (tcp_on_data_total r data) as [[[fs r'] e] ->].
  simpl. destruct e; [|done].
  destruct (IH r') as [[fs' fin] ->]. done.
Qed.

Lemma existsb_false_Forall {A} (f : A → bool) (l : list A) :
  Forall (λ x, f x = false) l → existsb f l = false.
Proof. induction 1 as [|x l Hx _ IH]; simpl; [done|]. by rewrite Hx, IH. Qed.

(** In line mode, feeding clean input chunk by chunk amounts to one run
    of the inner loop on the buffer followed by all the input, and the
    receiver stays in line mode. *)
Lemma cli_loop_clean (chunks : list bytes) (buffer0 : bytes) :
  Forall (λ data, data ≠ []) chunks → chunks ≠ [] →
  cli_clean (buffer0 ++ concat chunks) = true →
  ∃ events final,
    cli_loop {| buffer := buffer0; is_receiving_file := false |} chunks =
      Some (events, {| buffer := final; is_receiving_file := false |}) ∧
    drain cli_step (buffer0 ++ concat chunks) = Some (events, final, Break).
Proof.
  revert buffer0. induction chunks as [|data chunks IH]; intros buffer0 Hne Hnil Hclean; [done|].
  apply Forall_cons in Hne as [Hdata Hne]. simpl in *.
  rewrite decide_False by done. unfold tcp_on_data. simpl.
  rewrite app_assoc in Hclean.
  destruct (drain_app cli_step cli_step_ok cli_step_shrinks cli_step_emit_app
              cli_step_reset_app cli_step_raise_app _ _ Hclean)
    as (fs1 & b1 & fs2 & fin & Hd1 & Hb1 & Hc & Hd2 & Hd).
  assert (Forall (λ e, is_file_incoming e = false) (fs1 ++ fs2)) as Hline.
  { eapply (clean_frames cli_step cli_step_ok cli_step_shrinks); [|exact Hclean|exact Hd].
    intros x e rest. apply cli_step_ok_event. }
  apply Forall_app in Hline as [Hline1 _].
  rewrite Hd1. simpl. rewrite (existsb_false_Forall _ _ Hline1).
  rewrite app_assoc, Hd.
  destruct chunks as [|data' chunks].
  - simpl in *. rewrite app_nil_r in Hd2.
    rewrite (drain_incomplete cli_step cli_step_shrinks _ Hb1) in Hd2.
    simplify_eq. eauto.
  - destruct (IH b1 Hne ltac:(done) Hc) as (fs & fin' & -> & Hd').
    rewrite Hd' in Hd2. simplify_eq. simpl. eauto.
Qed.
End Client_demux_facts.

(** ** Chunk boundaries *)

Lemma concat_nonempty (chunks : list bytes) :
  Forall (λ data, data ≠ []) chunks → chunks ≠ [] → concat chunks ≠ [].
Proof.
  destruct chunks as [|data chunks]; [done|].
  intros [Hdata _]%Forall_cons _. simpl. by destruct data.
Qed.

Lemma srv_chunking `{Codec} (chunks : list bytes) :
  Forall (λ data, data ≠ []) chunks →
  srv_clean (concat chunks) = true →
  ∃ frames final,
    srv_run chunks = Some (frames, final) ∧
    srv_run [concat chunks] = Some (frames, final).
Proof.
  intros Hne Hclean. unfold srv_run.
  destruct (decide (chunks = [])) as [->|Hnil].
  { exists [], []. done. }
  destruct (srv_loop_clean chunks [] Hne Hnil Hclean) as (fs & fin & Hloop & Hd).
  exists fs, fin. split; [done|]. simpl in *.
  rewrite decide_False by by apply concat_nonempty.
  rewrite Hd. simpl. by rewrite app_nil_r.
Qed.

Lemma cli_chunking `{Codec} (chunks : list bytes) :
  Forall (λ data, data ≠ []) chunks →
  cli_clean (concat chunks) = true →
  ∃ events final,
    cli_run chunks = Some (events, final) ∧
    cli_run [concat chunks] = Some (events, final).
Proof.
  intros Hne Hclean. unfold cli_run, tcp_receiver_init.
  destruct (decide (chunks = [])) as [->|Hnil].
  { eexists [], _. done. }
  destruct (cli_loop_clean chunks [] Hne Hnil Hclean) as (fs & fin & Hloop & Hd).
  exists fs, {| buffer := fin; is_receiving_file := false |}. split; [done|].
  assert (Forall (λ e, is_file_incoming e = false) fs) as Hline.
  { eapply (clean_frames cli_step cli_step_ok cli_step_shrinks); [|exact Hclean|exact Hd].
    intros x e rest. apply cli_step_ok_event. }
  simpl in *. rewrite decide_False by by apply concat_nonempty.
  unfold tcp_on_data. simpl. rewrite Hd. simpl.
  rewrite (existsb_false_Forall _ _ Hline). by rewrite app_nil_r.
Qed.

Lemma srv_text_header `{Codec} (header rest : bytes) :
  colon ∉ header → utf8_decode_ignore header ∈ srv_text_commands →
  srv_parse_header (header ++ colon :: rest) =
    SrvTextHeader (utf8_decode_ignore header) rest.
Proof.
  intros Hcolon Hcmd. unfold srv_parse_header.
  rewrite partition_at_intro by done. by rewrite decide_True.
Qed.

Lemma cli_text_header `{Codec} (header rest : bytes) (command : str) :
  colon ∉ header → utf8_decode header = Some command →
  command ∈ cli_text_commands →
  cli_parse_header (header ++ colon :: rest) = CliTextHeader command rest.
Proof.
  intros Hcolon Hdec Hcmd. unfold cli_parse_header.
  rewrite partition_at_intro by done. rewrite Hdec. by rewrite decide_True.
Qed.

Lemma srv_suspends `{Codec} (header rest : bytes) :
  colon ∉ header → utf8_decode_ignore header ∈ srv_text_commands →
  newline ∉ rest →
  drain srv_step (header ++ colon :: rest) =
    Some ([], header ++ colon :: rest, Break).
Proof.
  intros Hcolon Hcmd Hnl. apply (drain_incomplete srv_step srv_step_shrinks).
  unfold srv_step. rewrite srv_text_header by done.
  apply partition_at_None in Hnl. by rewrite Hnl.
Qed.

Lemma cli_suspends `{Codec} (header rest : bytes) (command : str) :
  colon ∉ header → utf8_decode header = Some command →
  command ∈ cli_text_commands → newline ∉ rest →
  drain cli_step (header ++ colon :: rest) =
    Some ([], header ++ colon :: rest, Break).
Proof.
  intros Hcolon Hdec Hcmd Hnl. apply (drain_incomplete cli_step cli_step_shrinks).
  unfold cli_step. rewrite (cli_text_header _ _ command) by done.
  apply partition_at_None in Hnl. by rewrite Hnl.
Qed.

(** C1, as the code has it.  On input that is parsed cleanly (no unknown
    or undecodable command name, no unparsable or negative SCRN length,
    no exception, and on the client no FILE_INCOMING), every partition
    into non-empty chunks makes the server's and the client's
    demultiplexer dispatch the same frames, and leave the same buffer, as
    the whole input received at once.  A buffer that starts with a
    line-mode command and holds no newline after it suspends the loop:
    nothing is dispatched and the buffer is kept. *)
Theorem demux_chunking_on_clean_input `{Codec} :
  (∀ chunks : list bytes,
     Forall (λ data, data ≠ []) chunks → srv_clean (concat chunks) = true →
     ∃ frames final,
       srv_run chunks = Some (frames, final) ∧
       srv_run [concat chunks] = Some (frames, final)) ∧
  (∀ chunks : list bytes,
     Forall (λ data, data ≠ []) chunks → cli_clean (concat chunks) = true →
     ∃ events final,
       cli_run chunks = Some (events, final) ∧
       cli_run [concat chunks] = Some (events, final)) ∧
  (∀ header rest : bytes,
     colon ∉ header → utf8_decode_ignore header ∈ srv_text_commands →
     newline ∉ rest →
     drain srv_step (header ++ colon :: rest) =
       Some ([], header ++ colon :: rest, Break)) ∧
  (∀ (header rest : bytes) (command : str),
     colon ∉ header → utf8_decode header = Some command →
     command ∈ cli_text_commands → newline ∉ rest →
     drain cli_step (header ++ colon :: rest) =
       Some ([], header ++ colon :: rest, Break)).
Proof.
  split; [exact srv_chunking|]. split; [exact cli_chunking|].
  split; [exact srv_suspends|exact cli_suspends].
Qed.

(** C1 at a concrete stream: two SCRN_START lines cut inside the second
    command name, and a PING line without its newline. *)
Lemma demux_chunking_on_clean_input_witness :
  let chunks := [bytes_of "SCRN_START:ann" ++ [newline] ++ bytes_of "SCRN_ST";
                 bytes_of "ART:bob" ++ [newline]] in
  (Forall (λ data, data ≠ []) chunks ∧
   srv_clean (concat chunks) = true ∧ cli_clean (concat chunks) = true) ∧
  (∃ frames final,
     srv_run chunks = Some (frames, final) ∧
     srv_run [concat chunks] = Some (frames, final)) ∧
  (∃ events final,
     cli_run chunks = Some (events, final) ∧
     cli_run [concat chunks] = Some (events, final)) ∧
  drain srv_step (bytes_of "PING" ++ colon :: bytes_of "17") =
    Some ([], bytes_of "PING" ++ colon :: bytes_of "17", Break) ∧
  drain cli_step (bytes_of "PONG" ++ colon :: bytes_of "17") =
    Some ([], bytes_of "PONG" ++ colon :: bytes_of "17", Break).
Proof.
  intros chunks.
  assert (Forall (λ data : bytes, data ≠ []) chunks) as Hne
    by (repeat constructor; done).
  assert (srv_clean (concat chunks) = true) as Hsrv by (vm_compute; reflexivity).
  assert (cli_clean (concat chunks) = true) as Hcli by (vm_compute; reflexivity).
  destruct (demux_chunking_on_clean_input (H := ascii_codec))
    as (Hs & Hc & Hss & Hcs).
  split; [done|].
  split; [exact (Hs chunks Hne Hsrv)|].
  split; [exact (Hc chunks Hne Hcli)|].
  split.
  - apply Hss; decide_by_compute.
  - apply (Hcs _ _ (str_of "PONG")); [|reflexivity| |]; decide_by_compute.
Defined.

(** C1 as stated fails: after an unknown command name the server empties
    its whole buffer, so what follows it is dispatched or not depending on
    where the chunk boundary falls. *)
Lemma demux_chunking_counterexample :
  let chunks := [bytes_of "X:"; bytes_of "MSG:hi" ++ [newline]] in
  Forall (λ data, data ≠ []) chunks ∧
  srv_run chunks = Some ([SrvMessage (str_of "MSG") (str_of "hi")], []) ∧
  srv_run [concat chunks] = Some ([], []) ∧
  cli_run [bytes_of "X:"; bytes_of "CHAT:ann:hi" ++ [newline]] =
    Some ([MessageReceived (str_of "CHAT:ann:hi")],
          {| buffer := []; is_receiving_file := false |}) ∧
  cli_run [bytes_of "X:" ++ bytes_of "CHAT:ann:hi" ++ [newline]] =
    Some ([], {| buffer := []; is_receiving_file := false |}).
Proof.
  intros chunks. split; [repeat constructor; done|].
  repeat split; vm_compute; reflexivity.
Qed.

(** ** SCRN subframes *)

Lemma srv_scrn_header `{Codec} (header size_str data_rest : bytes) (L : Z) :
  colon ∉ header → utf8_decode_ignore header = str_of "SCRN" →
  colon ∉ size_str → utf8_decode size_str ≫= int_of_str = Some L →
  srv_parse_header (header ++ colon :: size_str ++ colon :: data_rest) =
    SrvScrnHeader L data_rest.
Proof.
  intros Hcolon Hcmd Hcolon' Hsize. unfold srv_parse_header.
  rewrite partition_at_intro by done. rewrite Hcmd.
  rewrite decide_False by decide_by_compute. rewrite decide_True by done.
  rewrite partition_at_intro by done. by rewrite Hsize.
Qed.

Lemma cli_scrn_header `{Codec} (header username_bytes size_str frame_data : bytes)
    (username : str) (L : Z) :
  colon ∉ header → utf8_decode header = Some (str_of "SCRN") →
  colon ∉ username_bytes → utf8_decode username_bytes = Some username →
  colon ∉ size_str → int_of_bytes size_str = Some L →
  cli_parse_header
    (header ++ colon :: username_bytes ++ colon :: size_str ++ colon :: frame_data) =
    CliScrnHeader username L frame_data.
Proof.
  intros Hcolon Hcmd Hcolon' Huser Hcolon'' Hsize. unfold cli_parse_header.
  rewrite partition_at_intro by done. rewrite Hcmd.
  rewrite decide_False by decide_by_compute. rewrite decide_True by done.
  rewrite partition_at_intro by done. rewrite Huser.
  rewrite partition_at_intro by done. by rewrite Hsize.
Qed.

(** C2.  Once a SCRN header with length [L] is delimited, a buffer that
    holds [L] body bytes followed by any trailing bytes makes the
    iteration dispatch one subframe, the body, and continue with exactly
    the trailing bytes; with fewer than [L] bytes after the header nothing
    is dispatched and the buffer is kept.  Stated for the server
    ([SCRN:<length>:]) and for the client ([SCRN:<username>:<length>:]). *)
Theorem scrn_subframe_framing `{Codec} :
  (∀ (header size_str body trailing : bytes) (L : Z),
     colon ∉ header → utf8_decode_ignore header = str_of "SCRN" →
     colon ∉ size_str → utf8_decode size_str ≫= int_of_str = Some L →
     len body = L →
     srv_step (header ++ colon :: size_str ++ colon :: body ++ trailing) =
       Emit (SrvBinary body) trailing) ∧
  (∀ (header size_str data_rest : bytes) (L : Z),
     colon ∉ header → utf8_decode_ignore header = str_of "SCRN" →
     colon ∉ size_str → utf8_decode size_str ≫= int_of_str = Some L →
     len data_rest < L →
     drain srv_step (header ++ colon :: size_str ++ colon :: data_rest) =
       Some ([], header ++ colon :: size_str ++ colon :: data_rest, Break)) ∧
  (∀ (header username_bytes size_str body trailing : bytes) (username : str) (L : Z),
     colon ∉ header → utf8_decode header = Some (str_of "SCRN") →
     colon ∉ username_bytes → utf8_decode username_bytes = Some username →
     colon ∉ size_str → int_of_bytes size_str = Some L →
     len body = L →
     cli_step (header ++ colon :: username_bytes ++ colon :: size_str ++
               colon :: body ++ trailing) =
       Emit (ScreenFrameReceived username body) trailing) ∧
  (∀ (header username_bytes size_str frame_data : bytes) (username : str) (L : Z),
     colon ∉ header → utf8_decode header = Some (str_of "SCRN") →
     colon ∉ username_bytes → utf8_decode username_bytes = Some username →
     colon ∉ size_str → int_of_bytes size_str = Some L →
     len frame_data < L →
     drain cli_step (header ++ colon :: username_bytes ++ colon :: size_str ++
                     colon :: frame_data) =
       Some ([], header ++ colon :: username_bytes ++ colon :: size_str ++
                 colon :: frame_data, Break)).
Proof.
  repeat split.
  - intros header size_str body trailing L Hc Hcmd Hc' Hsize HL.
    unfold srv_step. rewrite (srv_scrn_header _ _ _ L) by done.
    rewrite decide_True by (unfold len in *; rewrite length_app; lia).
    subst L. by destruct (slice_exact body trailing) as [-> ->].
  - intros header size_str data_rest L Hc Hcmd Hc' Hsize HL.
    apply (drain_incomplete srv_step srv_step_shrinks).
    unfold srv_step. rewrite (srv_scrn_header _ _ _ L) by done.
    by rewrite decide_False by lia.
  - intros header username_bytes size_str body trailing username L
      Hc Hcmd Hc' Huser Hc'' Hsize HL.
    unfold cli_step. rewrite (cli_scrn_header _ _ _ _ username L) by done.
    rewrite decide_True by (unfold len in *; rewrite length_app; lia).
    subst L. by destruct (slice_exact body trailing) as [-> ->].
  - intros header username_bytes size_str frame_data username L
      Hc Hcmd Hc' Huser Hc'' Hsize HL.
    apply (drain_incomplete cli_step cli_step_shrinks).
    unfold cli_step. rewrite (cli_scrn_header _ _ _ _ username L) by done.
    by rewrite decide_False by lia.
Qed.

(** C2 at concrete buffers: a three-byte frame followed by the start of a
    PING, and the same header with only two body bytes. *)
Lemma scrn_subframe_framing_witness :
  srv_step (bytes_of "SCRN" ++ colon :: bytes_of "3" ++ colon ::
            bytes_of "abc" ++ bytes_of "PING:") =
    Emit (SrvBinary (bytes_of "abc")) (bytes_of "PING:") ∧
  drain srv_step (bytes_of "SCRN" ++ colon :: bytes_of "3" ++ colon :: bytes_of "ab") =
    Some ([], bytes_of "SCRN" ++ colon :: bytes_of "3" ++ colon :: bytes_of "ab", Break) ∧
  cli_step (bytes_of "SCRN" ++ colon :: bytes_of "ann" ++ colon :: bytes_of "3" ++
            colon :: bytes_of "abc" ++ bytes_of "PONG:") =
    Emit (ScreenFrameReceived (str_of "ann") (bytes_of "abc")) (bytes_of "PONG:") ∧
  drain cli_step (bytes_of "SCRN" ++ colon :: bytes_of "ann" ++ colon :: bytes_of "3" ++
                  colon :: bytes_of "ab") =
    Some ([], bytes_of "SCRN" ++ colon :: bytes_of "ann" ++ colon :: bytes_of "3" ++
              colon :: bytes_of "ab", Break).
Proof.
  destruct (scrn_subframe_framing (H := ascii_codec)) as (Hs1 & Hs2 & Hc1 & Hc2).
  split; [|split; [|split]].
  - apply (Hs1 _ _ _ _ 3); [decide_by_compute|reflexivity|decide_by_compute|reflexivity|reflexivity].
  - apply (Hs2 _ _ _ 3); [decide_by_compute|reflexivity|decide_by_compute|reflexivity|reflexivity].
  - apply (Hc1 _ _ _ _ _ _ 3);
      [decide_by_compute|reflexivity|decide_by_compute|reflexivity
      |decide_by_compute|reflexivity|reflexivity].
  - apply (Hc2 _ _ _ _ (str_of "ann") 3);
      [decide_by_compute|reflexivity|decide_by_compute|reflexivity
      |decide_by_compute|reflexivity|reflexivity].
Defined.

(** ** Malformed headers *)

Lemma srv_loop_reset `{Codec} (buffer0 data : bytes) (chunks : list bytes) :
  data ≠ [] → srv_step (buffer0 ++ data) = Reset →
  srv_loop buffer0 (data :: chunks) = srv_loop [] chunks.
Proof.
  intros Hdata E. simpl. rewrite decide_False by done.
  rewrite (drain_unfold srv_step srv_step_shrinks), E. simpl.
  destruct (srv_loop_total chunks []) as [[fs fin] ->]. done.
Qed.

Lemma cli_loop_reset `{Codec} (buffer0 data : bytes) (chunks : list bytes) :
  data ≠ [] → cli_step (buffer0 ++ data) = Reset →
  cli_loop {| buffer := buffer0; is_receiving_file := false |} (data :: chunks) =
  cli_loop {| buffer := []; is_receiving_file := false |} chunks.
Proof.
  intros Hdata E. simpl. rewrite decide_False by done. unfold tcp_on_data. simpl.
  rewrite (drain_unfold cli_step cli_step_shrinks), E. simpl.
  destruct (cli_loop_total chunks {| buffer := []; is_receiving_file := false |})
    as [[fs fin] ->]. done.
Qed.

(** C8, as the code has it.  A malformed header makes the iteration drop
    the whole buffer and dispatch nothing: on the server an unknown
    command name or a SCRN length that does not parse; on the client a
    command name that does not decode, an unknown one, or a SCRN length
    that does not parse.  The loop then scans the next chunk in line mode
    from an empty buffer. *)
Theorem malformed_header_empties_buffer `{Codec} :
  (∀ header rest : bytes,
     colon ∉ header → utf8_decode_ignore header ∉ srv_text_commands →
     utf8_decode_ignore header ≠ str_of "SCRN" →
     srv_step (header ++ colon :: rest) = Reset) ∧
  (∀ header size_str rest : bytes,
     colon ∉ header → utf8_decode_ignore header = str_of "SCRN" →
     colon ∉ size_str → utf8_decode size_str ≫= int_of_str = None →
     srv_step (header ++ colon :: size_str ++ colon :: rest) = Reset) ∧
  (∀ header rest : bytes,
     colon ∉ header → utf8_decode header = None →
     cli_step (header ++ colon :: rest) = Reset) ∧
  (∀ (header rest : bytes) (command : str),
     colon ∉ header → utf8_decode header = Some command →
     command ∉ cli_text_commands → command ≠ str_of "SCRN" →
     cli_step (header ++ colon :: rest) = Reset) ∧
  (∀ (header username_bytes size_str rest : bytes) (username : str),
     colon ∉ header → utf8_decode header = Some (str_of "SCRN") →
     colon ∉ username_bytes → utf8_decode username_bytes = Some username →
     colon ∉ size_str → int_of_bytes size_str = None →
     cli_step (header ++ colon :: username_bytes ++ colon :: size_str ++
               colon :: rest) = Reset) ∧
  (∀ buffer0 : bytes,
     srv_step buffer0 = Reset → drain srv_step buffer0 = Some ([], [], Break)) ∧
  (∀ buffer0 : bytes,
     cli_step buffer0 = Reset → drain cli_step buffer0 = Some ([], [], Break)) ∧
  (∀ (buffer0 data : bytes) (chunks : list bytes),
     data ≠ [] → srv_step (buffer0 ++ data) = Reset →
     srv_loop buffer0 (data :: chunks) = srv_loop [] chunks) ∧
  (∀ (buffer0 data : bytes) (chunks : list bytes),
     data ≠ [] → cli_step (buffer0 ++ data) = Reset →
     cli_loop {| buffer := buffer0; is_receiving_file := false |} (data :: chunks) =
     cli_loop {| buffer := []; is_receiving_file := false |} chunks).
Proof.
  repeat split.
  - intros header rest Hc Hn1 Hn2. unfold srv_step, srv_parse_header.
    rewrite partition_at_intro by done. by rewrite !decide_False.
  - intros header size_str rest Hc Hcmd Hc' Hsize. unfold srv_step, srv_parse_header.
    rewrite partition_at_intro by done. rewrite Hcmd.
    rewrite decide_False by decide_by_compute. rewrite decide_True by done.
    rewrite partition_at_intro by done. by rewrite Hsize.
  - intros header rest Hc Hdec. unfold cli_step, cli_parse_header.
    rewrite partition_at_intro by done. by rewrite Hdec.
  - intros header rest command Hc Hdec Hn1 Hn2. unfold cli_step, cli_parse_header.
    rewrite partition_at_intro by done. rewrite Hdec. by rewrite !decide_False.
  - intros header username_bytes size_str rest username Hc Hcmd Hc' Huser Hc'' Hsize.
    unfold cli_step, cli_parse_header.
    rewrite partition_at_intro by done. rewrite Hcmd.
    rewrite decide_False by decide_by_compute. rewrite decide_True by done.
    rewrite partition_at_intro by done. rewrite Huser.
    rewrite partition_at_intro by done. by rewrite Hsize.
  - intros buffer0 E. by rewrite (drain_unfold srv_step srv_step_shrinks), E.
  - intros buffer0 E. by rewrite (drain_unfold cli_step cli_step_shrinks), E.
  - intros. by apply srv_loop_reset.
  - intros. by apply cli_loop_reset.
Qed.

(** C8 at concrete buffers, each with a complete line after the malformed
    header. *)
Lemma malformed_header_empties_buffer_witness :
  srv_step (bytes_of "X" ++ colon :: bytes_of "junk" ++ [newline] ++ bytes_of "MSG:hi") = Reset ∧
  srv_step (bytes_of "SCRN" ++ colon :: bytes_of "1x" ++ colon :: bytes_of "abc") = Reset ∧
  cli_step ([xff] ++ colon :: bytes_of "junk") = Reset ∧
  cli_step (bytes_of "X" ++ colon :: bytes_of "junk") = Reset ∧
  cli_step (bytes_of "SCRN" ++ colon :: bytes_of "ann" ++ colon :: bytes_of "1x" ++
            colon :: bytes_of "abc") = Reset ∧
  drain srv_step (bytes_of "X:junk") = Some ([], [], Break) ∧
  drain cli_step (bytes_of "X:junk") = Some ([], [], Break) ∧
  srv_loop (bytes_of "X") [bytes_of ":junk"; bytes_of "PING:1" ++ [newline]] =
    srv_loop [] [bytes_of "PING:1" ++ [newline]] ∧
  cli_loop {| buffer := bytes_of "X"; is_receiving_file := false |}
           [bytes_of ":junk"; bytes_of "PONG:1" ++ [newline]] =
    cli_loop {| buffer := []; is_receiving_file := false |} [bytes_of "PONG:1" ++ [newline]].
Proof.
  destruct (malformed_header_empties_buffer (H := ascii_codec))
    as (H1 & H2 & H3 & H4 & H5 & H6 & H7 & H8 & H9).
  split; [apply H1; decide_by_compute|].
  split; [apply H2; [decide_by_compute|reflexivity|decide_by_compute|reflexivity]|].
  split; [apply H3; [decide_by_compute|reflexivity]|].
  split; [apply (H4 _ _ (str_of "X")); [|reflexivity| |]; decide_by_compute|].
  split; [apply (H5 _ _ _ _ (str_of "ann"));
            [decide_by_compute|reflexivity|decide_by_compute|reflexivity
            |decide_by_compute|reflexivity]|].
  split; [apply H6; reflexivity|].
  split; [apply H7; reflexivity|].
  split; [apply H8; [done|reflexivity]|apply H9; [done|reflexivity]].
Defined.

(** C8 as stated fails: the complete MSG line that follows the malformed
    header's line is dropped with it, where discarding to the line
    boundary would keep and dispatch it. *)
Lemma malformed_header_counterexample :
  let buffer0 := bytes_of "X:junk" ++ [newline] ++ bytes_of "MSG:hi" ++ [newline] in
  srv_step buffer0 = Reset ∧
  drain srv_step buffer0 = Some ([], [], Break) ∧
  discard_to_line_boundary buffer0 = bytes_of "MSG:hi" ++ [newline] ∧
  drain srv_step (discard_to_line_boundary buffer0) =
    Some ([SrvMessage (str_of "MSG") (str_of "hi")], [], Break) ∧
  srv_run [buffer0] = Some ([], []).
Proof. intros buffer0. repeat split; vm_compute; reflexivity. Qed.

(** ** The file relay *)

Lemma recv_spec (k : Z) (pending : list bytes) (chunk : bytes) (unread' : list bytes) :
  1 ≤ k → recv k pending = (chunk, unread') →
  len chunk ≤ k ∧
  ((chunk = [] ∧ available pending = []) ∨
   (chunk ≠ [] ∧ available pending = chunk ++ available unread')).
Proof.
  intros Hk. unfold recv, len. destruct pending as [|segment pending'].
  - intros [= <- <-]. simpl. split; [lia|]. by left.
  - intros [= <- <-]. split; [rewrite length_take; lia|].
    simpl. destruct (decide (segment = [])) as [->|Hseg].
    + left. by rewrite take_nil.
    + right. split.
      * destruct segment; [done|]. destruct (Z.to_nat k) eqn:E; [lia|done].
      * destruct (decide (drop (Z.to_nat k) segment = [])) as [Hdrop|Hdrop].
        -- rewrite <- (take_drop (Z.to_nat k) segment) at 1.
           by rewrite Hdrop, app_nil_r.
        -- simpl. rewrite decide_False by done.
           by rewrite app_assoc, take_drop.
Qed.

Lemma len_app {A} (l1 l2 : list A) : len (l1 ++ l2) = len l1 + len l2.
Proof. unfold len. rewrite length_app. lia. Qed.

Lemma len_nonneg {A} (l : list A) : 0 ≤ len l.
Proof. unfold len. lia. Qed.

Lemma len_concat_take_le (l : list bytes) (i : nat) :
  len (concat (take i l)) ≤ len (concat l).
Proof.
  rewrite <- (take_drop i l) at 2. rewrite concat_app, len_app.
  pose proof (len_nonneg (concat (drop i l))). lia.
Qed.

Lemma relay_inv_step (N : Z) (A : bytes) (t : transfer) (chunk : bytes)
    (unread' : list bytes) :
  relay_inv N A t → length (requests t) = length (relayed t) →
  bytes_transferred t < N →
  len chunk ≤ Z.min 4096 (N - bytes_transferred t) →
  relay_inv N A
    {| requests := requests t ++ [Z.min 4096 (N - bytes_transferred t)];
       relayed := if decide (chunk = []) then relayed t else relayed t ++ [chunk];
       bytes_transferred := bytes_transferred t + len chunk;
       unread := unread' |}.
Proof.
  intros [Hreq Hch Hcount Hbound] Hlen Hlt Hchunk.
  assert (∀ i, take i (if decide (chunk = []) then relayed t else relayed t ++ [chunk])
               = take i (relayed t) ∨
               take i (if decide (chunk = []) then relayed t else relayed t ++ [chunk])
               = relayed t ++ [chunk]) as Htake.
  { intros i. destruct (decide (chunk = [])); [by left|].
    destruct (decide (i ≤ length (relayed t))%nat).
    - left. by rewrite take_app_le.
    - right. rewrite take_ge; [done|]. rewrite length_app. simpl. lia. }
  split; simpl.
  - intros i k Hi. destruct (decide (i < length (requests t))%nat) as [Hlti|Hge].
    + rewrite lookup_app_l in Hi by done. rewrite (Hreq i k Hi).
      destruct (decide (chunk = [])); [done|].
      rewrite take_app_le by lia. done.
    + rewrite lookup_app_r in Hi by lia.
      destruct (i - length (requests t))%nat as [|?] eqn:Ei; [|done].
      simpl in Hi. simplify_eq.
      assert (i = length (relayed t)) as -> by lia.
      destruct (decide (chunk = [])).
      * rewrite take_ge by lia. by rewrite Hcount.
      * rewrite take_app_length. by rewrite Hcount.
  - intros i c Hi. destruct (decide (chunk = [])) as [->|Hne].
    + destruct (Hch i c Hi) as (Hc & k & Hk & Hle). split; [done|].
      exists k. split; [|done]. apply lookup_app_l_Some. done.
    + destruct (decide (i < length (relayed t))%nat) as [Hlti|Hge].
      * rewrite lookup_app_l in Hi by done.
        destruct (Hch i c Hi) as (Hc & k & Hk & Hle). split; [done|].
        exists k. split; [|done]. by apply lookup_app_l_Some.
      * rewrite lookup_app_r in Hi by lia.
        destruct (i - length (relayed t))%nat as [|?] eqn:Ei; [|done].
        simpl in Hi. simplify_eq. split; [done|].
        exists (Z.min 4096 (N - bytes_transferred t)). split; [|done].
        rewrite lookup_app_r by lia.
        replace (i - length (requests t))%nat with 0%nat by lia. done.
  - destruct (decide (chunk = [])) as [->|Hne].
    + rewrite Hcount. unfold len at 2. simpl. lia.
    + rewrite concat_app, len_app, Hcount. simpl. by rewrite app_nil_r.
  - intros i. destruct (Htake i) as [->| ->]; [done|].
    rewrite concat_app, len_app. simpl. rewrite app_nil_r. lia.
Qed.

(** The loop from any state that satisfies the invariant, with enough
    fuel for the bytes that remain. *)
Lemma relay_loop_spec (N : Z) (A : bytes) (fuel : nat) (t : transfer) :
  relay_inv N A t → length (requests t) = length (relayed t) →
  A = concat (relayed t) ++ available (unread t) →
  (Z.to_nat (N - bytes_transferred t) < fuel)%nat →
  ∃ t', relay_loop fuel N t = Some t' ∧ relay_inv N A t' ∧
        ((bytes_transferred t' = N ∧ length (requests t') = length (relayed t') ∧
          ∃ rest, A = concat (relayed t') ++ rest) ∨
         (bytes_transferred t' < N ∧ concat (relayed t') = A ∧
          length (requests t') = S (length (relayed t'))) ∨
         (N < bytes_transferred t' ∧ t' = t)).
Proof.
  revert t. induction fuel as [|fuel IH]; intros t Hinv Hlen HA Hfuel; [lia|].
  simpl. destruct (decide (bytes_transferred t < N)) as [Hlt|Hge].
  - destruct (recv (Z.min 4096 (N - bytes_transferred t)) (unread t))
      as [chunk unread'] eqn:Hrecv.
    apply recv_spec in Hrecv as [Hchunk Hcases]; [|lia].
    pose proof (relay_inv_step N A t chunk unread' Hinv Hlen Hlt Hchunk) as Hinv'.
    destruct (decide (chunk = [])) as [->|Hne].
    + destruct Hcases as [[_ Hav]|[? _]]; [|done].
      eexists. split; [done|]. unfold len in Hinv'. simpl in Hinv'.
      rewrite Z.add_0_r in Hinv'. split; [done|]. right. left. simpl.
      rewrite Hav, app_nil_r in HA. rewrite length_app. simpl.
      split; [done|]. split; [done|]. lia.
    + destruct Hcases as [[? _]|[_ Hav]]; [done|].
      assert (0 < len chunk) by (unfold len; destruct chunk; simpl; [done|lia]).
      edestruct (IH _ Hinv') as (t' & -> & Hinv'' & Hpost); simpl.
      * rewrite !length_app. simpl. lia.
      * rewrite concat_app. simpl. rewrite app_nil_r, <- app_assoc. by rewrite <- Hav.
      * lia.
      * exists t'. split; [done|]. split; [done|].
        destruct Hpost as [?|[?|[Hcontra ->]]]; [by left|by right; left|].
        simpl in Hcontra. lia.
  - exists t. split; [done|]. split; [done|].
    destruct (decide (bytes_transferred t = N)) as [Heq|Hne].
    + left. split; [done|]. split; [done|]. eauto.
    + right. right. split; [lia|done].
Qed.

Lemma relay_spec (N : Z) (sender : list bytes) :
  0 ≤ N →
  ∃ t, relay N sender = Some t ∧ relay_inv N (available sender) t ∧
       concat (relayed t) = take (Z.to_nat N) (available sender) ∧
       (transfer_succeeded N t = true ↔ N ≤ len (available sender)) ∧
       (len (available sender) < N → length (requests t) = S (length (relayed t))) ∧
       (N ≤ len (available sender) → length (requests t) = length (relayed t)).
Proof.
  intros HN. unfold relay.
  set (t0 := {| requests := []; relayed := []; bytes_transferred := 0;
                unread := sender |}).
  assert (relay_inv N (available sender) t0) as Hinv0.
  { split; simpl; try done. intros i. by rewrite take_nil. }
  destruct (relay_loop_spec N (available sender) (S (Z.to_nat N)) t0 Hinv0)
    as (t & Ht & Hinv & Hpost); [done|done|simpl; lia|].
  exists t. split; [exact Ht|]. split; [done|].
  pose proof (inv_count _ _ _ Hinv) as Hcount.
  unfold transfer_succeeded. rewrite bool_decide_eq_true.
  destruct Hpost as [(Hbt & Hlen & rest & HA)|[(Hbt & HA & Hlen)|(Hbt & ->)]].
  - assert (length (concat (relayed t)) = Z.to_nat N) as Hl
      by (unfold len in Hcount; lia).
    assert (N ≤ len (available sender)) as Hle.
    { rewrite HA, len_app. pose proof (len_nonneg rest). lia. }
    split; [by rewrite HA, <- Hl, take_app_length|].
    split; [done|]. split; [lia|done].
  - assert (len (available sender) < N) as Hshort by (rewrite <- HA; lia).
    split; [rewrite HA; rewrite take_ge; [done|unfold len in *; lia]|].
    split; [lia|]. split; [done|lia].
  - simpl in Hbt. lia.
Qed.

Lemma for_each_log {A} (f : A → srv_event) (l : list A) (σ : server) :
  ∃ σ', for_each l (λ x, modify (log_event (f x))) σ = Done () σ' ∧
        trace σ' = trace σ ++ (f <$> l) ∧
        clients σ' = clients σ ∧ username_to_conn σ' = username_to_conn σ ∧
        lock_held σ' = lock_held σ ∧ running σ' = running σ.
Proof.
  revert σ. induction l as [|x l IH]; intros σ; simpl.
  - exists σ. by rewrite app_nil_r.
  - unfold bind, modify at 1. destruct (IH (log_event (f x) σ)) as (σ' & -> & Htr & ?).
    exists σ'. split; [done|]. simpl in *. by rewrite Htr, <- app_assoc.
Qed.

(** C3.  When the target is registered and can be notified, and the
    announced size is not negative, the relay returns, and what it has
    written to the receiver after the FILE_INCOMING line is exactly the
    first [N] bytes that the sender's socket delivers before a zero-length
    read.  Every read asks for [min(4096, N - bytes relayed so far)]
    bytes, every relayed chunk is non-empty and no longer than asked for,
    the count never exceeds [N], the success test holds exactly when the
    sender delivers [N] bytes, and otherwise the zero-length read is the
    last read. *)
Theorem file_relay_exact (fails : conn → bool) (sender_conn receiver_conn : conn)
    (sender_username target_username filename : str) (N : Z)
    (sender : list bytes) (σ : server) :
  0 ≤ N →
  username_to_conn σ !! target_username = Some receiver_conn →
  fails receiver_conn = false →
  ∃ t σ',
    handle_file_transfer fails sender_conn sender_username target_username
      filename N sender σ = Done (Some t) σ' ∧
    trace σ' =
      trace σ ++
      SendText receiver_conn
        (str_of "FILE_INCOMING:" ++ sender_username ++ [58%N] ++ filename ++
         [58%N] ++ str_of_Z N ++ [10%N]) ::
      (SendBytes receiver_conn <$> relayed t) ∧
    concat (relayed t) = take (Z.to_nat N) (available sender) ∧
    bytes_transferred t = len (concat (relayed t)) ∧
    (∀ i k, requests t !! i = Some k →
            k = Z.min 4096 (N - len (concat (take i (relayed t))))) ∧
    (∀ i chunk, relayed t !! i = Some chunk →
                chunk ≠ [] ∧ ∃ k, requests t !! i = Some k ∧ len chunk ≤ k) ∧
    (∀ i, len (concat (take i (relayed t))) ≤ N) ∧
    (transfer_succeeded N t = true ↔ N ≤ len (available sender)) ∧
    (len (available sender) < N → length (requests t) = S (length (relayed t))) ∧
    (N ≤ len (available sender) → length (requests t) = length (relayed t)).
Proof.
  intros HN Htarget Hfails.
  destruct (relay_spec N sender HN) as (t & Hrelay & [Hreq Hch Hcount Hbound] & Hdata & Hsucc & Habort & Hfull).
  unfold handle_file_transfer. rewrite Htarget.
  unfold bind at 1, catch, bind at 1, sendall_text. rewrite Hfails.
  unfold modify at 1, ret at 1. simpl. rewrite Hrelay.
  unfold bind.
  match goal with
  | |- context [for_each ?l _ ?σ0] =>
      destruct (for_each_log (SendBytes receiver_conn) l σ0) as (σ' & -> & Htr & _)
  end.
  exists t, σ'. split; [done|]. split.
  { rewrite Htr. cbn [trace log_event]. by rewrite <- app_assoc. }
  done.
Qed.

(** C3 at a concrete transfer: five bytes announced, seven delivered in
    two segments. *)
Lemma file_relay_exact_witness :
  let σ := set_username_to_conn (<[str_of "bob" := 2%nat]>) server_init in
  let sender := [bytes_of "abc"; bytes_of "defg"] in
  (0 ≤ 5 ∧ username_to_conn σ !! str_of "bob" = Some 2%nat) ∧
  ∃ t σ',
    handle_file_transfer (λ _, false) 1%nat (str_of "ann") (str_of "bob")
      (str_of "f.txt") 5 sender σ = Done (Some t) σ' ∧
    concat (relayed t) = bytes_of "abcde" ∧
    transfer_succeeded 5 t = true.
Proof.
  intros σ sender.
  assert (0 ≤ 5) as H5 by lia.
  assert (username_to_conn σ !! str_of "bob" = Some 2%nat) as Hbob
    by (vm_compute; reflexivity).
  split; [done|].
  destruct (file_relay_exact (λ _, false) 1%nat 2%nat (str_of "ann") (str_of "bob")
              (str_of "f.txt") 5 sender σ H5 Hbob eq_refl)
    as (t & σ' & Hrun & _ & Hdata & _ & _ & _ & _ & Hsucc & _).
  exists t, σ'. split; [exact Hrun|]. split; [exact Hdata|].
  apply Hsucc. vm_compute. discriminate.
Defined.

(** ** The loss estimator *)

Lemma on_video_packet_known (metrics : gmap str peer_stats) (username : str)
    (stats : peer_stats) (seq_num : Z) :
  metrics !! username = Some stats →
  on_video_packet metrics username seq_num =
    (<[username := update_stats stats seq_num]> metrics,
     loss_percent (update_stats stats seq_num)).
Proof. intros Hm. unfold on_video_packet. by rewrite Hm, Hm. Qed.

Lemma on_video_packet_fresh (metrics : gmap str peer_stats) (username : str)
    (seq_num : Z) :
  metrics !! username = None →
  on_video_packet metrics username seq_num =
    (<[username := update_stats {| last_seq := seq_num - 1; lost := 0; total := 0 |}
                     seq_num]> metrics,
     loss_percent (update_stats {| last_seq := seq_num - 1; lost := 0; total := 0 |}
                     seq_num)).
Proof.
  intros Hm. unfold on_video_packet. rewrite Hm, lookup_insert_eq.
  by rewrite insert_insert_eq.
Qed.

Lemma update_stats_spec (stats : peer_stats) (seq_num : Z) :
  update_stats stats seq_num =
    {| last_seq := seq_num;
       lost := lost stats + Z.max 0 (seq_num - last_seq stats - 1);
       total := total stats + 1 |}.
Proof.
  unfold update_stats. f_equal.
  destruct (decide (seq_num - last_seq stats - 1 > 0)); lia.
Qed.

Lemma update_stats_first (seq_num : Z) :
  update_stats {| last_seq := seq_num - 1; lost := 0; total := 0 |} seq_num =
    {| last_seq := seq_num; lost := 0; total := 1 |}.
Proof. rewrite update_stats_spec. simpl. f_equal. lia. Qed.

(** C9.  From empty metrics, video packets of one peer with the sequence
    numbers 0, 1, 2, 5, 6 leave [lost = 2], [total = 5] and a last report
    of 40 percent; and for a known peer every packet adds
    [max(0, seq - last_seq - 1)] to [lost], one to [total], and sets
    [last_seq] to [seq]. *)
Theorem loss_estimator_gap_example (username : str) :
  (feed_sequence ∅ username [0; 1; 2; 5; 6]).1 !! username =
    Some {| last_seq := 6; lost := 2; total := 5 |} ∧
  (feed_sequence ∅ username [0; 1; 2; 5; 6]).2 = [0; 0; 0; 50; 40] ∧
  loss_percent {| last_seq := 6; lost := 2; total := 5 |} = 40 ∧
  (∀ (metrics : gmap str peer_stats) (stats : peer_stats) (seq_num : Z),
     metrics !! username = Some stats →
     (on_video_packet metrics username seq_num).1 !! username =
       Some {| last_seq := seq_num;
               lost := lost stats + Z.max 0 (seq_num - last_seq stats - 1);
               total := total stats + 1 |}).
Proof.
  assert (∀ (m : gmap str peer_stats) st sq,
            on_video_packet (<[username := st]> m) username sq =
            (<[username := update_stats st sq]> m, loss_percent (update_stats st sq)))
    as Hstep.
  { intros m st sq. rewrite (on_video_packet_known _ _ st) by apply lookup_insert_eq.
    by rewrite insert_insert_eq. }
  split; [|split; [|split]].
  - simpl. rewrite on_video_packet_fresh by apply lookup_empty.
    rewrite !Hstep. simpl. by rewrite lookup_insert_eq.
  - simpl. rewrite on_video_packet_fresh by apply lookup_empty.
    rewrite !Hstep. simpl. vm_compute. reflexivity.
  - vm_compute. reflexivity.
  - intros metrics stats seq_num Hm.
    rewrite (on_video_packet_known _ _ stats) by done. simpl.
    by rewrite lookup_insert_eq, update_stats_spec.
Qed.

(** C9's update rule at a concrete known peer. *)
Lemma loss_estimator_gap_example_witness :
  let metrics : gmap str peer_stats :=
    {[ str_of "bob" := {| last_seq := 2; lost := 0; total := 3 |} ]} in
  metrics !! str_of "bob" = Some {| last_seq := 2; lost := 0; total := 3 |} ∧
  (on_video_packet metrics (str_of "bob") 5).1 !! str_of "bob" =
    Some {| last_seq := 5; lost := 0 + Z.max 0 (5 - 2 - 1); total := 3 + 1 |}.
Proof.
  intros metrics.
  assert (metrics !! str_of "bob" = Some {| last_seq := 2; lost := 0; total := 3 |})
    as Hm by (vm_compute; reflexivity).
  split; [exact Hm|].
  destruct (loss_estimator_gap_example (str_of "bob")) as (_ & _ & _ & Hrule).
  exact (Hrule metrics _ 5 Hm).
Defined.

(** C10.  The first video packet of a peer not yet in the metrics, with
    any sequence number [s], creates the entry with [last_seq = s - 1];
    the update for that packet then counts no loss, and the percentage
    reported after this one packet is 0. *)
Theorem first_packet_counts_no_loss (metrics : gmap str peer_stats)
    (username : str) (s : Z) :
  metrics !! username = None →
  on_video_packet metrics username s =
    (<[username := update_stats {| last_seq := s - 1; lost := 0; total := 0 |} s]>
       metrics, 0) ∧
  update_stats {| last_seq := s - 1; lost := 0; total := 0 |} s =
    {| last_seq := s; lost := 0; total := 1 |} ∧
  (on_video_packet metrics username s).1 !! username =
    Some {| last_seq := s; lost := 0; total := 1 |}.
Proof.
  intros Hm. rewrite on_video_packet_fresh by done.
  rewrite update_stats_first. simpl. rewrite lookup_insert_eq.
  split; [|done]. f_equal.
Qed.

(** C10 at a concrete first packet. *)
Lemma first_packet_counts_no_loss_witness :
  (∅ : gmap str peer_stats) !! str_of "bob" = None ∧
  (on_video_packet ∅ (str_of "bob") 4711).2 = 0 ∧
  (on_video_packet ∅ (str_of "bob") 4711).1 !! str_of "bob" =
    Some {| last_seq := 4711; lost := 0; total := 1 |}.
Proof.
  assert ((∅ : gmap str peer_stats) !! str_of "bob" = None) as Hm
    by apply lookup_empty.
  split; [exact Hm|].
  destruct (first_packet_counts_no_loss ∅ (str_of "bob") 4711 Hm) as (Hrun & _ & Hstats).
  split; [by rewrite Hrun|exact Hstats].
Defined.

(** ** The registry *)

Lemma dict_get_None {K V} `{EqDecision K} (k : K) (d : list (K * V)) :
  dict_get k d = None ↔ k ∉ dict_keys d.
Proof.
  induction d as [|[k' v] d IH]; simpl.
  - split; [intros _; apply not_elem_of_nil|done].
  - destruct (decide (k' = k)) as [->|Hne].
    + split; [done|]. intros Hn. exfalso. apply Hn. left.
    + rewrite IH, not_elem_of_cons. split; [intros ?; split; done|intros [_ ?]; done].
Qed.

Lemma dict_get_pop_eq {K V} `{EqDecision K} (k : K) (d : list (K * V)) :
  dict_get k (dict_pop k d) = None.
Proof.
  induction d as [|[k' v] d IH]; simpl; [done|].
  destruct (decide (k' = k)); [done|]. simpl. by rewrite decide_False.
Qed.

Lemma dict_get_pop_ne {K V} `{EqDecision K} (k k' : K) (d : list (K * V)) :
  k ≠ k' → dict_get k' (dict_pop k d) = dict_get k' d.
Proof.
  intros Hne. induction d as [|[k0 v] d IH]; simpl; [done|].
  destruct (decide (k0 = k)) as [->|Hne0].
  - by rewrite decide_False.
  - simpl. by rewrite IH.
Qed.

Lemma dict_keys_pop {K V} `{EqDecision K} (k : K) (d : list (K * V)) :
  dict_keys (dict_pop k d) `sublist_of` dict_keys d.
Proof.
  induction d as [|[k' v] d IH]; simpl; [done|].
  destruct (decide (k' = k)); simpl.
  - by apply sublist_cons.
  - by apply sublist_skip.
Qed.

Lemma dict_pop_absent {K V} `{EqDecision K} (k : K) (d : list (K * V)) :
  dict_get k d = None → dict_pop k d = d.
Proof.
  induction d as [|[k' v] d IH]; simpl; [done|].
  destruct (decide (k' = k)); [done|]. intros Hd. by rewrite IH.
Qed.

Lemma dict_set_fresh {K V} `{EqDecision K} (k : K) (v : V) (d : list (K * V)) :
  dict_get k d = None → dict_set k v d = d ++ [(k, v)].
Proof.
  induction d as [|[k' v'] d IH]; simpl; [done|].
  destruct (decide (k' = k)); [done|]. intros Hd. by rewrite IH.
Qed.

Lemma dict_get_set_eq {K V} `{EqDecision K} (k : K) (v : V) (d : list (K * V)) :
  dict_get k (dict_set k v d) = Some v.
Proof.
  induction d as [|[k' v'] d IH]; simpl.
  - by rewrite decide_True.
  - destruct (decide (k' = k)) as [->|Hne]; simpl.
    + by rewrite decide_True.
    + by rewrite decide_False.
Qed.

Lemma dict_get_set_ne {K V} `{EqDecision K} (k k' : K) (v : V) (d : list (K * V)) :
  k ≠ k' → dict_get k' (dict_set k v d) = dict_get k' d.
Proof.
  intros Hne. induction d as [|[k0 v0] d IH]; simpl.
  - by rewrite decide_False.
  - destruct (decide (k0 = k)) as [->|Hne0]; simpl.
    + by rewrite !decide_False.
    + by rewrite IH.
Qed.

Lemma same_registry_refl (σ : server) : same_registry σ σ.
Proof. done. Qed.

Lemma same_registry_trans (σ1 σ2 σ3 : server) :
  same_registry σ1 σ2 → same_registry σ2 σ3 → same_registry σ1 σ3.
Proof. unfold same_registry. intros (-> & -> & ->) (-> & -> & ->). done. Qed.

Lemma keeps_ret {A} (a : A) : keeps_registry (ret a).
Proof. intros σ Hl. simpl. done. Qed.

Lemma keeps_throw {A} : keeps_registry (@throw A).
Proof. intros σ Hl. simpl. done. Qed.

Lemma keeps_log (e : srv_event) : keeps_registry (modify (log_event e)).
Proof. intros σ Hl. simpl. done. Qed.

Lemma keeps_bind {A B} (m : act A) (k : A → act B) :
  keeps_registry m → (∀ a, keeps_registry (k a)) → keeps_registry (bind m k).
Proof.
  intros Hm Hk σ Hl. unfold bind. specialize (Hm σ Hl).
  destruct (m σ) as [a σ'|σ'|σ'|]; try done.
  destruct Hm as [Hsame Hl']. specialize (Hk a σ' Hl').
  destruct (k a σ') as [b σ''|σ''|σ''|]; try done;
    destruct Hk as [Hsame' ?]; split; try done; by eapply same_registry_trans.
Qed.

Lemma keeps_catch {A} (m handler : act A) :
  keeps_registry m → keeps_registry handler → keeps_registry (catch m handler).
Proof.
  intros Hm Hh σ Hl. unfold catch. specialize (Hm σ Hl).
  destruct (m σ) as [a σ'|σ'|σ'|]; try done.
  destruct Hm as [Hsame Hl']. specialize (Hh σ' Hl').
  destruct (handler σ') as [b σ''|σ''|σ''|]; try done;
    destruct Hh as [Hsame' ?]; split; try done; by eapply same_registry_trans.
Qed.

Lemma keeps_for_each {A} (l : list A) (body : A → act unit) :
  (∀ x, keeps_registry (body x)) → keeps_registry (for_each l body).
Proof.
  intros Hbody. induction l as [|x l IH]; simpl.
  - apply keeps_ret.
  - apply keeps_bind; [apply Hbody|]. intros _. apply IH.
Qed.

Lemma keeps_sendall_text fails c message : keeps_registry (sendall_text fails c message).
Proof. unfold sendall_text. destruct (fails c); [apply keeps_throw|apply keeps_log]. Qed.

Lemma keeps_sendall_bytes fails c data : keeps_registry (sendall_bytes fails c data).
Proof. unfold sendall_bytes. destruct (fails c); [apply keeps_throw|apply keeps_log]. Qed.

Lemma keeps_sendall_scrn fails c username data :
  keeps_registry (sendall_scrn fails c username data).
Proof. unfold sendall_scrn. destruct (fails c); [apply keeps_throw|apply keeps_log]. Qed.

Lemma with_lock_held {A} (body : act A) (σ : server) :
  lock_held σ = true → with_lock body σ = Blocks σ.
Proof. intros Hl. unfold with_lock. by rewrite Hl. Qed.

(** Called under the lock, [remove_client] waits for it. *)
Lemma remove_client_at_held (depth : nat) fails c (σ : server) :
  lock_held σ = true → remove_client_at (S depth) fails c σ = Blocks σ.
Proof. intros Hl. simpl. by apply with_lock_held. Qed.

Lemma keeps_remove_client_at (depth : nat) fails c :
  keeps_registry (remove_client_at (S depth) fails c).
Proof. intros σ Hl. rewrite remove_client_at_held by done. done. Qed.

Lemma with_lock_free {A} (body : act A) (σ : server) :
  lock_held σ = false → keeps_registry body →
  match with_lock body σ with
  | Done _ σ' | Throws σ' => same_registry σ σ' ∧ lock_held σ' = false
  | Blocks σ' => same_registry σ σ' ∧ lock_held σ' = true
  | NoFuel => False
  end.
Proof.
  intros Hl Hbody. unfold with_lock. rewrite Hl.
  specialize (Hbody (set_lock true σ) eq_refl).
  destruct (body (set_lock true σ)) as [a σ'|σ'|σ'|]; try done;
    destruct Hbody as [(? & ? & ?) ?]; done.
Qed.

(** However it ends, a call made with or without the lock held that keeps
    the registry under the lock leaves the registry as it is. *)
Lemma with_lock_same {A} (body : act A) (σ : server) :
  keeps_registry body →
  match with_lock body σ with
  | Done _ σ' | Throws σ' | Blocks σ' => same_registry σ σ'
  | NoFuel => False
  end.
Proof.
  intros Hbody. destruct (lock_held σ) eqn:Hl.
  - by rewrite with_lock_held.
  - pose proof (with_lock_free body σ Hl Hbody) as Hfree.
    destruct (with_lock body σ); try done; by destruct Hfree.
Qed.

Lemma keeps_broadcast_body (depth : nat) fails message sender_conn (keys : list nat) :
  keeps_registry
    (for_each keys (λ c,
       if decide (Some c ≠ sender_conn)
       then catch (sendall_text fails c message) (remove_client_at (S depth) fails c)
       else ret ())).
Proof.
  apply keeps_for_each. intros c. destruct (decide (Some c ≠ sender_conn)).
  - apply keeps_catch; [apply keeps_sendall_text|apply keeps_remove_client_at].
  - apply keeps_ret.
Qed.

(** [broadcast] never changes the registry: a failed write calls
    [remove_client], which then waits for the lock that [broadcast]
    holds. *)
Lemma broadcast_same fails message sender_conn (σ : server) :
  match broadcast fails message sender_conn σ with
  | Done _ σ' | Throws σ' | Blocks σ' => same_registry σ σ'
  | NoFuel => False
  end.
Proof.
  unfold broadcast, broadcast_with. apply with_lock_same.
  intros σ0 Hl. by apply (keeps_broadcast_body 0).
Qed.

Lemma keeps_binary_body fails c username data (keys : list nat) :
  keeps_registry
    (for_each keys (λ c',
       if decide (c' ≠ c)
       then catch (sendall_scrn fails c' username data) (remove_client fails c')
       else ret ())).
Proof.
  apply keeps_for_each. intros c'. destruct (decide (c' ≠ c)).
  - apply keeps_catch; [apply keeps_sendall_scrn|apply keeps_remove_client_at].
  - apply keeps_ret.
Qed.

Lemma handle_tcp_binary_same fails c username data (σ : server) :
  match handle_tcp_binary fails c username data σ with
  | Done _ σ' | Throws σ' | Blocks σ' => same_registry σ σ'
  | NoFuel => False
  end.
Proof.
  unfold handle_tcp_binary. apply with_lock_same.
  intros σ0 Hl. by apply keeps_binary_body.
Qed.

(** [remove_client] on a connection that is not registered returns at
    once; on a registered one it removes the session from both maps and
    then waits for the lock it holds, in its first [broadcast]. *)
Lemma remove_client_absent fails c (σ : server) :
  lock_held σ = false → dict_get c (clients σ) = None →
  remove_client fails c σ = Done () σ.
Proof.
  intros Hl Hc. unfold remove_client. simpl. unfold with_lock. rewrite Hl. simpl.
  rewrite Hc. simpl. destruct σ. simpl in *. by subst.
Qed.

Lemma remove_client_present fails c username a (σ : server) :
  lock_held σ = false → dict_get c (clients σ) = Some (username, a) →
  remove_client fails c σ =
    Blocks (set_username_to_conn (delete username)
              (set_clients (dict_pop c) (set_lock true σ))).
Proof.
  intros Hl Hc. unfold remove_client. simpl. unfold with_lock at 1. rewrite Hl. simpl.
  rewrite Hc. unfold bind, modify. simpl. done.
Qed.

(** What [remove_client] does to the registry, however it ends. *)
Lemma remove_client_effect fails c (σ : server) :
  let σ' := state_after (remove_client fails c σ) σ in
  (same_registry σ σ' ∧ trace σ' = trace σ ∧ lock_held σ' = lock_held σ ∧
   (lock_held σ = true ∨ dict_get c (clients σ) = None)) ∨
  (∃ username a,
     lock_held σ = false ∧ dict_get c (clients σ) = Some (username, a) ∧
     clients σ' = dict_pop c (clients σ) ∧
     username_to_conn σ' = delete username (username_to_conn σ) ∧
     trace σ' = trace σ ∧ lock_held σ' = true).
Proof.
  destruct (lock_held σ) eqn:Hl.
  - left. unfold remove_client. rewrite remove_client_at_held by done. simpl.
    split; [done|]. split; [done|]. split; [done|]. by left.
  - destruct (dict_get c (clients σ)) as [[username a]|] eqn:Hc.
    + right. exists username, a. rewrite (remove_client_present _ _ username a) by done.
      simpl. done.
    + left. rewrite remove_client_absent by done. simpl.
      split; [done|]. split; [done|]. split; [done|]. by right.
Qed.

Lemma handle_disconnect_effect fails c (σ : server) :
  let σ' := state_after (handle_disconnect fails c σ) σ in
  (same_registry σ σ' ∧ trace σ' = trace σ ∧ lock_held σ' = lock_held σ ∧
   (lock_held σ = true ∨ dict_get c (clients σ) = None)) ∨
  (∃ username a,
     lock_held σ = false ∧ dict_get c (clients σ) = Some (username, a) ∧
     clients σ' = dict_pop c (clients σ) ∧
     username_to_conn σ' = delete username (username_to_conn σ) ∧
     trace σ' = trace σ ∧ lock_held σ' = true).
Proof.
  unfold handle_disconnect. destruct (decide (is_Some (dict_get c (clients σ)))) as [Hs|Hn].
  - apply remove_client_effect.
  - left. simpl. split; [done|]. split; [done|]. split; [done|]. right.
    by apply eq_None_not_Some.
Qed.

(** The nesting bound of the model is never reached. *)
Lemma remove_client_at_depth (depth : nat) fails c (σ : server) :
  remove_client_at (S depth) fails c σ = remove_client fails c σ.
Proof.
  unfold remove_client. simpl. unfold with_lock.
  destruct (lock_held σ); [done|].
  destruct (dict_get c (clients (set_lock true σ))) as [[username a]|]; [|done].
  unfold bind, modify. simpl. done.
Qed.

Lemma quiet_ret {A} (a : A) : keeps_registry_quietly (ret a).
Proof. intros σ Hl. simpl. done. Qed.

Lemma quiet_bind {A B} (m : act A) (k : A → act B) :
  keeps_registry_quietly m → (∀ a, keeps_registry_quietly (k a)) →
  keeps_registry_quietly (bind m k).
Proof.
  intros Hm Hk σ Hl. unfold bind. specialize (Hm σ Hl).
  destruct (m σ) as [a σ'|σ'|σ'|]; try done.
  destruct Hm as [Hsame Hl']. specialize (Hk a σ' Hl').
  destruct (k a σ') as [b σ''|σ''|σ''|]; try done;
    destruct Hk as [Hsame' ?]; split; try done; by eapply same_registry_trans.
Qed.

Lemma quiet_for_each {A} (l : list A) (body : A → act unit) :
  (∀ x, keeps_registry_quietly (body x)) → keeps_registry_quietly (for_each l body).
Proof.
  intros Hbody. induction l as [|x l IH]; simpl.
  - apply quiet_ret.
  - apply quiet_bind; [apply Hbody|]. intros _. apply IH.
Qed.

(** A failed write is answered by [remove_client], which waits. *)
Lemma quiet_catch_remove (m : act unit) (depth : nat) fails c :
  keeps_registry m →
  keeps_registry_quietly (catch m (remove_client_at (S depth) fails c)).
Proof.
  intros Hm σ Hl. unfold catch. specialize (Hm σ Hl).
  destruct (m σ) as [a σ'|σ'|σ'|]; try done.
  destruct Hm as [Hsame Hl']. by rewrite remove_client_at_held.
Qed.

Lemma with_lock_quiet {A} (body : act A) (σ : server) :
  keeps_registry_quietly body →
  match with_lock body σ with
  | Done _ σ' => same_registry σ σ' ∧ lock_held σ = false ∧ lock_held σ' = false
  | Blocks σ' => same_registry σ σ' ∧ lock_held σ' = true
  | Throws _ | NoFuel => False
  end.
Proof.
  intros Hbody. unfold with_lock. destruct (lock_held σ) eqn:Hl; [done|].
  specialize (Hbody (set_lock true σ) eq_refl).
  destruct (body (set_lock true σ)) as [a σ'|σ'|σ'|]; try done;
    destruct Hbody as [(? & ? & ?) ?]; done.
Qed.

Lemma quiet_broadcast_body fails message sender_conn (keys : list nat) :
  keeps_registry_quietly
    (for_each keys (λ c,
       if decide (Some c ≠ sender_conn)
       then catch (sendall_text fails c message) (remove_client fails c)
       else ret ())).
Proof.
  apply quiet_for_each. intros c. destruct (decide (Some c ≠ sender_conn)).
  - apply quiet_catch_remove, keeps_sendall_text.
  - apply quiet_ret.
Qed.

(** [broadcast] returns with the lock released, or leaves its thread
    waiting with the lock held; it never changes the registry. *)
Lemma broadcast_effect fails message sender_conn (σ : server) :
  match broadcast fails message sender_conn σ with
  | Done _ σ' => same_registry σ σ' ∧ lock_held σ = false ∧ lock_held σ' = false
  | Blocks σ' => same_registry σ σ' ∧ lock_held σ' = true
  | Throws _ | NoFuel => False
  end.
Proof.
  unfold broadcast, broadcast_with. apply with_lock_quiet.
  intros σ0 Hl. by apply quiet_broadcast_body.
Qed.

(** When every write succeeds, [broadcast] returns. *)
Lemma for_each_sends fails message sender_conn (keys : list nat) (σ : server) :
  (∀ c, fails c = false) →
  ∃ σ', for_each keys (λ c,
          if decide (Some c ≠ sender_conn)
          then catch (sendall_text fails c message) (remove_client fails c)
          else ret ()) σ = Done () σ'.
Proof.
  intros Hok. revert σ. induction keys as [|c keys IH]; intros σ; simpl; [by eexists|].
  unfold bind. destruct (decide (Some c ≠ sender_conn)).
  - unfold catch, sendall_text. rewrite Hok. simpl. apply IH.
  - simpl. apply IH.
Qed.

Lemma broadcast_returns fails message sender_conn (σ : server) :
  (∀ c, fails c = false) → lock_held σ = false →
  ∃ σ', broadcast fails message sender_conn σ = Done () σ'.
Proof.
  intros Hok Hl. unfold broadcast, broadcast_with, with_lock. rewrite Hl.
  destruct (for_each_sends fails message sender_conn
              (dict_keys (clients (set_lock true σ))) (set_lock true σ) Hok) as [σ' ->].
  by eexists.
Qed.

Section Join_facts.
Context `{Codec}.

(** The registration step: its four ways to end. *)
Lemma register_effect fails c username a (σ : server) :
  match register fails c username a σ with
  | Done true σ' =>
      lock_held σ = false ∧ username_to_conn σ !! username = None ∧
      σ' = set_lock false (set_username_to_conn (<[username := c]>)
             (set_clients (dict_set c (username, a)) (set_lock true σ)))
  | Done false σ' =>
      lock_held σ = false ∧ is_Some (username_to_conn σ !! username) ∧
      fails c = false ∧
      σ' = set_lock false (log_event (Close c)
             (log_event (SendBytes c (bytes_of "ERROR:USERNAME_TAKEN" ++ [newline]))
                (set_lock true σ)))
  | Throws σ' =>
      lock_held σ = false ∧ is_Some (username_to_conn σ !! username) ∧
      fails c = true ∧ σ' = set_lock false (set_lock true σ)
  | Blocks σ' => lock_held σ = true ∧ σ' = σ
  | NoFuel => False
  end.
Proof.
  unfold register, with_lock. destruct (lock_held σ) eqn:Hl; [done|].
  simpl. destruct (decide (is_Some (username_to_conn σ !! username))) as [Hs|Hn].
  - unfold bind, sendall_bytes. destruct (fails c) eqn:Hf; simpl; done.
  - simpl. split; [done|]. split; [|done]. by apply eq_None_not_Some.
Qed.

(** What the registration phase of [handle_client] does to the registry
    for a new connection, by the way it ends. *)
Lemma handle_join_effect fails c host data (σ : server) :
  dict_get c (clients σ) = None →
  match handle_join fails c host data σ with
  | Done (Joined username) σ' =>
      registered c host data username σ σ' ∧ lock_held σ' = false
  | Done result σ' =>
      same_registry σ σ' ∧ lock_held σ' = lock_held σ ∧
      (result = UsernameTaken →
       ∃ username port, parse_join data = JoinRequest username port ∧
                        is_Some (username_to_conn σ !! username))
  | Blocks σ' =>
      lock_held σ' = true ∧
      (same_registry σ σ' ∨ ∃ username, registered c host data username σ σ')
  | Throws _ | NoFuel => False
  end.
Proof.
  intros Hfresh. unfold handle_join, bind at 1, catch.
  destruct (parse_join data) as [username port| |] eqn:Hparse.
  - unfold bind at 1.
    pose proof (register_effect fails c username (host, port) σ) as Hreg.
    destruct (register fails c username (host, port) σ) as [[|] σ1|σ1|σ1|]; try done.
    + destruct Hreg as (Hl & Hnone & ->). unfold bind at 1.
      match goal with
      | |- context [broadcast ?f ?m ?s ?σ0] =>
          pose proof (broadcast_effect f m s σ0) as Hb;
          destruct (broadcast f m s σ0) as [[] σ2|σ2|σ2|]; try done
      end.
      * destruct Hb as ((Hc & Hu & _) & _ & Hl2). simpl.
        split; [|done]. exists port. rewrite Hc, Hu. done.
      * destruct Hb as ((Hc & Hu & _) & Hl2). split; [done|]. right.
        exists username, port. rewrite Hc, Hu. done.
    + destruct Hreg as (Hl & Htaken & Hf & ->). simpl.
      unfold bind, handle_disconnect. simpl. rewrite Hfresh.
      rewrite decide_False by (by intros [? ?]). simpl.
      split; [done|]. split; [done|]. eauto.
    + destruct Hreg as (Hl & Htaken & Hf & ->). simpl.
      unfold bind, handle_disconnect. simpl. rewrite Hfresh.
      rewrite decide_False by (by intros [? ?]). simpl.
      split; [done|]. split; [done|]. done.
    + destruct Hreg as [Hl ->]. split; [done|]. by left.
  - unfold bind, close, modify, handle_disconnect. simpl. rewrite Hfresh.
    rewrite decide_False by (by intros [? ?]). simpl. done.
  - unfold throw, bind, handle_disconnect. simpl. rewrite Hfresh.
    rewrite decide_False by (by intros [? ?]). simpl. done.
Qed.

Lemma inv_same (σ σ' : server) :
  same_registry σ σ' → registry_inv σ → registry_inv σ'.
Proof. unfold registry_inv. intros (-> & -> & _). done. Qed.

Lemma inv_init : registry_inv server_init.
Proof.
  split; [apply NoDup_nil_2|]. split; [done|].
  intros username c. simpl. by rewrite lookup_empty.
Qed.

Lemma inv_remove (σ σ' : server) c username a :
  registry_inv σ → dict_get c (clients σ) = Some (username, a) →
  clients σ' = dict_pop c (clients σ) →
  username_to_conn σ' = delete username (username_to_conn σ) →
  registry_inv σ'.
Proof.
  unfold registry_inv. intros (Hnd & Hcu & Huc) Hc -> ->. split; [|split].
  - eapply sublist_NoDup; [done|apply dict_keys_pop].
  - intros c' u' a' Hc'.
    destruct (decide (c' = c)) as [->|Hne]; [by rewrite dict_get_pop_eq in Hc'|].
    rewrite dict_get_pop_ne in Hc' by done.
    destruct (decide (u' = username)) as [->|Hneu].
    + pose proof (Hcu _ _ _ Hc) as E1. pose proof (Hcu _ _ _ Hc') as E2. congruence.
    + rewrite lookup_delete_ne by done. by eapply Hcu.
  - intros u' c' Hu'.
    destruct (decide (u' = username)) as [->|Hneu]; [by rewrite lookup_delete_eq in Hu'|].
    rewrite lookup_delete_ne in Hu' by done.
    destruct (Huc _ _ Hu') as [a' Ha'].
    exists a'. rewrite dict_get_pop_ne; [done|]. intros ->. congruence.
Qed.

Lemma inv_register (σ σ' : server) c username a :
  registry_inv σ → dict_get c (clients σ) = None →
  username_to_conn σ !! username = None →
  clients σ' = dict_set c (username, a) (clients σ) →
  username_to_conn σ' = <[username := c]> (username_to_conn σ) →
  registry_inv σ'.
Proof.
  unfold registry_inv. intros (Hnd & Hcu & Huc) Hc Hu -> ->. split; [|split].
  - rewrite dict_set_fresh by done. unfold dict_keys. rewrite fmap_app. simpl.
    apply NoDup_app. split; [done|]. split; [|apply NoDup_singleton].
    intros x Hx ->%list_elem_of_singleton. by apply dict_get_None in Hc.
  - intros c' u' a'. destruct (decide (c' = c)) as [->|Hne].
    + rewrite dict_get_set_eq. intros [= <- <-]. apply lookup_insert_eq.
    + rewrite dict_get_set_ne by done. intros Hc'.
      pose proof (Hcu _ _ _ Hc') as E. rewrite lookup_insert_ne; [done|].
      intros <-. congruence.
  - intros u' c'. destruct (decide (u' = username)) as [->|Hneu].
    + rewrite lookup_insert_eq. intros [= <-]. exists a. apply dict_get_set_eq.
    + rewrite lookup_insert_ne by done. intros Hu'.
      destruct (Huc _ _ Hu') as [a' Ha']. exists a'.
      rewrite dict_get_set_ne; [done|]. intros <-. congruence.
Qed.

Lemma inv_unique (σ : server) : registry_inv σ → usernames_unique σ.
Proof.
  intros (_ & Hcu & _) c1 c2 username a1 a2 H1 H2.
  pose proof (Hcu _ _ _ H1). pose proof (Hcu _ _ _ H2). congruence.
Qed.

Lemma inv_removal_effect (σ σ' : server) c :
  registry_inv σ →
  (same_registry σ σ' ∧ trace σ' = trace σ ∧ lock_held σ' = lock_held σ ∧
   (lock_held σ = true ∨ dict_get c (clients σ) = None)) ∨
  (∃ username a,
     lock_held σ = false ∧ dict_get c (clients σ) = Some (username, a) ∧
     clients σ' = dict_pop c (clients σ) ∧
     username_to_conn σ' = delete username (username_to_conn σ) ∧
     trace σ' = trace σ ∧ lock_held σ' = true) →
  registry_inv σ'.
Proof.
  intros Hinv [(Hsame & _)|(username & a & _ & Hc & Hc' & Hu' & _)].
  - by eapply inv_same.
  - by eapply inv_remove.
Qed.

(** Every call of a server thread preserves the invariant. *)
Lemma run_op_inv (op : registry_op) (σ : server) :
  registry_inv σ → op_allowed op σ → registry_inv (run_op op σ).
Proof.
  intros Hinv Hallowed. destruct op as [r|fails c|fails c|fails message sender_conn
                                       |fails c username data]; simpl in *.
  - pose proof (handle_join_effect (req_fails r) (req_conn r) (req_host r)
                  (req_data r) σ Hallowed) as Heff.
    destruct (handle_join _ _ _ _ σ) as [result σ'|σ'|σ'|]; simpl; try done.
    + destruct result as [username| | |].
      * destruct Heff as [(port & _ & _ & Hnone & Hc & Hu) _].
        by eapply inv_register.
      * destruct Heff as (Hsame & _). by eapply inv_same.
      * destruct Heff as (Hsame & _). by eapply inv_same.
      * destruct Heff as (Hsame & _). by eapply inv_same.
    + destruct Heff as [_ [Hsame|(username & port & _ & _ & Hnone & Hc & Hu)]].
      * by eapply inv_same.
      * by eapply inv_register.
  - eapply inv_removal_effect; [done|]. apply handle_disconnect_effect.
  - eapply inv_removal_effect; [done|]. apply remove_client_effect.
  - pose proof (broadcast_effect fails message sender_conn σ) as Heff.
    destruct (broadcast _ _ _ σ) as [[] σ'|σ'|σ'|]; simpl; try done;
      destruct Heff as [Hsame _]; by eapply inv_same.
  - pose proof (handle_tcp_binary_same fails c username data σ) as Heff.
    destruct (handle_tcp_binary _ _ _ _ σ) as [[] σ'|σ'|σ'|]; simpl; try done;
      by eapply inv_same.
Qed.

Lemma reachable_inv (σ : server) : reachable σ → registry_inv σ.
Proof.
  induction 1 as [|op σ Hreach IH Hallowed]; [apply inv_init|].
  by apply run_op_inv.
Qed.

(** A second [remove_client] for the same connection changes nothing. *)
Lemma remove_client_twice fails fails' c (σ : server) :
  let σ1 := state_after (remove_client fails c σ) σ in
  let σ2 := state_after (remove_client fails' c σ1) σ1 in
  clients σ2 = clients σ1 ∧ username_to_conn σ2 = username_to_conn σ1 ∧
  trace σ2 = trace σ1.
Proof.
  intros σ1 σ2.
  destruct (remove_client_effect fails' c σ1)
    as [((Hc & Hu & _) & Ht & _)|(u2 & a2 & Hl2 & Hc2 & _)]; [done|].
  exfalso. subst σ1.
  destruct (remove_client_effect fails c σ)
    as [((Hc & Hu & _) & Ht & Hl & [Hheld|Habsent])|(u & a & Hl & Hc & Hc' & _ & _ & Hl')].
  - congruence.
  - rewrite Hc in Hc2. congruence.
  - congruence.
Qed.
End Join_facts.

(** C5.  In every state the server can reach by registrations, by
    [remove_client] (called directly, from the [finally] clause, or for a
    failed write in [broadcast] and [handle_tcp_binary]) and by
    broadcasts, whether those calls have returned or not, [clients] has
    one entry per connection, a session is in [clients] exactly when its
    username maps to its connection in [username_to_conn], and usernames
    are unique among the sessions.  A second [remove_client] for a
    connection changes neither map and writes nothing. *)
Theorem registry_invariant `{Codec} :
  (∀ σ : server, reachable σ → registry_inv σ ∧ usernames_unique σ) ∧
  (∀ (op : registry_op) (σ : server),
     registry_inv σ → op_allowed op σ → registry_inv (run_op op σ)) ∧
  (∀ (fails fails' : nat → bool) (c : nat) (σ : server),
     let σ1 := state_after (remove_client fails c σ) σ in
     let σ2 := state_after (remove_client fails' c σ1) σ1 in
     clients σ2 = clients σ1 ∧ username_to_conn σ2 = username_to_conn σ1 ∧
     trace σ2 = trace σ1).
Proof.
  split; [|split].
  - intros σ Hreach. pose proof (reachable_inv σ Hreach) as Hinv.
    split; [done|]. by apply inv_unique.
  - apply run_op_inv.
  - apply remove_client_twice.
Qed.

(** C5 at a concrete run: two clients join, a broadcast meets a failed
    write, and the first client is removed. *)
Lemma registry_invariant_witness :
  let ops :=
    [OpJoin {| req_fails := (λ _, false); req_conn := 1%nat; req_host := str_of "h1";
               req_data := bytes_of "JOIN:ann:7000" |};
     OpJoin {| req_fails := (λ _, false); req_conn := 2%nat; req_host := str_of "h2";
               req_data := bytes_of "JOIN:bob:7001" |};
     OpRemove (λ _, false) 1%nat] in
  let σ := foldl (λ σ op, run_op op σ) server_init ops in
  reachable σ ∧ registry_inv σ ∧ usernames_unique σ ∧
  dict_keys (clients σ) = [2%nat] ∧
  username_to_conn σ = {[ str_of "bob" := 2%nat ]}.
Proof.
  intros ops σ.
  assert (reachable σ) as Hreach.
  { subst σ ops. cbn [foldl].
    repeat (apply reachable_step; [|first [exact I|vm_compute; reflexivity]]).
    apply reachable_init. }
  destruct (registry_invariant (H := ascii_codec)) as (Hinv & _ & _).
  destruct (Hinv σ Hreach) as [H1 H2].
  split; [done|]. split; [done|]. split; [done|].
  split; vm_compute; reflexivity.
Defined.

Section Join_counts.
Context `{Codec}.

Lemma handle_joins_count (requests : list join_request) (σ σ' : server)
    (results : list join_result) :
  NoDup (req_conn <$> requests) →
  (∀ r, r ∈ requests → dict_get (req_conn r) (clients σ) = None) →
  handle_joins requests σ = Some (σ', results) →
  length (clients σ') = (length (clients σ) + length (filter is_joined results))%nat ∧
  size (username_to_conn σ') =
    (size (username_to_conn σ) + length (filter is_joined results))%nat ∧
  (lock_held σ = false → lock_held σ' = false).
Proof.
  revert σ results. induction requests as [|r requests IH]; intros σ results Hnd Hfresh; simpl.
  { intros [= <- <-]. simpl. split; [lia|]. split; [lia|done]. }
  apply NoDup_cons in Hnd as [Hr Hnd].
  pose proof (handle_join_effect (req_fails r) (req_conn r) (req_host r) (req_data r) σ
                (Hfresh r ltac:(left))) as Heff.
  destruct (handle_join _ _ _ _ σ) as [result σ1|σ1|σ1|]; try done.
  destruct (handle_joins requests σ1) as [[final rs]|] eqn:Hrest; simpl; [|done].
  intros [= <- <-].
  assert (∀ r', r' ∈ requests → req_conn r' ≠ req_conn r) as Hother.
  { intros r' Hr' E. apply Hr. rewrite <- E. by apply list_elem_of_fmap_2. }
  destruct result as [username| | |].
  - destruct Heff as [(port & _ & Hl & Hnone & Hc & Hu) Hl1].
    destruct (IH σ1 rs Hnd) as (Hlen & Hsize & Hlock); [|done|].
    { intros r' Hr'. rewrite Hc, dict_get_set_ne by (by apply not_eq_sym, Hother).
      apply Hfresh. by right. }
    rewrite Hlen, Hsize, Hc, Hu. rewrite dict_set_fresh by (apply Hfresh; left).
    rewrite length_app, map_size_insert_None by done.
    rewrite filter_cons_True by done. simpl. split; [lia|]. split; [lia|]. auto.
  - destruct Heff as ((Hc & Hu & _) & Hl & _).
    destruct (IH σ1 rs Hnd) as (Hlen & Hsize & Hlock); [|done|].
    { intros r' Hr'. rewrite Hc. apply Hfresh. by right. }
    rewrite Hlen, Hsize, Hc, Hu. rewrite filter_cons_False by (simpl; intros []).
    split; [done|]. split; [done|]. intros Hf. apply Hlock. congruence.
  - destruct Heff as ((Hc & Hu & _) & Hl & _).
    destruct (IH σ1 rs Hnd) as (Hlen & Hsize & Hlock); [|done|].
    { intros r' Hr'. rewrite Hc. apply Hfresh. by right. }
    rewrite Hlen, Hsize, Hc, Hu. rewrite filter_cons_False by (simpl; intros []).
    split; [done|]. split; [done|]. intros Hf. apply Hlock. congruence.
  - destruct Heff as ((Hc & Hu & _) & Hl & _).
    destruct (IH σ1 rs Hnd) as (Hlen & Hsize & Hlock); [|done|].
    { intros r' Hr'. rewrite Hc. apply Hfresh. by right. }
    rewrite Hlen, Hsize, Hc, Hu. rewrite filter_cons_False by (simpl; intros []).
    split; [done|]. split; [done|]. intros Hf. apply Hlock. congruence.
Qed.

(** The connections registered after a run are among those handled. *)
Lemma handle_joins_clients (requests : list join_request) (σ σ' : server)
    (results : list join_result) :
  NoDup (req_conn <$> requests) →
  (∀ r, r ∈ requests → dict_get (req_conn r) (clients σ) = None) →
  handle_joins requests σ = Some (σ', results) →
  ∀ c, c ∉ (req_conn <$> requests) → dict_get c (clients σ) = None →
       dict_get c (clients σ') = None.
Proof.
  revert σ results. induction requests as [|r requests IH]; intros σ results Hnd Hfresh; simpl.
  { by intros [= <- <-]. }
  apply NoDup_cons in Hnd as [Hr Hnd].
  pose proof (handle_join_effect (req_fails r) (req_conn r) (req_host r) (req_data r) σ
                (Hfresh r ltac:(left))) as Heff.
  destruct (handle_join _ _ _ _ σ) as [result σ1|σ1|σ1|]; try done.
  destruct (handle_joins requests σ1) as [[final rs]|] eqn:Hrest; simpl; [|done].
  intros [= <- <-] c Hc Hnone. apply not_elem_of_cons in Hc as [Hc1 Hc2].
  assert (∀ r', r' ∈ requests → req_conn r' ≠ req_conn r) as Hother.
  { intros r' Hr' E. apply Hr. rewrite <- E. by apply list_elem_of_fmap_2. }
  assert (∀ c', c' ≠ req_conn r → dict_get c' (clients σ) = None →
                dict_get c' (clients σ1) = None) as Hkeep.
  { intros c' Hc' Hn. destruct result as [username| | |].
    - destruct Heff as [(port & _ & _ & _ & Hcl & _) _].
      rewrite Hcl, dict_get_set_ne; done.
    - destruct Heff as ((Hcl & _) & _). by rewrite Hcl.
    - destruct Heff as ((Hcl & _) & _). by rewrite Hcl.
    - destruct Heff as ((Hcl & _) & _). by rewrite Hcl. }
  eapply (IH σ1 rs Hnd); [|done|done|by apply Hkeep].
  intros r' Hr'. apply Hkeep; [by apply Hother|]. apply Hfresh. by right.
Qed.

(** When every write succeeds, every handler returns. *)
Lemma handle_join_returns fails c host data (σ : server) :
  (∀ c', fails c' = false) → lock_held σ = false →
  dict_get c (clients σ) = None →
  ∃ result σ', handle_join fails c host data σ = Done result σ'.
Proof.
  intros Hok Hl Hfresh.
  pose proof (handle_join_effect fails c host data σ Hfresh) as Heff.
  destruct (handle_join fails c host data σ) as [result σ'|σ'|σ'|] eqn:E;
    [by eauto|done| |done].
  exfalso. revert E. unfold handle_join, bind at 1, catch.
  destruct (parse_join data) as [username port| |].
  - unfold bind at 1.
    pose proof (register_effect fails c username (host, port) σ) as Hreg.
    destruct (register fails c username (host, port) σ) as [[|] σ1|σ1|σ1|]; try done.
    + destruct Hreg as (_ & _ & ->). unfold bind at 1.
      match goal with
      | |- context [broadcast ?f ?m ?s ?σ0] =>
          destruct (broadcast_returns f m s σ0 Hok eq_refl) as [σ2 ->]
      end.
      done.
    + destruct Hreg as (_ & _ & _ & ->). simpl.
      unfold bind, handle_disconnect. simpl. rewrite Hfresh.
      by rewrite decide_False by (by intros [? ?]).
    + destruct Hreg as (_ & _ & Hf & _). by rewrite Hok in Hf.
    + destruct Hreg as [Hl' _]. congruence.
  - unfold bind, close, modify, handle_disconnect. simpl. rewrite Hfresh.
    by rewrite decide_False by (by intros [? ?]).
  - unfold throw, bind, handle_disconnect. simpl. rewrite Hfresh.
    by rewrite decide_False by (by intros [? ?]).
Qed.

Lemma handle_joins_returns (requests : list join_request) (σ : server) :
  NoDup (req_conn <$> requests) →
  (∀ r, r ∈ requests → dict_get (req_conn r) (clients σ) = None) →
  (∀ r, r ∈ requests → ∀ c, req_fails r c = false) →
  lock_held σ = false →
  ∃ σ' results, handle_joins requests σ = Some (σ', results).
Proof.
  revert σ. induction requests as [|r requests IH]; intros σ Hnd Hfresh Hok Hl; simpl.
  { by eexists _, _. }
  apply NoDup_cons in Hnd as [Hr Hnd].
  destruct (handle_join_returns (req_fails r) (req_conn r) (req_host r) (req_data r) σ
              (Hok r ltac:(left)) Hl (Hfresh r ltac:(left))) as (result & σ1 & E).
  pose proof (handle_join_effect (req_fails r) (req_conn r) (req_host r) (req_data r) σ
                (Hfresh r ltac:(left))) as Heff.
  rewrite E in Heff |- *.
  assert (∀ r', r' ∈ requests → req_conn r' ≠ req_conn r) as Hother.
  { intros r' Hr' E'. apply Hr. rewrite <- E'. by apply list_elem_of_fmap_2. }
  destruct (IH σ1 Hnd) as (σ' & results & ->); [| | |].
  - intros r' Hr'. destruct result as [username| | |].
    + destruct Heff as [(port & _ & _ & _ & Hcl & _) _].
      rewrite Hcl, dict_get_set_ne by (by apply not_eq_sym, Hother).
      apply Hfresh. by right.
    + destruct Heff as ((Hcl & _) & _). rewrite Hcl. apply Hfresh. by right.
    + destruct Heff as ((Hcl & _) & _). rewrite Hcl. apply Hfresh. by right.
    + destruct Heff as ((Hcl & _) & _). rewrite Hcl. apply Hfresh. by right.
  - intros r' Hr'. apply Hok. by right.
  - destruct result as [username| | |].
    + by destruct Heff as [_ ?].
    + destruct Heff as (_ & Hl1 & _). congruence.
    + destruct Heff as (_ & Hl1 & _). congruence.
    + destruct Heff as (_ & Hl1 & _). congruence.
  - simpl. by eexists _, _.
Qed.

(** Requests for pairwise distinct usernames, none of them registered
    yet, are never answered with USERNAME_TAKEN. *)
Lemma handle_joins_distinct (requests : list join_request) (σ σ' : server)
    (results : list join_result) :
  NoDup (req_conn <$> requests) →
  (∀ r, r ∈ requests → dict_get (req_conn r) (clients σ) = None) →
  NoDup (join_usernames requests) →
  (∀ username, username ∈ join_usernames requests →
               username_to_conn σ !! username = None) →
  handle_joins requests σ = Some (σ', results) →
  UsernameTaken ∉ results.
Proof.
  revert σ results. induction requests as [|r requests IH];
    intros σ results Hnd Hfresh Hnames Hfree; simpl.
  { intros [= <- <-]. apply not_elem_of_nil. }
  apply NoDup_cons in Hnd as [Hr Hnd].
  pose proof (handle_join_effect (req_fails r) (req_conn r) (req_host r) (req_data r) σ
                (Hfresh r ltac:(left))) as Heff.
  destruct (handle_join _ _ _ _ σ) as [result σ1|σ1|σ1|]; try done.
  destruct (handle_joins requests σ1) as [[final rs]|] eqn:Hrest; simpl; [|done].
  intros [= <- <-].
  assert (∀ r', r' ∈ requests → req_conn r' ≠ req_conn r) as Hother.
  { intros r' Hr' E. apply Hr. rewrite <- E. by apply list_elem_of_fmap_2. }
  unfold join_usernames in Hnames, Hfree. simpl in Hnames, Hfree.
  apply not_elem_of_cons. split.
  - intros <-. destruct Heff as (_ & _ & Htaken).
    destruct (Htaken eq_refl) as (username & port & Hparse & Hsome).
    rewrite Hparse in Hfree. simpl in Hfree.
    rewrite (Hfree username ltac:(left)) in Hsome. by destruct Hsome.
  - destruct result as [username| | |].
    + destruct Heff as [(port & Hparse & _ & _ & Hcl & Hu) _].
      rewrite Hparse in Hnames, Hfree. simpl in Hnames, Hfree.
      apply NoDup_cons in Hnames as [Hnew Hnames].
      eapply (IH σ1 rs Hnd); [|done| |done].
      * intros r' Hr'. rewrite Hcl, dict_get_set_ne by (by apply not_eq_sym, Hother).
        apply Hfresh. by right.
      * intros u Hu'. rewrite Hu, lookup_insert_ne by (intros <-; done).
        apply Hfree. by right.
    + destruct Heff as ((Hcl & Hu & _) & _).
      eapply (IH σ1 rs Hnd); [| | |done].
      * intros r' Hr'. rewrite Hcl. apply Hfresh. by right.
      * destruct (parse_join (req_data r)); simpl in Hnames; [|done..].
        by apply NoDup_cons in Hnames as [_ ?].
      * intros u Hu'. rewrite Hu. apply Hfree.
        destruct (parse_join (req_data r)); simpl; [by right|done..].
    + destruct Heff as ((Hcl & Hu & _) & _).
      eapply (IH σ1 rs Hnd); [| | |done].
      * intros r' Hr'. rewrite Hcl. apply Hfresh. by right.
      * destruct (parse_join (req_data r)); simpl in Hnames; [|done..].
        by apply NoDup_cons in Hnames as [_ ?].
      * intros u Hu'. rewrite Hu. apply Hfree.
        destruct (parse_join (req_data r)); simpl; [by right|done..].
    + destruct Heff as ((Hcl & Hu & _) & _).
      eapply (IH σ1 rs Hnd); [| | |done].
      * intros r' Hr'. rewrite Hcl. apply Hfresh. by right.
      * destruct (parse_join (req_data r)); simpl in Hnames; [|done..].
        by apply NoDup_cons in Hnames as [_ ?].
      * intros u Hu'. rewrite Hu. apply Hfree.
        destruct (parse_join (req_data r)); simpl; [by right|done..].
Qed.

(** A JOIN for a registered username on a new connection that can be
    written to, with the lock free. *)
Lemma handle_join_taken fails c host data username port (σ : server) :
  lock_held σ = false → dict_get c (clients σ) = None →
  parse_join data = JoinRequest username port →
  is_Some (username_to_conn σ !! username) → fails c = false →
  ∃ σ', handle_join fails c host data σ = Done UsernameTaken σ' ∧
        trace σ' = trace σ ++ [SendBytes c (bytes_of "ERROR:USERNAME_TAKEN" ++ [newline]);
                               Close c] ∧
        clients σ' = clients σ ∧ username_to_conn σ' = username_to_conn σ ∧
        lock_held σ' = false.
Proof.
  intros Hl Hfresh Hparse Htaken Hf.
  unfold handle_join, bind at 1, catch. rewrite Hparse. unfold bind at 1.
  pose proof (register_effect fails c username (host, port) σ) as Hreg.
  destruct (register fails c username (host, port) σ) as [[|] σ1|σ1|σ1|]; try done.
  - destruct Hreg as (_ & Hnone & _). rewrite Hnone in Htaken. by destruct Htaken.
  - destruct Hreg as (_ & _ & _ & ->). simpl.
    unfold bind, handle_disconnect. simpl. rewrite Hfresh.
    rewrite decide_False by (by intros [? ?]). simpl.
    eexists. split; [done|]. simpl. by rewrite <- app_assoc.
  - destruct Hreg as (_ & _ & Hf' & _). congruence.
  - destruct Hreg as [Hl' _]. congruence.
Qed.
End Join_counts.

(** C4.  A JOIN for a username that is registered, arriving on a new
    connection while the lock is free and the connection can be written
    to, is answered with ERROR:USERNAME_TAKEN, the connection is closed,
    and both maps stay as they are.  After any sequence of first messages
    handled on distinct new connections from the empty registry, both
    maps hold as many entries as there were successful joins; if the
    requested usernames are pairwise distinct, none is refused as taken;
    and when every write succeeds, every handler returns. *)
Theorem join_conflict_and_count `{Codec} :
  (∀ (fails : nat → bool) (c : nat) (host : str) (data : bytes) (username : str)
     (port : Z) (σ : server),
     lock_held σ = false → dict_get c (clients σ) = None →
     parse_join data = JoinRequest username port →
     is_Some (username_to_conn σ !! username) → fails c = false →
     ∃ σ', handle_join fails c host data σ = Done UsernameTaken σ' ∧
           trace σ' =
             trace σ ++ [SendBytes c (bytes_of "ERROR:USERNAME_TAKEN" ++ [newline]);
                         Close c] ∧
           clients σ' = clients σ ∧ username_to_conn σ' = username_to_conn σ) ∧
  (∀ (requests : list join_request) (σ : server) (results : list join_result),
     NoDup (req_conn <$> requests) →
     handle_joins requests server_init = Some (σ, results) →
     length (clients σ) = length (filter is_joined results) ∧
     size (username_to_conn σ) = length (filter is_joined results)) ∧
  (∀ (requests : list join_request) (σ : server) (results : list join_result),
     NoDup (req_conn <$> requests) → NoDup (join_usernames requests) →
     handle_joins requests server_init = Some (σ, results) →
     UsernameTaken ∉ results) ∧
  (∀ requests : list join_request,
     NoDup (req_conn <$> requests) →
     (∀ r, r ∈ requests → ∀ c, req_fails r c = false) →
     ∃ σ results, handle_joins requests server_init = Some (σ, results)).
Proof.
  split; [|split; [|split]].
  - intros fails c host data username port σ Hl Hfresh Hparse Htaken Hf.
    destruct (handle_join_taken fails c host data username port σ Hl Hfresh Hparse Htaken Hf)
      as (σ' & Hrun & Htr & Hc & Hu & _).
    by exists σ'.
  - intros requests σ results Hnd Hrun.
    destruct (handle_joins_count requests server_init σ results Hnd) as (Hlen & Hsize & _);
      [done|done|]. rewrite Hlen, Hsize. unfold server_init. simpl.
    by rewrite map_size_empty.
  - intros requests σ results Hnd Hnames Hrun.
    by apply (handle_joins_distinct requests server_init σ results).
  - intros requests Hnd Hok.
    by apply handle_joins_returns.
Qed.

(** C4 at a concrete run: ann and bob join, then a third connection asks
    for ann again. *)
Lemma join_conflict_and_count_witness :
  let requests :=
    [{| req_fails := (λ _, false); req_conn := 1%nat; req_host := str_of "h1";
        req_data := bytes_of "JOIN:ann:7000" |};
     {| req_fails := (λ _, false); req_conn := 2%nat; req_host := str_of "h2";
        req_data := bytes_of "JOIN:bob:7001" |}] in
  ∃ σ results,
    handle_joins requests server_init = Some (σ, results) ∧
    results = [Joined (str_of "ann"); Joined (str_of "bob")] ∧
    length (clients σ) = 2%nat ∧ size (username_to_conn σ) = 2%nat ∧
    (UsernameTaken ∉ results) ∧
    (∃ σ', handle_join (λ _, false) 3%nat (str_of "h3") (bytes_of "JOIN:ann:7002") σ =
             Done UsernameTaken σ' ∧
           clients σ' = clients σ ∧ username_to_conn σ' = username_to_conn σ).
Proof.
  intros requests.
  destruct (join_conflict_and_count (H := ascii_codec)) as (Htaken & Hcount & Hdistinct & Hreturns).
  assert (NoDup (req_conn <$> requests)) as Hnd by decide_by_compute.
  assert (NoDup (join_usernames requests)) as Hnames by decide_by_compute.
  destruct (Hreturns requests Hnd) as (σ & results & Hrun).
  { intros r Hr c. repeat (apply elem_of_cons in Hr as [->|Hr]; [reflexivity|]).
    by apply elem_of_nil in Hr. }
  pose proof Hrun as Hval. vm_compute in Hval. injection Hval as <- <-.
  eexists _, _. split; [exact Hrun|].
  destruct (Hcount requests _ _ Hnd Hrun) as [Hlen Hsize].
  split; [reflexivity|]. split; [exact Hlen|]. split; [exact Hsize|].
  split; [exact (Hdistinct requests _ _ Hnd Hnames Hrun)|].
  match goal with
  | |- context [handle_join _ _ _ _ ?σ0] =>
      destruct (Htaken (λ _, false) 3%nat (str_of "h3") (bytes_of "JOIN:ann:7002")
                  (str_of "ann") 7002 σ0) as (σ' & Hrun3 & _ & Hc & Hu);
        [vm_compute; reflexivity|vm_compute; reflexivity|vm_compute; reflexivity
        |vm_compute; eexists; reflexivity|reflexivity|]
  end.
  exists σ'. split; [exact Hrun3|]. split; [exact Hc|exact Hu].
Defined.

(** ** Raw mode on the receiving client *)

(** C6 fails on the code.  FILE_INCOMING announces ten bytes and the ten
    bytes arrive in the same chunk as the announcement: the inner loop
    goes on parsing the buffer, dispatches the file's bytes as a SYSTEM
    command, and the file worker receives nothing.  When the chunk ends
    with the announcement, the same ten bytes reach the worker. *)
Theorem raw_mode_skips_buffered_bytes :
  let announcement := bytes_of "FILE_INCOMING:bob:f.txt:10" ++ [newline] in
  let content := bytes_of "SYSTEM:hi" ++ [newline] in
  len content = 10 ∧
  cli_session true client_init [announcement ++ content] =
    Some ([FileIncoming (str_of "bob") (str_of "f.txt") 10;
           MessageReceived (str_of "SYSTEM:hi")],
          {| receiver := {| buffer := []; is_receiving_file := true |};
             worker := Some {| filesize := 10; bytes_received := 0; file := [] |};
             saved := [] |}) ∧
  cli_session true client_init [announcement; content] =
    Some ([FileIncoming (str_of "bob") (str_of "f.txt") 10;
           FileDataReceived content],
          {| receiver := {| buffer := []; is_receiving_file := false |};
             worker := None;
             saved := [content] |}).
Proof. intros announcement content. repeat split; vm_compute; reflexivity. Qed.

(** ** The UDP relay *)

(** C7 fails on the code.  With ann and bob registered in this order and
    sends to ann's address failing, a datagram from a third address
    reaches nobody, bob included, and the listener leaves its loop, so
    the next datagram is not relayed either.  Without the failure both
    datagrams reach both clients and the listener keeps waiting. *)
Theorem udp_send_failure_stops_relay :
  let ann := (str_of "h1", 7000) in
  let bob := (str_of "h2", 7001) in
  let src := (str_of "h3", 7002) in
  let σ := set_clients (λ _, [(1%nat, (str_of "ann", ann)); (2%nat, (str_of "bob", bob))])
             server_init in
  let datagrams := [(bytes_of "v:cat:1:x", src); (bytes_of "v:cat:2:y", src)] in
  udp_forward (λ a, bool_decide (a = ann)) (bytes_of "v:cat:1:x") src σ = Throws σ ∧
  udp_listener (λ a, bool_decide (a = ann)) datagrams σ = Some (σ, Stopped) ∧
  udp_listener (λ _, false) datagrams σ =
    Some (foldl (λ σ' e, log_event e σ') σ
            [SendTo ann (bytes_of "v:cat:1:x"); SendTo bob (bytes_of "v:cat:1:x");
             SendTo ann (bytes_of "v:cat:2:y"); SendTo bob (bytes_of "v:cat:2:y")],
          Listening).
Proof. intros ann bob src σ datagrams. repeat split; vm_compute; reflexivity. Qed.

(** Whatever the registry holds, a send that raises ends the listener. *)
Lemma udp_listener_stops (send_fails : addr → bool) (data : bytes) (src : addr)
    (datagrams : list (bytes * addr)) (σ σ' : server) :
  running σ = true →
  udp_forward send_fails data src σ = Throws σ' →
  udp_listener send_fails ((data, src) :: datagrams) σ = Some (σ', Stopped).
Proof.
  intros Hrun Hthrow. simpl. rewrite Hrun, Hthrow.
  assert (running σ' = true) as ->; [|done].
  revert Hthrow. unfold udp_forward, with_lock. destruct (lock_held σ); [done|].
  assert (∀ (l : list (nat * (str * (str * Z)))) (σ0 σ1 : server),
            for_each l (λ '(_, (_, client_udp_addr)),
              if decide (client_udp_addr ≠ src)
              then if send_fails client_udp_addr then throw
                   else modify (log_event (SendTo client_udp_addr data))
              else ret ()) σ0 = Throws σ1 → running σ1 = running σ0) as Hfor.
  { induction l as [|[c [u a]] l IH]; intros σ0 σ1; simpl; [done|].
    unfold bind. destruct (decide (a ≠ src)).
    - destruct (send_fails a); simpl.
      + by intros [= <-].
      + intros E. by rewrite (IH _ _ E).
    - simpl. apply IH. }
  match goal with
  | |- context [for_each ?l ?f ?σ0] =>
      destruct (for_each l f σ0) as [[] σ1|σ1|σ1|] eqn:E; try done
  end.
  intros [= <-]. apply Hfor in E. simpl in *. congruence.
Qed.

(** * Further properties of the code *)

(** ** The lock, [remove_client] and [broadcast] *)

Lemma log_events_state (events : list srv_event) (σ : server) :
  let σ' := foldl (λ s e, log_event e s) σ events in
  trace σ' = trace σ ++ events ∧ clients σ' = clients σ ∧
  username_to_conn σ' = username_to_conn σ ∧ lock_held σ' = lock_held σ ∧
  running σ' = running σ.
Proof.
  revert σ. induction events as [|e events IH]; intros σ; simpl.
  - by rewrite app_nil_r.
  - destruct (IH (log_event e σ)) as (Ht & Hc & Hu & Hl & Hr).
    rewrite Ht, Hc, Hu, Hl, Hr. simpl. by rewrite <- app_assoc.
Qed.

(** The loop of [broadcast], run with the lock held: it writes to the
    recipients up to the first failure and, at a failure, stays in
    [remove_client]. *)
Lemma broadcast_loop_run fails message sender_conn (keys : list nat) (σ : server) :
  lock_held σ = true →
  let all := filter (λ c, Some c ≠ sender_conn) keys in
  let sent := reached fails all in
  let σ' := foldl (λ s e, log_event e s) σ ((λ c, SendText c message) <$> sent) in
  for_each keys (λ c,
    if decide (Some c ≠ sender_conn)
    then catch (sendall_text fails c message) (remove_client fails c)
    else ret ()) σ =
  if decide (sent = all) then Done () σ' else Blocks σ'.
Proof.
  revert σ. induction keys as [|c keys IH]; intros σ Hl; simpl.
  - done.
  - unfold bind. destruct (decide (Some c ≠ sender_conn)) as [Hc|Hc].
    + rewrite filter_cons_True by done. cbn [reached].
      unfold catch at 1, sendall_text at 1. destruct (fails c) eqn:Hf.
      * unfold throw, remove_client. rewrite remove_client_at_held by done.
        rewrite decide_False by done. done.
      * unfold modify at 1. rewrite (IH (log_event (SendText c message) σ)) by done.
        destruct (decide (reached fails (filter (λ c0, Some c0 ≠ sender_conn) keys) =
                          filter (λ c0, Some c0 ≠ sender_conn) keys)) as [E|E].
        -- rewrite decide_True by (by f_equal). done.
        -- rewrite decide_False by (intros [= ?]; done). done.
    + rewrite filter_cons_False by done. simpl. by apply IH.
Qed.

(** X1.  [remove_client] for a registered connection, called with the
    lock free, removes the session from both maps and then never
    returns: it waits in its first [broadcast] for the lock it holds
    itself.  Nothing is written (no USER_LEFT) and the socket is not
    closed. *)
Theorem remove_client_live_blocks (fails : conn → bool) (c : conn)
    (username : str) (a : addr) (σ : server) :
  lock_held σ = false →
  dict_get c (clients σ) = Some (username, a) →
  ∃ σ', remove_client fails c σ = Blocks σ' ∧
        clients σ' = dict_pop c (clients σ) ∧
        dict_get c (clients σ') = None ∧
        username_to_conn σ' = delete username (username_to_conn σ) ∧
        trace σ' = trace σ ∧ lock_held σ' = true.
Proof.
  intros Hl Hc. rewrite (remove_client_present fails c username a σ Hl Hc).
  eexists. split; [done|]. simpl. split; [done|].
  split; [apply dict_get_pop_eq|done].
Qed.

Lemma remove_client_live_blocks_witness :
  let σ := set_username_to_conn (<[str_of "ann" := 1%nat]>)
             (set_clients (λ _, [(1%nat, (str_of "ann", (str_of "h1", 7000)))])
                server_init) in
  (lock_held σ = false ∧
   dict_get 1%nat (clients σ) = Some (str_of "ann", (str_of "h1", 7000))) ∧
  ∃ σ', remove_client (λ _, false) 1%nat σ = Blocks σ' ∧
        clients σ' = [] ∧ trace σ' = [] ∧ lock_held σ' = true.
Proof.
  intros σ. split; [split; reflexivity|].
  destruct (remove_client_live_blocks (λ _, false) 1%nat (str_of "ann")
              (str_of "h1", 7000) σ eq_refl eq_refl)
    as (σ' & Hrun & Hc & _ & _ & Ht & Hl).
  exists σ'. split; [exact Hrun|]. split; [exact Hc|]. split; [exact Ht|exact Hl].
Defined.

(** X2.  While the lock is held, every entry point that takes it waits
    and changes nothing: [broadcast], [remove_client],
    [handle_tcp_binary], the registration of a well-formed JOIN (which
    gets no answer), the relay of a datagram (the listener is stuck and
    forwards nothing) and [stop] (after clearing [running]). *)
Theorem held_lock_blocks_callers `{Codec} (fails : conn → bool)
    (send_fails : addr → bool) (c : conn) (host username message : str)
    (port : Z) (sender_conn : option conn) (data : bytes) (src : addr)
    (datagrams : list (bytes * addr)) (σ : server) :
  lock_held σ = true →
  broadcast fails message sender_conn σ = Blocks σ ∧
  remove_client fails c σ = Blocks σ ∧
  handle_tcp_binary fails c username data σ = Blocks σ ∧
  (parse_join data = JoinRequest username port →
   handle_join fails c host data σ = Blocks σ) ∧
  udp_forward send_fails data src σ = Blocks σ ∧
  (running σ = true →
   udp_listener send_fails ((data, src) :: datagrams) σ = Some (σ, Stuck)) ∧
  stop σ = Blocks (set_running false σ).
Proof.
  intros Hl. repeat split.
  - unfold broadcast, broadcast_with. by apply with_lock_held.
  - unfold remove_client. by apply remove_client_at_held.
  - unfold handle_tcp_binary. by apply with_lock_held.
  - intros Hparse. unfold handle_join, bind at 1, catch. rewrite Hparse.
    unfold bind at 1, register. by rewrite with_lock_held.
  - unfold udp_forward. by apply with_lock_held.
  - intros Hrun. simpl. rewrite Hrun. unfold udp_forward.
    by rewrite with_lock_held.
  - unfold stop, bind, modify. by rewrite with_lock_held.
Qed.

Lemma held_lock_blocks_callers_witness :
  let σ := set_lock true server_init in
  lock_held σ = true ∧
  handle_join (λ _, false) 1%nat (str_of "h1") (bytes_of "JOIN:ann:7000") σ = Blocks σ ∧
  udp_listener (λ _, false) [(bytes_of "v:ann:1:x", (str_of "h1", 7000))] σ =
    Some (σ, Stuck).
Proof.
  intros σ. split; [reflexivity|].
  destruct (held_lock_blocks_callers (H := ascii_codec) (λ _, false) (λ _, false) 1%nat
              (str_of "h1") (str_of "ann") (str_of "") 7000 None
              (bytes_of "JOIN:ann:7000") (str_of "h1", 7000) [] σ eq_refl)
    as (_ & _ & _ & Hjoin & _).
  split; [apply Hjoin; reflexivity|].
  vm_compute. reflexivity.
Defined.

(** X3.  [broadcast], called with the lock free, writes the message to
    the registered connections other than the sender, in the order of
    [clients], up to the first connection whose write fails.  If none
    fails it returns with the lock released; otherwise it never returns
    and keeps the lock, and the connections after the failing one get
    nothing.  In both cases the registry is unchanged: the failing peer
    stays registered. *)
Theorem broadcast_reaches_until_failure (fails : conn → bool) (message : str)
    (sender_conn : option conn) (σ : server) :
  lock_held σ = false →
  ∃ σ',
    (if decide (reached fails (recipients sender_conn σ) = recipients sender_conn σ)
     then broadcast fails message sender_conn σ = Done () σ' ∧ lock_held σ' = false
     else broadcast fails message sender_conn σ = Blocks σ' ∧ lock_held σ' = true) ∧
    trace σ' = trace σ ++
               ((λ c, SendText c message) <$> reached fails (recipients sender_conn σ)) ∧
    clients σ' = clients σ ∧ username_to_conn σ' = username_to_conn σ.
Proof.
  intros Hl. unfold broadcast, broadcast_with, with_lock, recipients. rewrite Hl.
  rewrite (broadcast_loop_run fails message sender_conn _ (set_lock true σ) eq_refl).
  simpl.
  destruct (log_events_state
              ((λ c, SendText c message) <$>
                 reached fails (filter (λ c, Some c ≠ sender_conn) (dict_keys (clients σ))))
              (set_lock true σ)) as (Ht & Hc & Hu & Hlk & _).
  destruct (decide (reached fails (filter (λ c, Some c ≠ sender_conn)
                                      (dict_keys (clients σ))) =
                    filter (λ c, Some c ≠ sender_conn) (dict_keys (clients σ)))).
  - eexists. split; [split; [reflexivity|reflexivity]|]. simpl.
    rewrite Ht, Hc, Hu. done.
  - eexists. split; [split; [reflexivity|]|].
    + by rewrite Hlk.
    + rewrite Ht, Hc, Hu. done.
Qed.

Lemma broadcast_reaches_until_failure_witness :
  let σ := set_clients (λ _, [(1%nat, (str_of "ann", (str_of "h1", 7000)));
                              (2%nat, (str_of "bob", (str_of "h2", 7001)));
                              (3%nat, (str_of "cat", (str_of "h3", 7002)))])
             server_init in
  lock_held σ = false ∧
  ∃ σ', broadcast (λ c, bool_decide (c = 3%nat)) (str_of "hi") (Some 1%nat) σ = Blocks σ' ∧
        trace σ' = [SendText 2%nat (str_of "hi")] ∧ clients σ' = clients σ.
Proof.
  intros σ. split; [reflexivity|].
  destruct (broadcast_reaches_until_failure (λ c, bool_decide (c = 3%nat)) (str_of "hi")
              (Some 1%nat) σ eq_refl) as (σ' & Hrun & Ht & Hc & _).
  exists σ'. split; [|split; [exact Ht|exact Hc]].
  rewrite decide_False in Hrun by (vm_compute; discriminate).
  by destruct Hrun.
Defined.

(** ** The UDP relay and [stop] *)

Lemma udp_loop_run (send_fails : addr → bool) (data : bytes) (src : addr)
    (entries : list (nat * (str * (str * Z)))) (σ : server) :
  (∀ a, a ∈ filter (λ a, a ≠ src) ((λ entry, entry.2.2) <$> entries) →
        send_fails a = false) →
  for_each entries (λ '(_, (_, client_udp_addr)),
    if decide (client_udp_addr ≠ src) then
      if send_fails client_udp_addr then throw
      else modify (log_event (SendTo client_udp_addr data))
    else ret ()) σ =
  Done () (foldl (λ s e, log_event e s) σ
             ((λ a, SendTo a data) <$>
                filter (λ a, a ≠ src) ((λ entry, entry.2.2) <$> entries))).
Proof.
  revert σ. induction entries as [|[c [u a]] entries IH]; intros σ Hok; [done|].
  cbn [for_each fmap list_fmap]. unfold bind. simpl in Hok.
  destruct (decide (a ≠ src)) as [Ha|Ha].
  - rewrite filter_cons_True in Hok |- * by done.
    rewrite (Hok a) by left. unfold modify at 1. cbn [fmap list_fmap foldl].
    apply IH. intros a' Ha'. apply Hok. by right.
  - rewrite filter_cons_False in Hok |- * by done. unfold ret at 1. by apply IH.
Qed.

(** X4.  With the lock free and no failing send, one relay step forwards
    the datagram, unchanged, to the UDP address of every registered
    session whose address differs from the datagram's source, in the
    order of [clients]; it is never sent back to its source address, and
    the registry is left alone. *)
Theorem udp_forward_fans_out (send_fails : addr → bool) (data : bytes)
    (src : addr) (σ : server) :
  lock_held σ = false →
  (∀ a, a ∈ udp_destinations src σ → send_fails a = false) →
  ∃ σ', udp_forward send_fails data src σ = Done () σ' ∧
        trace σ' = trace σ ++ ((λ a, SendTo a data) <$> udp_destinations src σ) ∧
        (SendTo src data ∉ ((λ a, SendTo a data) <$> udp_destinations src σ)) ∧
        clients σ' = clients σ ∧ username_to_conn σ' = username_to_conn σ ∧
        lock_held σ' = false.
Proof.
  intros Hl Hok. unfold udp_forward, with_lock. rewrite Hl.
  rewrite (udp_loop_run send_fails data src (clients (set_lock true σ)) (set_lock true σ))
    by exact Hok.
  match goal with
  | |- context [foldl ?f ?s ?l] =>
      destruct (log_events_state l s) as (Ht & Hc & Hu & _)
  end.
  eexists. split; [reflexivity|].
  cbn [set_lock trace clients username_to_conn lock_held] in *.
  split; [exact Ht|]. split; [|by rewrite Hc, Hu].
  intros (a & [= <-] & Ha%list_elem_of_filter)%list_elem_of_fmap. by destruct Ha.
Qed.

Lemma udp_forward_fans_out_witness :
  let σ := set_clients (λ _, [(1%nat, (str_of "ann", (str_of "h1", 7000)));
                              (2%nat, (str_of "bob", (str_of "h2", 7001)));
                              (3%nat, (str_of "cat", (str_of "h3", 7002)))])
             server_init in
  lock_held σ = false ∧
  ∃ σ', udp_forward (λ _, false) (bytes_of "v:bob:1:x") (str_of "h2", 7001) σ = Done () σ' ∧
        trace σ' = [SendTo (str_of "h1", 7000) (bytes_of "v:bob:1:x");
                    SendTo (str_of "h3", 7002) (bytes_of "v:bob:1:x")].
Proof.
  intros σ. split; [reflexivity|].
  destruct (udp_forward_fans_out (λ _, false) (bytes_of "v:bob:1:x") (str_of "h2", 7001) σ
              eq_refl (λ _ _, eq_refl)) as (σ' & Hrun & Ht & _).
  exists σ'. split; [exact Hrun|]. rewrite Ht. vm_compute. reflexivity.
Defined.

Lemma close_loop_run (keys : list nat) (σ : server) :
  for_each keys close σ =
  Done () (foldl (λ s e, log_event e s) σ (Close <$> keys)).
Proof.
  revert σ. induction keys as [|c keys IH]; intros σ; [done|].
  cbn [for_each fmap list_fmap foldl]. unfold bind, close at 1, modify at 1. apply IH.
Qed.

(** X5.  [stop], called with the lock free, clears [running] and closes
    every registered connection in the order of [clients], without
    removing any session from the registry; a relay loop that then looks
    at [running] leaves without forwarding anything. *)
Theorem stop_closes_and_ends_relay (send_fails : addr → bool)
    (datagrams : list (bytes * addr)) (σ : server) :
  lock_held σ = false →
  ∃ σ', stop σ = Done () σ' ∧
        running σ' = false ∧
        trace σ' = trace σ ++ (Close <$> dict_keys (clients σ)) ∧
        clients σ' = clients σ ∧ username_to_conn σ' = username_to_conn σ ∧
        lock_held σ' = false ∧
        udp_listener send_fails datagrams σ' = Some (σ', Stopped).
Proof.
  intros Hl. unfold stop, bind, modify at 1, with_lock. simpl. rewrite Hl.
  rewrite close_loop_run.
  match goal with
  | |- context [foldl ?f ?s ?l] =>
      destruct (log_events_state l s) as (Ht & Hc & Hu & _ & Hr)
  end.
  eexists. split; [reflexivity|].
  cbn [set_lock set_running trace clients username_to_conn lock_held running] in *.
  split; [exact Hr|]. split; [exact Ht|]. split; [exact Hc|]. split; [exact Hu|].
  split; [done|].
  destruct datagrams as [|[d src] datagrams]; simpl; by rewrite Hr.
Qed.

Lemma stop_closes_and_ends_relay_witness :
  let σ := set_clients (λ _, [(1%nat, (str_of "ann", (str_of "h1", 7000)));
                              (2%nat, (str_of "bob", (str_of "h2", 7001)))])
             server_init in
  lock_held σ = false ∧
  ∃ σ', stop σ = Done () σ' ∧ trace σ' = [Close 1%nat; Close 2%nat] ∧
        udp_listener (λ _, false) [(bytes_of "v:ann:1:x", (str_of "h1", 7000))] σ' =
          Some (σ', Stopped).
Proof.
  intros σ. split; [reflexivity|].
  destruct (stop_closes_and_ends_relay (λ _, false)
              [(bytes_of "v:ann:1:x", (str_of "h1", 7000))] σ eq_refl)
    as (σ' & Hrun & _ & Ht & _ & _ & _ & Hudp).
  exists σ'. split; [exact Hrun|]. split; [exact Ht|exact Hudp].
Defined.

(** ** The dispatcher *)

Lemma split_max_two {A} `{EqDecision A} (sep : A) (x y z : list A) :
  sep ∉ x → sep ∉ y →
  split_max sep 2 (x ++ sep :: y ++ sep :: z) = [x; y; z].
Proof.
  intros Hx Hy. cbn [split_max]. rewrite partition_at_intro by done.
  by rewrite partition_at_intro by done.
Qed.

Lemma split_max_one {A} `{EqDecision A} (sep : A) (x y : list A) :
  sep ∉ x → split_max sep 1 (x ++ sep :: y) = [x; y].
Proof. intros Hx. cbn [split_max]. by rewrite partition_at_intro by done. Qed.

(** X6.  PING is answered to the sender alone with PONG and the same
    payload, without taking the lock, so also while the lock is held;
    when the write fails the exception leaves [handle_tcp_message]. *)
Theorem ping_is_echoed `{Codec} (fails : conn → bool) (c : conn)
    (username payload : str) (σ : server) :
  handle_tcp_message fails c username (str_of "PING") payload σ =
    if fails c then Throws σ
    else Done NoThread
           (log_event (SendText c (str_of "PONG:" ++ payload ++ [10%N])) σ).
Proof.
  unfold handle_tcp_message.
  rewrite decide_False by decide_by_compute. rewrite decide_True by done.
  unfold bind, sendall_text. by destruct (fails c).
Qed.

(** X7.  FILE_INIT starts a transfer exactly for a payload of the form
    target, filename, size, where target and filename hold no colon and
    the size is an integer: the thread gets these three values.  A
    payload with fewer than two colons, or with a size that is no
    integer, starts nothing; in no case does the dispatcher itself write
    to a socket or change the state. *)
Theorem file_init_dispatch `{Codec} (fails : conn → bool) (c : conn)
    (username target filename size_text : str) (σ : server) :
  58%N ∉ target → 58%N ∉ filename →
  handle_tcp_message fails c username (str_of "FILE_INIT")
    (target ++ 58%N :: filename ++ 58%N :: size_text) σ =
    Done (match int_of_str size_text with
          | Some size => FileTransferThread target filename size
          | None => NoThread
          end) σ ∧
  handle_tcp_message fails c username (str_of "FILE_INIT")
    (target ++ 58%N :: filename) σ = Done NoThread σ ∧
  handle_tcp_message fails c username (str_of "FILE_INIT") target σ = Done NoThread σ.
Proof.
  intros Ht Hf. unfold handle_tcp_message.
  rewrite !(decide_False (P := str_of "FILE_INIT" = str_of "MSG")) by decide_by_compute.
  rewrite !(decide_False (P := str_of "FILE_INIT" = str_of "PING")) by decide_by_compute.
  rewrite !(decide_False (P := str_of "FILE_INIT" = str_of "SCRN_START")) by decide_by_compute.
  rewrite !(decide_False (P := str_of "FILE_INIT" = str_of "SCRN_STOP")) by decide_by_compute.
  rewrite !decide_True by done.
  split; [|split].
  - rewrite split_max_two by done. by destruct (int_of_str size_text).
  - cbn [split_max]. rewrite partition_at_intro by done.
    apply partition_at_None in Hf. by rewrite Hf.
  - cbn [split_max]. apply partition_at_None in Ht. by rewrite Ht.
Qed.

Lemma file_init_dispatch_witness :
  ((58%N ∉ str_of "bob") ∧ (58%N ∉ str_of "notes.txt")) ∧
  handle_tcp_message (λ _, false) 1%nat (str_of "ann") (str_of "FILE_INIT")
    (str_of "bob:notes.txt:120") server_init =
    Done (FileTransferThread (str_of "bob") (str_of "notes.txt") 120) server_init ∧
  handle_tcp_message (λ _, false) 1%nat (str_of "ann") (str_of "FILE_INIT")
    (str_of "bob:notes.txt") server_init = Done NoThread server_init.
Proof.
  assert (58%N ∉ str_of "bob") as Hb by decide_by_compute.
  assert (58%N ∉ str_of "notes.txt") as Hn by decide_by_compute.
  split; [done|].
  destruct (file_init_dispatch (H := ascii_codec) (λ _, false) 1%nat (str_of "ann")
              (str_of "bob") (str_of "notes.txt") (str_of "120") server_init Hb Hn)
    as (H1 & H2 & _).
  split; [exact H1|exact H2].
Defined.

(** ** Transfers that do not start *)

(** X8.  [handle_file_transfer] relays nothing unless the target is
    registered and the FILE_INCOMING line can be written to it.  For an
    unknown target the sender is told so (a failure of that write is
    swallowed) and the call returns; for a target that cannot be written
    to the sender is told so, and if that write fails as well the
    exception leaves the thread.  Nothing is read from the sender's
    socket and the registry is unchanged. *)
Theorem file_transfer_aborts (fails : conn → bool) (sender_conn : conn)
    (sender_username target_username filename : str) (N : Z)
    (sender : list bytes) (σ : server) :
  (username_to_conn σ !! target_username = None →
   handle_file_transfer fails sender_conn sender_username target_username
     filename N sender σ =
   Done None
     (if fails sender_conn then σ
      else log_event (SendText sender_conn
                        (str_of "SYSTEM:User '" ++ target_username ++
                         str_of "' not found." ++ [10%N])) σ)) ∧
  (∀ receiver_conn,
     username_to_conn σ !! target_username = Some receiver_conn →
     fails receiver_conn = true →
     handle_file_transfer fails sender_conn sender_username target_username
       filename N sender σ =
     if fails sender_conn then Throws σ
     else Done None
            (log_event (SendText sender_conn
                          (str_of "SYSTEM:Could not reach '" ++ target_username ++
                           str_of "' for file transfer." ++ [10%N])) σ)).
Proof.
  split.
  - intros Hnone. unfold handle_file_transfer. rewrite Hnone.
    unfold bind, catch, sendall_text. by destruct (fails sender_conn).
  - intros receiver_conn Hsome Hf. unfold handle_file_transfer. rewrite Hsome.
    unfold bind at 1, catch, bind at 1, sendall_text. rewrite Hf.
    unfold throw at 1, bind. by destruct (fails sender_conn).
Qed.

Lemma file_transfer_aborts_witness :
  let σ := set_username_to_conn (<[str_of "bob" := 2%nat]>) server_init in
  (username_to_conn σ !! str_of "cat" = None ∧
   username_to_conn σ !! str_of "bob" = Some 2%nat) ∧
  handle_file_transfer (λ _, false) 1%nat (str_of "ann") (str_of "cat") (str_of "f.txt")
    5 [bytes_of "abcde"] σ =
    Done None (log_event (SendText 1%nat (str_of "SYSTEM:User 'cat' not found." ++ [10%N])) σ) ∧
  handle_file_transfer (λ c, bool_decide (c = 2%nat)) 1%nat (str_of "ann") (str_of "bob")
    (str_of "f.txt") 5 [bytes_of "abcde"] σ =
    Done None (log_event (SendText 1%nat
                 (str_of "SYSTEM:Could not reach 'bob' for file transfer." ++ [10%N])) σ).
Proof.
  intros σ.
  assert (username_to_conn σ !! str_of "cat" = None) as Hcat by (vm_compute; reflexivity).
  assert (username_to_conn σ !! str_of "bob" = Some 2%nat) as Hbob by (vm_compute; reflexivity).
  split; [done|]. split.
  - destruct (file_transfer_aborts (λ _, false) 1%nat (str_of "ann") (str_of "cat")
                (str_of "f.txt") 5 [bytes_of "abcde"] σ) as [H1 _].
    exact (H1 Hcat).
  - destruct (file_transfer_aborts (λ c, bool_decide (c = 2%nat)) 1%nat (str_of "ann")
                (str_of "bob") (str_of "f.txt") 5 [bytes_of "abcde"] σ) as [_ H2].
    exact (H2 2%nat Hbob eq_refl).
Defined.

(** ** Registration *)

Lemma split_max_no_sep {A} `{EqDecision A} (sep : A) (n : nat) (x : list A) :
  (length x ≤ n)%nat → Forall (λ part, sep ∉ part) (split_max sep n x).
Proof.
  revert x. induction n as [|n IH]; intros x Hlen; simpl.
  - destruct x; [|simpl in Hlen; lia]. repeat constructor. apply not_elem_of_nil.
  - destruct (partition_at sep x) as [[before after]|] eqn:E.
    + pose proof (partition_at_length _ _ _ _ E).
      apply partition_at_inv in E as [-> Hnot].
      constructor; [done|]. apply IH. lia.
    + repeat constructor. by apply partition_at_None.
Qed.

Section Join_more.
Context `{Codec}.

(** A username accepted by the parser of the first message holds no
    colon. *)
Lemma parse_join_no_colon (data : bytes) (username : str) (port : Z) :
  parse_join data = JoinRequest username port → 58%N ∉ username.
Proof.
  unfold parse_join. destruct (utf8_decode data) as [join_msg|]; [|done].
  pose proof (split_max_no_sep 58%N (length (strip join_msg)) (strip join_msg)
                ltac:(lia)) as Hparts.
  unfold split_all.
  destruct (split_max 58%N (length (strip join_msg)) (strip join_msg))
    as [|p0 [|u [|p2 [|? ?]]]]; try done.
  destruct (decide (p0 = str_of "JOIN")); [|done].
  destruct (int_of_str p2); [|done]. intros [= <- _].
  by apply Forall_cons in Hparts as [_ [? _]%Forall_cons].
Qed.

(** The usernames in the registry after a call were there before, or
    come from the JOIN that the call handled. *)
Lemma run_op_usernames (op : registry_op) (σ : server) (username : str) (c : nat) :
  op_allowed op σ →
  username_to_conn (run_op op σ) !! username = Some c →
  username_to_conn σ !! username = Some c ∨
  ∃ r port, op = OpJoin r ∧ parse_join (req_data r) = JoinRequest username port.
Proof.
  intros Hallowed. destruct op as [r|fails c0|fails c0|fails message sender_conn
                                  |fails c0 u data]; simpl in *.
  - pose proof (handle_join_effect (req_fails r) (req_conn r) (req_host r)
                  (req_data r) σ Hallowed) as Heff.
    destruct (handle_join _ _ _ _ σ) as [result σ'|σ'|σ'|]; simpl; try done.
    + destruct result as [u| | |].
      * destruct Heff as [(port & Hparse & _ & _ & _ & Hu) _]. rewrite Hu.
        destruct (decide (u = username)) as [->|Hne]; [by eauto|].
        rewrite lookup_insert_ne by done. by left.
      * destruct Heff as ((_ & Hu & _) & _). rewrite Hu. by left.
      * destruct Heff as ((_ & Hu & _) & _). rewrite Hu. by left.
      * destruct Heff as ((_ & Hu & _) & _). rewrite Hu. by left.
    + destruct Heff as [_ [(_ & Hu & _)|(u & port & Hparse & _ & _ & _ & Hu)]];
        rewrite Hu; [by left|].
      destruct (decide (u = username)) as [->|Hne]; [by eauto|].
      rewrite lookup_insert_ne by done. by left.
  - destruct (handle_disconnect_effect fails c0 σ)
      as [((_ & Hu & _) & _)|(u & a & _ & _ & _ & Hu & _)]; rewrite Hu; [by left|].
    intros Hd. left. destruct (decide (u = username)) as [->|Hne].
    + by rewrite lookup_delete_eq in Hd.
    + by rewrite lookup_delete_ne in Hd.
  - destruct (remove_client_effect fails c0 σ)
      as [((_ & Hu & _) & _)|(u & a & _ & _ & _ & Hu & _)]; rewrite Hu; [by left|].
    intros Hd. left. destruct (decide (u = username)) as [->|Hne].
    + by rewrite lookup_delete_eq in Hd.
    + by rewrite lookup_delete_ne in Hd.
  - pose proof (broadcast_effect fails message sender_conn σ) as Heff.
    destruct (broadcast _ _ _ σ) as [[] σ'|σ'|σ'|]; simpl; try done;
      destruct Heff as [(_ & Hu & _) _]; rewrite Hu; by left.
  - pose proof (handle_tcp_binary_same fails c0 u data σ) as Heff.
    destruct (handle_tcp_binary _ _ _ _ σ) as [[] σ'|σ'|σ'|]; simpl; try done;
      destruct Heff as (_ & Hu & _); rewrite Hu; by left.
Qed.

(** X9.  No registered username holds a colon, in any state the server
    can reach: the first message is split at every colon and must have
    exactly three fields.  (The framing of CHAT and of relayed SCRN
    frames, which put the username before a colon, relies on it.) *)
Theorem registered_usernames_have_no_colon (σ : server) (username : str) (c : conn) :
  reachable σ →
  username_to_conn σ !! username = Some c →
  (58%N ∉ username) ∧ (∃ a, dict_get c (clients σ) = Some (username, a)).
Proof.
  intros Hreach Hu. split.
  - revert username c Hu. induction Hreach as [|op σ Hreach IH Hallowed];
      intros username c Hu; [cbn in Hu; by rewrite lookup_empty in Hu|].
    destruct (run_op_usernames op σ username c Hallowed Hu)
      as [Hold|(r & port & _ & Hparse)].
    + by eapply IH.
    + by eapply parse_join_no_colon.
  - destruct (reachable_inv σ Hreach) as (_ & _ & Huc). by apply Huc.
Qed.
End Join_more.

Lemma registered_usernames_have_no_colon_witness :
  let σ := run_op (OpJoin {| req_fails := (λ _, false); req_conn := 1%nat;
                             req_host := str_of "h1";
                             req_data := bytes_of "JOIN:ann:7000" |}) server_init in
  (reachable σ ∧ username_to_conn σ !! str_of "ann" = Some 1%nat) ∧
  (58%N ∉ str_of "ann") ∧
  (∃ a, dict_get 1%nat (clients σ) = Some (str_of "ann", a)).
Proof.
  intros σ.
  assert (reachable σ) as Hreach.
  { apply reachable_step; [apply reachable_init|vm_compute; reflexivity]. }
  assert (username_to_conn σ !! str_of "ann" = Some 1%nat) as Hann
    by (vm_compute; reflexivity).
  split; [done|].
  exact (registered_usernames_have_no_colon (H := ascii_codec) σ (str_of "ann") 1%nat
           Hreach Hann).
Defined.

Lemma reached_all (fails : conn → bool) (l : list nat) :
  (∀ c, c ∈ l → fails c = false) → reached fails l = l.
Proof.
  induction l as [|c l IH]; intros Hok; simpl; [done|].
  rewrite (Hok c) by left. rewrite IH; [done|]. intros c' Hc'. apply Hok. by right.
Qed.

Lemma filter_others_fresh (c : nat) (l : list nat) :
  c ∉ l → filter (λ c', Some c' ≠ Some c) (l ++ [c]) = l.
Proof.
  intros Hc. rewrite filter_app, filter_cons_False, filter_nil, app_nil_r
    by (intros Hn; by apply Hn).
  induction l as [|c' l IH]; [done|].
  apply not_elem_of_cons in Hc as [Hne Hc].
  rewrite filter_cons_True by (intros [= ->]; done). by rewrite IH.
Qed.

Section Join_paths.
Context `{Codec}.

(** X10.  A well-formed JOIN for a free username, on a new connection,
    with the lock free and every other client reachable, registers the
    session at the end of [clients] under the host of the TCP peer and
    the announced port, maps the username to the connection, and tells
    every client registered before, but not the joiner, that the user
    has joined. *)
Theorem join_registers_and_announces (fails : conn → bool) (c : conn) (host : str)
    (data : bytes) (username : str) (port : Z) (σ : server) :
  lock_held σ = false → dict_get c (clients σ) = None →
  parse_join data = JoinRequest username port →
  username_to_conn σ !! username = None →
  (∀ c', c' ∈ dict_keys (clients σ) → fails c' = false) →
  ∃ σ', handle_join fails c host data σ = Done (Joined username) σ' ∧
        clients σ' = clients σ ++ [(c, (username, (host, port)))] ∧
        username_to_conn σ' = <[username := c]> (username_to_conn σ) ∧
        trace σ' =
          trace σ ++
          ((λ c', SendText c' (str_of "SYSTEM:" ++ username ++
                               str_of " has joined the chat." ++ [10%N])) <$>
             dict_keys (clients σ)) ∧
        lock_held σ' = false.
Proof.
  intros Hl Hfresh Hparse Hfree Hok.
  unfold handle_join, bind at 1, catch. rewrite Hparse.
  unfold bind at 1, register, with_lock at 1. rewrite Hl.
  cbn [set_lock username_to_conn]. rewrite Hfree.
  rewrite decide_False by (by intros [? ?]).
  unfold bind at 1, modify at 1, bind at 1, modify at 1, ret at 1.
  unfold bind at 1, broadcast, broadcast_with, with_lock.
  cbn [set_lock set_clients set_username_to_conn lock_held clients].
  rewrite broadcast_loop_run by done.
  rewrite dict_set_fresh by done.
  pose proof Hfresh as Hnotin. apply dict_get_None in Hnotin.
  unfold dict_keys in *. rewrite !fmap_app. cbn [fmap list_fmap fst].
  rewrite !filter_others_fresh by done.
  rewrite reached_all by done.
  rewrite decide_True by done.
  match goal with
  | |- context [foldl ?f ?s ?l] =>
      destruct (log_events_state l s) as (Ht & Hc & Hu & _)
  end.
  eexists. split; [reflexivity|].
  cbn [set_lock set_clients set_username_to_conn trace clients username_to_conn
       lock_held] in *.
  rewrite Ht, Hc, Hu.
  cbn [set_lock set_clients set_username_to_conn trace clients username_to_conn
       lock_held].
  by rewrite dict_set_fresh by done.
Qed.

(** X11.  On a new connection, a first message that is no JOIN with
    three fields gets the connection closed and nothing else; one that
    is not valid UTF-8, or whose port is no integer, is not answered and
    leaves the connection neither registered nor closed.  Neither takes
    the lock. *)
Theorem join_refusals (fails : conn → bool) (c : conn) (host : str) (data : bytes)
    (σ : server) :
  dict_get c (clients σ) = None →
  (parse_join data = JoinMalformed →
   handle_join fails c host data σ = Done NotJoin (log_event (Close c) σ)) ∧
  (parse_join data = JoinRaises →
   handle_join fails c host data σ = Done JoinError σ).
Proof.
  intros Hfresh. split; intros Hparse;
    unfold handle_join, bind at 1, catch; rewrite Hparse.
  - unfold bind, close, modify, handle_disconnect. simpl. rewrite Hfresh.
    by rewrite decide_False by (by intros [? ?]).
  - unfold throw, bind, handle_disconnect. simpl. rewrite Hfresh.
    by rewrite decide_False by (by intros [? ?]).
Qed.
End Join_paths.

Lemma join_registers_and_announces_witness :
  let σ := set_username_to_conn (<[str_of "ann" := 1%nat]>)
             (set_clients (λ _, [(1%nat, (str_of "ann", (str_of "h1", 7000)))])
                server_init) in
  ∃ σ', handle_join (λ _, false) 2%nat (str_of "h2") (bytes_of "JOIN:bob:7001") σ =
          Done (Joined (str_of "bob")) σ' ∧
        clients σ' = [(1%nat, (str_of "ann", (str_of "h1", 7000)));
                      (2%nat, (str_of "bob", (str_of "h2", 7001)))] ∧
        trace σ' = [SendText 1%nat (str_of "SYSTEM:bob has joined the chat." ++ [10%N])].
Proof.
  intros σ.
  destruct (join_registers_and_announces (H := ascii_codec) (λ _, false) 2%nat
              (str_of "h2") (bytes_of "JOIN:bob:7001") (str_of "bob") 7001 σ)
    as (σ' & Hrun & Hc & _ & Ht & _);
    [reflexivity|reflexivity|reflexivity|vm_compute; reflexivity|done|].
  exists σ'. split; [exact Hrun|]. split; [exact Hc|exact Ht].
Defined.

Lemma join_refusals_witness :
  dict_get 1%nat (clients server_init) = None ∧
  handle_join (λ _, false) 1%nat (str_of "h1") (bytes_of "JOIN:a:b:7000") server_init =
    Done NotJoin (log_event (Close 1%nat) server_init) ∧
  handle_join (λ _, false) 1%nat (str_of "h1") (bytes_of "JOIN:ann:port") server_init =
    Done JoinError server_init.
Proof.
  split; [reflexivity|].
  split.
  - apply (join_refusals (H := ascii_codec)); reflexivity.
  - apply (join_refusals (H := ascii_codec)); reflexivity.
Defined.

(** ** Files: sender, relay and receiver *)

Lemma slice_to_take {A} (l : list A) (n : Z) :
  0 ≤ n → slice_to l n = take (Z.to_nat n) l.
Proof. intros Hn. unfold slice_to. by rewrite decide_True. Qed.

(** The worker's state after any chunks, in terms of the bytes it still
    needs. *)
Lemma write_chunks_spec (chunks : list bytes) (w : file_worker) :
  bytes_received w ≤ filesize w →
  let need := Z.to_nat (filesize w - bytes_received w) in
  let '(w', finished, rest) := write_chunks w chunks in
  filesize w' = filesize w ∧
  file w' = file w ++ take need (concat chunks) ∧
  bytes_received w' = bytes_received w + len (take need (concat chunks)) ∧
  (finished = true ↔ chunks ≠ [] ∧ (need ≤ length (concat chunks))%nat) ∧
  (finished = true →
   (need ≤ length (concat (take (length chunks - length rest) chunks)))%nat) ∧
  (finished = false → rest = []) ∧
  (length rest ≤ length chunks)%nat.
Proof.
  revert w. induction chunks as [|chunk chunks IH]; intros w Hle need.
  - simpl. rewrite take_nil, app_nil_r. unfold len. simpl.
    repeat split; try done; try lia. by intros [? _].
  - cbn [write_chunks]. unfold write_chunk.
    set (btw := Z.min (len chunk) (filesize w - bytes_received w)).
    assert (0 ≤ btw) by (unfold btw, len; lia).
    cbn [filesize bytes_received file]. rewrite slice_to_take by done.
    destruct (bool_decide (filesize w ≤ bytes_received w + btw)) eqn:Hfin.
    + apply bool_decide_eq_true in Hfin.
      assert (need ≤ length chunk)%nat as Hneed by (unfold need, btw, len in *; lia).
      assert (Z.to_nat btw = need) as -> by (unfold need, btw, len in *; lia).
      cbn [filesize bytes_received file concat].
      rewrite take_app_le by done.
      split; [done|]. split; [done|].
      split; [unfold len; rewrite length_take; unfold need, btw, len in *; lia|].
      split; [split; [intros _; split; [done|rewrite length_app; lia]|done]|].
      split; [|split; [done|simpl; lia]].
      intros _. replace (length (chunk :: chunks) - length chunks)%nat with 1%nat
        by (simpl; lia).
      simpl. rewrite app_nil_r. done.
    + apply bool_decide_eq_false in Hfin.
      assert (length chunk < need)%nat as Hneed by (unfold need, btw, len in *; lia).
      assert (Z.to_nat btw = length chunk) as -> by (unfold need, btw, len in *; lia).
      rewrite firstn_all.
      assert (btw = len chunk) as Hbtw by (unfold btw, len in *; lia).
      specialize (IH {| filesize := filesize w;
                        bytes_received := bytes_received w + btw;
                        file := file w ++ chunk |}).
      cbn [filesize bytes_received file] in IH.
      specialize (IH ltac:(lia)).
      destruct (write_chunks _ chunks) as [[w' finished] rest].
      destruct IH as (Hsize & Hfile & Hcount & Hiff & Hpre & Hrest & Hlen).
      replace (Z.to_nat (filesize w - (bytes_received w + btw)))
        with (need - length chunk)%nat in * by (unfold need, len in *; lia).
      cbn [concat].
      rewrite take_app_ge by lia.
      split; [done|]. split; [by rewrite Hfile, <- app_assoc|].
      split; [rewrite Hcount, len_app; unfold len in *; lia|].
      split; [|split; [|split; [done|simpl; lia]]].
      * rewrite Hiff, length_app. split.
        -- intros [? ?]. split; [done|lia].
        -- intros [_ ?]. split; [|lia]. intros ->. simpl in *. lia.
      * intros Hf. specialize (Hpre Hf).
        replace (length (chunk :: chunks) - length rest)%nat
          with (S (length chunks - length rest)) by (simpl; lia).
        simpl. rewrite length_app. lia.
Qed.

(** X12.  A [FileReceiverWorker] created for [size] bytes and given any
    sequence of chunks has written exactly the first [size] bytes of
    what it was given (all of it while fewer have arrived), never more
    than [size]; it finishes on the chunk that completes the count, and
    the bytes of that chunk beyond the count are not written. *)
Theorem file_worker_writes_prefix (size : Z) (chunks : list bytes) :
  0 ≤ size →
  let '(w, finished, rest) :=
    write_chunks {| filesize := size; bytes_received := 0; file := [] |} chunks in
  file w = take (Z.to_nat size) (concat chunks) ∧
  bytes_received w = len (file w) ∧
  bytes_received w ≤ size ∧
  (finished = true ↔ chunks ≠ [] ∧ size ≤ len (concat chunks)) ∧
  (finished = false → rest = [] ∧ file w = concat chunks ∨ chunks = []).
Proof.
  intros Hsize.
  pose proof (write_chunks_spec chunks
                {| filesize := size; bytes_received := 0; file := [] |}) as Hspec.
  cbn [filesize bytes_received file] in Hspec. specialize (Hspec Hsize).
  destruct (write_chunks _ chunks) as [[w finished] rest].
  destruct Hspec as (Hs & Hfile & Hcount & Hiff & _ & Hrest & _).
  rewrite Z.sub_0_r in *. simpl in Hfile.
  split; [done|]. split; [by rewrite Hcount, Hfile|].
  split; [rewrite Hcount; unfold len; rewrite length_take; lia|].
  split; [rewrite Hiff; unfold len; split; intros [? ?]; split; try done; lia|].
  intros Hf. destruct (decide (chunks = [])) as [->|Hne]; [by right|left].
  split; [by apply Hrest|]. rewrite Hfile. apply take_ge.
  destruct (decide (Z.to_nat size ≤ length (concat chunks))%nat) as [Hle|]; [|lia].
  assert (finished = true) by (by apply Hiff). congruence.
Qed.

Lemma file_worker_writes_prefix_witness :
  0 ≤ 5 ∧
  let '(w, finished, rest) :=
    write_chunks {| filesize := 5; bytes_received := 0; file := [] |}
      [bytes_of "abc"; bytes_of "defg"; bytes_of "hij"] in
  file w = take (Z.to_nat 5) (concat [bytes_of "abc"; bytes_of "defg"; bytes_of "hij"]) ∧
  bytes_received w = len (file w) ∧
  bytes_received w ≤ 5 ∧
  (finished = true ↔
   [bytes_of "abc"; bytes_of "defg"; bytes_of "hij"] ≠ [] ∧
   5 ≤ len (concat [bytes_of "abc"; bytes_of "defg"; bytes_of "hij"])) ∧
  (finished = false →
   rest = [] ∧ file w = concat [bytes_of "abc"; bytes_of "defg"; bytes_of "hij"] ∨
   [bytes_of "abc"; bytes_of "defg"; bytes_of "hij"] = []).
Proof.
  split; [lia|].
  apply (file_worker_writes_prefix 5
           [bytes_of "abc"; bytes_of "defg"; bytes_of "hij"]). lia.
Defined.

Lemma read_chunks_spec (fuel : nat) (content : bytes) :
  (length content < fuel)%nat →
  concat (read_chunks fuel content) = content ∧
  Forall (λ chunk, chunk ≠ [] ∧ (length chunk ≤ 4096)%nat) (read_chunks fuel content).
Proof.
  revert content. induction fuel as [|fuel IH]; intros content Hlen; [lia|].
  cbn [read_chunks]. destruct (decide (take 4096 content = [])) as [E|E].
  - destruct content; [done|]. simpl in E. done.
  - assert (content ≠ []) as Hne by (intros ->; by rewrite take_nil in E).
    destruct (IH (drop 4096 content)) as [Hcat Hall].
    { rewrite length_drop. destruct content; [done|]. simpl in *. lia. }
    split.
    + simpl. by rewrite Hcat, take_drop.
    + constructor; [|done]. split; [done|]. rewrite length_take. lia.
Qed.

Lemma file_sender_chunks_aux (content : bytes) :
  concat (file_chunks content) = content ∧
  Forall (λ chunk, chunk ≠ [] ∧ (length chunk ≤ 4096)%nat) (file_chunks content).
Proof. apply read_chunks_spec. lia. Qed.

(** X13.  [FileSenderWorker] passes the file to [sendall] in order and
    completely, in chunks that are never empty and never longer than
    4096 bytes; an empty file makes it send nothing. *)
Theorem file_sender_chunks (content : bytes) :
  concat (file_chunks content) = content ∧
  Forall (λ chunk, chunk ≠ [] ∧ (length chunk ≤ 4096)%nat) (file_chunks content) ∧
  (content = [] → file_chunks content = []).
Proof.
  destruct (file_sender_chunks_aux content) as [Hcat Hall].
  split; [done|]. split; [done|]. by intros ->.
Qed.




(** ** The receiving client in raw mode *)


Section Raw_mode.
Context `{Codec}.



(** X16.  After the announcement of a file of zero bytes the next chunk
    received, whatever it holds, is handed to the worker, which writes
    nothing and finishes: an empty file is saved and no command of that
    chunk is dispatched. *)
Theorem empty_file_swallows_next_chunk (accept : bool) (b0 : bytes)
    (files : list bytes) (data : bytes) (chunks : list bytes) :
  data ≠ [] →
  cli_session accept
    {| receiver := {| buffer := b0; is_receiving_file := true |};
       worker := Some {| filesize := 0; bytes_received := 0; file := [] |};
       saved := files |} (data :: chunks) =
  '(events, final) ←
    cli_session accept
      {| receiver := {| buffer := b0; is_receiving_file := false |};
         worker := None; saved := files ++ [[]] |} chunks;
  Some (FileDataReceived data :: events, final).
Proof.
  intros Hdata. cbn [cli_session]. rewrite decide_False by done.
  unfold tcp_on_data. cbn [is_receiving_file receiver mbind option_bind].
  cbn [foldl deliver worker saved receiver buffer].
  unfold write_chunk. cbn [filesize bytes_received file].
  assert (Z.min (len data) (0 - 0) = 0) as -> by (unfold len; lia).
  rewrite bool_decide_eq_true_2 by lia.
  cbn [file]. rewrite slice_to_take by lia. rewrite take_0. done.
Qed.

(** X17.  With [is_receiving_file] set and no worker connected (the user
    declined the file, or no save path was chosen), nothing resets the
    flag: every later chunk is emitted on [file_data_received] and
    dropped, no command is dispatched again, and the buffer and the
    saved files stay as they were. *)
Theorem declined_file_mutes_receiver (accept : bool) (b0 : bytes)
    (files : list bytes) (chunks : list bytes) :
  Forall (λ data, data ≠ []) chunks →
  cli_session accept
    {| receiver := {| buffer := b0; is_receiving_file := true |};
       worker := None; saved := files |} chunks =
  Some (FileDataReceived <$> chunks,
        {| receiver := {| buffer := b0; is_receiving_file := true |};
           worker := None; saved := files |}).
Proof.
  induction 1 as [|data chunks Hdata _ IH]; [done|].
  cbn [cli_session]. rewrite decide_False by done.
  unfold tcp_on_data. cbn [is_receiving_file receiver mbind option_bind].
  cbn [foldl deliver worker saved receiver buffer].
  rewrite IH. done.
Qed.
End Raw_mode.


Lemma empty_file_swallows_next_chunk_witness :
  (bytes_of "CHAT:ann:hi" ++ [newline]) ≠ [] ∧
  cli_session (H := ascii_codec) true
    {| receiver := {| buffer := []; is_receiving_file := true |};
       worker := Some {| filesize := 0; bytes_received := 0; file := [] |};
       saved := [] |} [(bytes_of "CHAT:ann:hi" ++ [newline])] =
  Some ([FileDataReceived ((bytes_of "CHAT:ann:hi" ++ [newline]))],
        {| receiver := {| buffer := []; is_receiving_file := false |};
           worker := None; saved := [[]] |}).
Proof.
  split; [done|].
  rewrite (empty_file_swallows_next_chunk (H := ascii_codec) true [] []
             ((bytes_of "CHAT:ann:hi" ++ [newline])) [] ltac:(done)).
  reflexivity.
Defined.

Lemma declined_file_mutes_receiver_witness :
  Forall (λ data : bytes, data ≠ []) [(bytes_of "CHAT:ann:hi" ++ [newline]); (bytes_of "USER_LEFT:ann" ++ [newline])] ∧
  cli_session (H := ascii_codec) false
    {| receiver := {| buffer := []; is_receiving_file := true |};
       worker := None; saved := [] |}
    [(bytes_of "CHAT:ann:hi" ++ [newline]); (bytes_of "USER_LEFT:ann" ++ [newline])] =
  Some (FileDataReceived <$> [(bytes_of "CHAT:ann:hi" ++ [newline]); (bytes_of "USER_LEFT:ann" ++ [newline])],
        {| receiver := {| buffer := []; is_receiving_file := true |};
           worker := None; saved := [] |}).
Proof.
  assert (Forall (λ data : bytes, data ≠ []) [(bytes_of "CHAT:ann:hi" ++ [newline]); (bytes_of "USER_LEFT:ann" ++ [newline])]) as Hne by (repeat constructor; done).
  split; [exact Hne|].
  apply (declined_file_mutes_receiver (H := ascii_codec) false [] [] _ Hne).
Defined.

(** ** The demultiplexers leave no complete frame behind *)

Section Drain_idle.
Context {F : Type} (step : bytes → step_result F).
Hypothesis step_shrinks :
  ∀ p frame rest, step p = Emit frame rest → (length rest < length p)%nat.
Hypothesis step_nil : step [] = Incomplete.

End Drain_idle.


(** ** The loss estimator *)

Lemma feed_sequence_known (metrics : gmap str peer_stats) (username : str)
    (stats : peer_stats) (seqs : list Z) :
  metrics !! username = Some stats →
  (feed_sequence metrics username seqs).1 =
    <[username := foldl update_stats stats seqs]> metrics ∧
  length (feed_sequence metrics username seqs).2 = length seqs.
Proof.
  revert metrics stats. induction seqs as [|seq_num seqs IH]; intros metrics stats Hm.
  - simpl. by rewrite insert_id.
  - cbn [feed_sequence foldl]. rewrite (on_video_packet_known _ _ _ _ Hm).
    destruct (IH (<[username := update_stats stats seq_num]> metrics)
                 (update_stats stats seq_num)) as [IH1 IH2].
    { by rewrite lookup_insert_eq. }
    destruct (feed_sequence _ username seqs) as [final losses]. simpl in *.
    by rewrite IH1, IH2, insert_insert_eq.
Qed.

Lemma feed_sequence_fresh (metrics : gmap str peer_stats) (username : str)
    (seq_num : Z) (seqs : list Z) :
  metrics !! username = None →
  (feed_sequence metrics username (seq_num :: seqs)).1 =
    <[username := foldl update_stats
                    {| last_seq := seq_num; lost := 0; total := 1 |} seqs]> metrics ∧
  length (feed_sequence metrics username (seq_num :: seqs)).2 = S (length seqs).
Proof.
  intros Hm. cbn [feed_sequence]. rewrite (on_video_packet_fresh _ _ _ Hm).
  rewrite update_stats_first.
  destruct (feed_sequence_known
              (<[username := {| last_seq := seq_num; lost := 0; total := 1 |}]> metrics)
              username {| last_seq := seq_num; lost := 0; total := 1 |} seqs)
    as [H1 H2].
  { by rewrite lookup_insert_eq. }
  destruct (feed_sequence _ username seqs) as [final losses]. simpl in *.
  by rewrite H1, H2, insert_insert_eq.
Qed.

Lemma foldl_update_increasing (seqs : list Z) (stats : peer_stats) :
  (∀ i a b, (last_seq stats :: seqs) !! i = Some a →
            (last_seq stats :: seqs) !! S i = Some b → a < b) →
  foldl update_stats stats seqs =
    {| last_seq := default (last_seq stats) (last seqs);
       lost := lost stats + (default (last_seq stats) (last seqs) - last_seq stats)
               - len seqs;
       total := total stats + len seqs |}.
Proof.
  revert stats. induction seqs as [|s seqs IH]; intros stats Hinc.
  - simpl. destruct stats. unfold len. simpl. f_equal; lia.
  - cbn [foldl]. rewrite IH.
    + rewrite update_stats_spec. cbn [last_seq lost total].
      pose proof (Hinc 0%nat (last_seq stats) s eq_refl eq_refl) as Hlt.
      rewrite last_cons. unfold len. cbn [length].
      destruct (last seqs) as [z|]; simpl; f_equal; lia.
    + rewrite update_stats_spec. cbn [last_seq]. intros i a b Ha Hb.
      apply (Hinc (S i) a b); done.
Qed.

(** X19.  For a peer seen for the first time whose packets arrive with
    strictly increasing sequence numbers, the estimator counts every
    packet in [total] and exactly the skipped numbers in [lost]:
    [lost = (last - first + 1) - total]. *)
Theorem loss_counts_skipped_numbers (metrics : gmap str peer_stats)
    (username : str) (first : Z) (seqs : list Z) :
  metrics !! username = None →
  (∀ i a b, (first :: seqs) !! i = Some a → (first :: seqs) !! S i = Some b → a < b) →
  (feed_sequence metrics username (first :: seqs)).1 !! username =
    Some {| last_seq := default first (last seqs);
            lost := (default first (last seqs) - first + 1) - len (first :: seqs);
            total := len (first :: seqs) |}.
Proof.
  intros Hm Hinc.
  destruct (feed_sequence_fresh metrics username first seqs Hm) as [-> _].
  rewrite lookup_insert_eq. f_equal.
  rewrite foldl_update_increasing by done.
  cbn [last_seq lost total]. unfold len. cbn [length]. f_equal; lia.
Qed.

Lemma loss_counts_skipped_numbers_witness :
  (∅ : gmap str peer_stats) !! str_of "ann" = None ∧
  (feed_sequence ∅ (str_of "ann") [10; 11; 15; 20]).1 !! str_of "ann" =
    Some {| last_seq := 20; lost := 7; total := 4 |}.
Proof.
  split; [done|].
  rewrite (loss_counts_skipped_numbers ∅ (str_of "ann") 10 [11; 15; 20]).
  - reflexivity.
  - done.
  - intros [|[|[|[|i]]]] a b Ha Hb; simpl in *; try done;
      injection Ha as <-; injection Hb as <-; lia.
Defined.

(** X20.  A packet that arrives late (its number is not above
    [last_seq]) adds nothing to [lost] but moves [last_seq] back to its
    own number, so the next packet in order is counted as a gap: a late
    packet [a] followed by [b > last_seq] adds [b - a - 1] to [lost],
    that is [last_seq - a] more than without the late packet. *)
Theorem late_packet_inflates_loss (stats : peer_stats) (a b : Z) :
  a ≤ last_seq stats → last_seq stats < b →
  lost (update_stats stats a) = lost stats ∧
  last_seq (update_stats stats a) = a ∧
  lost (update_stats (update_stats stats a) b) = lost stats + (b - a - 1) ∧
  lost (update_stats (update_stats stats a) b) =
    lost (update_stats stats b) + (last_seq stats - a).
Proof.
  intros Ha Hb. rewrite !update_stats_spec. cbn [last_seq lost total].
  repeat split; lia.
Qed.

Lemma late_packet_inflates_loss_witness :
  3 ≤ last_seq {| last_seq := 5; lost := 0; total := 6 |} ∧
  last_seq {| last_seq := 5; lost := 0; total := 6 |} < 6 ∧
  lost (update_stats (update_stats {| last_seq := 5; lost := 0; total := 6 |} 3) 6) = 2.
Proof.
  split; [simpl; lia|]. split; [simpl; lia|].
  destruct (late_packet_inflates_loss {| last_seq := 5; lost := 0; total := 6 |} 3 6)
    as (_ & _ & -> & _); simpl; lia.
Defined.




Lemma foldl_update_video_seqs (n : nat) (seq_num : Z) (stats : peer_stats) :
  0 ≤ seq_num < 65536 → last_seq stats = seq_num →
  foldl update_stats stats (video_seqs n seq_num) =
    {| last_seq := (seq_num + Z.of_nat n) mod 65536;
       lost := lost stats;
       total := total stats + Z.of_nat n |}.
Proof.
  revert seq_num stats. induction n as [|n IH]; intros seq_num stats Hrange Hlast.
  - simpl. rewrite Z.add_0_r, Z.mod_small by lia. destruct stats; simpl in *.
    f_equal; lia.
  - cbn [video_seqs foldl].
    assert (0 ≤ next_seq seq_num < 65536) as Hnext
      by (unfold next_seq; apply Z.mod_pos_bound; lia).
    assert (next_seq seq_num ≤ seq_num + 1) as Hle
      by (unfold next_seq; apply Z.mod_le; lia).
    rewrite (IH (next_seq seq_num)); [|done|by rewrite update_stats_spec].
    rewrite update_stats_spec. cbn [last_seq lost total]. f_equal.
    + unfold next_seq. rewrite Zplus_mod_idemp_l. f_equal. lia.
    + lia.
    + lia.
Qed.

(** X22.  The sequence numbers that [VideoWorker] stamps on successive
    frames, which wrap from 65535 to 0, are counted without loss when
    all frames arrive in order: after [n] frames of a new peer
    [total = n] and [lost = 0], also across the wrap. *)
Theorem wrap_is_not_counted_as_loss (metrics : gmap str peer_stats)
    (username : str) (seq_num : Z) (n : nat) :
  metrics !! username = None → 0 ≤ seq_num < 65536 → (0 < n)%nat →
  (feed_sequence metrics username (video_seqs n seq_num)).1 !! username =
    Some {| last_seq := (seq_num + Z.of_nat n) mod 65536;
            lost := 0;
            total := Z.of_nat n |}.
Proof.
  intros Hm Hrange Hn. destruct n as [|n]; [lia|]. cbn [video_seqs].
  destruct (feed_sequence_fresh metrics username (next_seq seq_num)
              (video_seqs n (next_seq seq_num)) Hm) as [-> _].
  rewrite lookup_insert_eq. f_equal.
  rewrite (foldl_update_video_seqs n (next_seq seq_num)).
  - cbn [lost total]. unfold next_seq. rewrite Zplus_mod_idemp_l. f_equal.
    + f_equal. lia.
    + lia.
  - unfold next_seq. apply Z.mod_pos_bound. lia.
  - done.
Qed.

Lemma wrap_is_not_counted_as_loss_witness :
  (∅ : gmap str peer_stats) !! str_of "ann" = None ∧ 0 ≤ 65533 < 65536 ∧ (0 < 5)%nat ∧
  video_seqs 5 65533 = [65534; 65535; 0; 1; 2] ∧
  (feed_sequence ∅ (str_of "ann") (video_seqs 5 65533)).1 !! str_of "ann" =
    Some {| last_seq := 2; lost := 0; total := 5 |}.
Proof.
  split; [done|]. split; [lia|]. split; [lia|]. split; [reflexivity|].
  rewrite (wrap_is_not_counted_as_loss ∅ (str_of "ann") 65533 5);
    [reflexivity|done|lia|lia].
Defined.

(** ** Datagrams and chat lines *)

Lemma split_max_three {A} `{EqDecision A} (sep : A) (x y z rest : list A) :
  sep ∉ x → sep ∉ y → sep ∉ z →
  split_max sep 3 (x ++ sep :: y ++ sep :: z ++ sep :: rest) = [x; y; z; rest].
Proof.
  intros Hx Hy Hz. cbn [split_max]. rewrite partition_at_intro by done.
  rewrite partition_at_intro by done. by rewrite partition_at_intro by done.
Qed.

(** X23.  A video datagram [v:<username>:<seq>:<payload>] whose username
    and sequence fields hold no colon is accounted to that username and
    sequence number whatever bytes the payload holds, colons included;
    a datagram that does not start with [v:] leaves the metrics
    untouched and reports nothing. *)
Theorem video_datagram_parsed `{Codec} (metrics : gmap str peer_stats)
    (username_bytes seq_num_bytes payload : bytes) (username : str) (seq_num : Z) :
  colon ∉ username_bytes → colon ∉ seq_num_bytes →
  utf8_decode username_bytes = Some username →
  int_of_bytes seq_num_bytes = Some seq_num →
  on_datagram metrics
    (bytes_of "v" ++ colon :: username_bytes ++ colon :: seq_num_bytes ++ colon :: payload) =
    ((on_video_packet metrics username seq_num).1,
     Some (username, (on_video_packet metrics username seq_num).2)) ∧
  (∀ data, take 2 data ≠ bytes_of "v:" → on_datagram metrics data = (metrics, None)).
Proof.
  intros Hu Hs Hdec Hint. split.
  - unfold on_datagram.
    change (bytes_of "v" ++ colon :: ?l) with (x76 :: x3a :: l).
    change (x76 :: x3a :: ?l) with (bytes_of "v" ++ colon :: l) at 2.
    rewrite split_max_three; [|by vm_compute; intros ?%list_elem_of_singleton|done|done].
    rewrite Hdec, Hint. by destruct (on_video_packet metrics username seq_num).
  - intros data Hdata. unfold on_datagram.
    destruct data as [|[] [|[] data]]; try done.
Qed.

Lemma video_datagram_parsed_witness :
  (colon ∉ bytes_of "ann") ∧ (colon ∉ bytes_of "7") ∧
  utf8_decode (Codec := ascii_codec) (bytes_of "ann") = Some (str_of "ann") ∧
  int_of_bytes (Codec := ascii_codec) (bytes_of "7") = Some 7 ∧
  on_datagram (H := ascii_codec) ∅ (bytes_of "v:ann:7:a:b:c") =
    ((on_video_packet ∅ (str_of "ann") 7).1,
     Some (str_of "ann", (on_video_packet ∅ (str_of "ann") 7).2)).
Proof.
  assert (colon ∉ bytes_of "ann") as Hu by decide_by_compute.
  assert (colon ∉ bytes_of "7") as Hs by decide_by_compute.
  split; [exact Hu|]. split; [exact Hs|]. split; [reflexivity|]. split; [reflexivity|].
  apply (video_datagram_parsed (H := ascii_codec) ∅ (bytes_of "ann") (bytes_of "7")
           (bytes_of "a:b:c") (str_of "ann") 7 Hu Hs eq_refl eq_refl).
Defined.

(** X24.  A chat line survives the client: for a username without a
    colon, the command CHAT with payload [<username>:<text>] is passed
    on as one message, and [handle_server_message] shows exactly that
    username and text, whatever colons the text holds; a SYSTEM line
    shows its whole payload; a CHAT payload without a colon makes the
    handler raise. *)
Theorem chat_line_round_trip `{Codec} (username text : str) :
  58%N ∉ username →
  process_command (str_of "CHAT") (username ++ [58%N] ++ text) =
    Some (MessageReceived (str_of "CHAT" ++ [58%N] ++ username ++ [58%N] ++ text)) ∧
  handle_server_message (str_of "CHAT" ++ [58%N] ++ username ++ [58%N] ++ text) =
    Some (ChatLine username text) ∧
  handle_server_message (str_of "SYSTEM" ++ [58%N] ++ text) = Some (SystemLine text) ∧
  handle_server_message (str_of "CHAT" ++ [58%N] ++ username) = None.
Proof.
  intros Hu.
  assert (58%N ∉ str_of "CHAT") as Hchat by decide_by_compute.
  assert (58%N ∉ str_of "SYSTEM") as Hsystem by decide_by_compute.
  split; [|split; [|split]].
  - unfold process_command. by rewrite !decide_False by decide_by_compute.
  - unfold handle_server_message.
    cbn [app].
    rewrite split_max_one by done.
    rewrite decide_False by decide_by_compute. rewrite decide_True by done.
    by rewrite split_max_one by done.
  - unfold handle_server_message.
    cbn [app].
    rewrite split_max_one by done. by rewrite decide_True by done.
  - unfold handle_server_message.
    cbn [app].
    rewrite split_max_one by done.
    rewrite decide_False by decide_by_compute. rewrite decide_True by done.
    cbn [split_max]. apply partition_at_None in Hu. by rewrite Hu.
Qed.

Lemma chat_line_round_trip_witness :
  (58%N ∉ str_of "ann") ∧
  handle_server_message (str_of "CHAT:ann:see 10:30") =
    Some (ChatLine (str_of "ann") (str_of "see 10:30")).
Proof.
  assert (58%N ∉ str_of "ann") as Hu by decide_by_compute.
  split; [exact Hu|].
  destruct (chat_line_round_trip (H := ascii_codec) (str_of "ann") (str_of "see 10:30") Hu)
    as (_ & Hshow & _).
  exact Hshow.
Defined.
